(** * Embryo Player v3: the deterministic musical scheduler

    A shallow embedding of the sequencer core of [src/js/embryo-player.js]
    (class [EmbrioPlayer]): quantizer, recorder, tempo manager, scheduler
    tick, trigger dispatcher and transport control.

    Modelling conventions.
    - JavaScript numbers that carry times, tempi and strengths are exact
      rationals ([Q]); numeric results are compared with [==].  Rounding
      error, [NaN] and [Infinity] are outside the model, so statements that
      divide by the tempo assume it is positive (the program keeps it in
      [[60, 200]]).  The tap tempo is the exception: its two divisions are
      binary64 divisions, because their rounding decides the tempo.
    - The player object is one flat record, updated by explicit state
      passing.  [audioContext.currentTime] is an argument [now] of every
      method that reads it.
    - [setTimeout] and [setInterval] are entries of two tables kept in the
      state, together with a millisecond clock; a pending timeout may run
      once the clock has reached its due time.
    - DOM updates and terminal/console logging have no counterpart.  The
      body of [playPad] belongs to the Web Audio layer: the model records
      each call in [playLog]. *)

From Stdlib Require Import QArith Qround Qminmax Qabs Qpower Lqa Lia ZArith.
From stdpp Require Import gmap strings list pretty.

Open Scope Q_scope.

(** ** JavaScript number primitives over exact rationals *)

Module JS.

(** [a < b] as a boolean test. *)
Definition ltb (a b : Q) : bool := negb (Qle_bool b a).

(** [a >= b] as a boolean test. *)
Definition geb (a b : Q) : bool := Qle_bool b a.

(** [Math.floor]. *)
Definition floor (x : Q) : Z := Qfloor x.

(** [Math.round]: the nearest integer, ties towards plus infinity. *)
Definition round (x : Q) : Z := Qfloor (x + (1 # 2)).

(** Truncation towards zero. *)
Definition trunc (x : Q) : Z := if Qle_bool 0 x then Qfloor x else Qceiling x.

(** The remainder operator [a % b]: the result takes the sign of the
    dividend. *)
Definition rem (a b : Q) : Q := a - b * inject_Z (trunc (a / b)).

(** Three decimal digits, zero padded. *)
Definition pad3 (n : Z) : string :=
  (if (n <? 10)%Z then "00" else if (n <? 100)%Z then "0" else "")%string
    +:+ pretty n.

(** [x.toFixed(3)]: the sign is split off first, then the magnitude is
    rounded to the nearest thousandth, the larger candidate winning a tie. *)
Definition toFixed3 (x : Q) : string :=
  let neg := ltb x 0 in
  let a := if neg then - x else x in
  let n := Qfloor (a * 1000 + (1 # 2)) in
  (if neg then "-" else "")%string
    +:+ pretty (n / 1000)%Z +:+ "." +:+ pad3 (n mod 1000)%Z.

End JS.

(** ** Configuration constants *)

Definition BEATS_PER_BAR : Z := 4.
Definition MIN_BPM : Q := 60.
Definition MAX_BPM : Q := 200.
Definition PRE_COUNT_BARS : Z := 1.
Definition BAR_COUNT : Z := 4.
Definition GRID_RESOLUTION : Z := 16.
Definition GRID_STEPS_PER_BEAT : Z := 4.
Definition QUANTIZE_STRENGTH : Q := 0.5.
Definition SCHEDULE_AHEAD_TIME : Q := 0.12.
Definition LOOKAHEAD : Q := 0.025.

(** ** Data model *)

(** A recorded pad trigger.  [bank] and [originalTime] may be absent
    ([undefined]); [overdubbed] is absent on normally recorded events and is
    read only for its truth value. *)
Record Event : Type := mkEvent {
  pad : Z;
  time : Q;
  bank : option string;
  originalTime : option Q;
  quantized : bool;
  overdubbed : bool
}.

(** What a pending [setTimeout] callback does when it runs. *)
Inductive TimeoutAction : Type :=
| DeleteKey (eventKey : string)        (* scheduledEvents.delete(eventKey) *)
| RestoreBank (originalBank : string)  (* selectBank(originalBank) *)
| RestartSequence                      (* startSequence() *)
| PreCount (preCountRemaining : Z) (beatMs : Q).  (* the preCount closure *)

(** What a [setInterval] callback is, with its period in milliseconds. *)
Inductive IntervalAction : Type :=
| SchedulerTickI (periodMs : Q)
| MetronomeI (periodMs : Q)
| BarAdvanceI (periodMs : Q).

(** The player object, followed by the timer tables of the host
    ([clock] in milliseconds) and two call traces: [dispatchLog] lists the
    calls of [triggerScheduled], [playLog] the calls of [playPad]. *)
Record Player : Type := mkPlayer {
  audioContext : bool;
  isRecording : bool;
  isOverdubbing : bool;
  overdubStartTime : Q;
  isPlaying : bool;
  bpm : Q;
  currentBar : Z;
  currentBeat : Z;
  sequence : list (list Event);
  sequenceStartTime : Q;
  metronomeInterval : option nat;
  beatInterval : option nat;
  barAdvancementInterval : option nat;
  nextNoteTime : Q;
  schedulerTimer : option nat;
  currentBank : string;
  scheduledEvents : gset string;
  deletePadMode : bool;
  quantizeMode : bool;
  quantizeStrength : Q;
  gridStepsPerBeat : Z;
  performanceMode : bool;
  isEditMode : bool;
  clock : Z;
  timeouts : list (Z * TimeoutAction);
  intervals : list (nat * IntervalAction);
  nextTimerId : nat;
  dispatchLog : list (Event * Q);
  playLog : list (Z * Q)
}.

(** Field assignment [this.f = v], one setter per mutable field. *)

Definition set_isRecording (v : bool) (s : Player) : Player :=
  {| audioContext := audioContext s; isRecording := v;
     isOverdubbing := isOverdubbing s;
     overdubStartTime := overdubStartTime s; isPlaying := isPlaying s;
     bpm := bpm s; currentBar := currentBar s; currentBeat := currentBeat s;
     sequence := sequence s; sequenceStartTime := sequenceStartTime s;
     metronomeInterval := metronomeInterval s;
     beatInterval := beatInterval s;
     barAdvancementInterval := barAdvancementInterval s;
     nextNoteTime := nextNoteTime s; schedulerTimer := schedulerTimer s;
     currentBank := currentBank s; scheduledEvents := scheduledEvents s;
     deletePadMode := deletePadMode s; quantizeMode := quantizeMode s;
     quantizeStrength := quantizeStrength s;
     gridStepsPerBeat := gridStepsPerBeat s;
     performanceMode := performanceMode s; isEditMode := isEditMode s;
     clock := clock s; timeouts := timeouts s; intervals := intervals s;
     nextTimerId := nextTimerId s; dispatchLog := dispatchLog s;
     playLog := playLog s |}.

Definition set_isPlaying (v : bool) (s : Player) : Player :=
  {| audioContext := audioContext s; isRecording := isRecording s;
     isOverdubbing := isOverdubbing s;
     overdubStartTime := overdubStartTime s; isPlaying := v; bpm := bpm s;
     currentBar := currentBar s; currentBeat := currentBeat s;
     sequence := sequence s; sequenceStartTime := sequenceStartTime s;
     metronomeInterval := metronomeInterval s;
     beatInterval := beatInterval s;
     barAdvancementInterval := barAdvancementInterval s;
     nextNoteTime := nextNoteTime s; schedulerTimer := schedulerTimer s;
     currentBank := currentBank s; scheduledEvents := scheduledEvents s;
     deletePadMode := deletePadMode s; quantizeMode := quantizeMode s;
     quantizeStrength := quantizeStrength s;
     gridStepsPerBeat := gridStepsPerBeat s;
     performanceMode := performanceMode s; isEditMode := isEditMode s;
     clock := clock s; timeouts := timeouts s; intervals := intervals s;
     nextTimerId := nextTimerId s; dispatchLog := dispatchLog s;
     playLog := playLog s |}.

Definition set_bpm (v : Q) (s : Player) : Player :=
  {| audioContext := audioContext s; isRecording := isRecording s;
     isOverdubbing := isOverdubbing s;
     overdubStartTime := overdubStartTime s; isPlaying := isPlaying s;
     bpm := v; currentBar := currentBar s; currentBeat := currentBeat s;
     sequence := sequence s; sequenceStartTime := sequenceStartTime s;
     metronomeInterval := metronomeInterval s;
     beatInterval := beatInterval s;
     barAdvancementInterval := barAdvancementInterval s;
     nextNoteTime := nextNoteTime s; schedulerTimer := schedulerTimer s;
     currentBank := currentBank s; scheduledEvents := scheduledEvents s;
     deletePadMode := deletePadMode s; quantizeMode := quantizeMode s;
     quantizeStrength := quantizeStrength s;
     gridStepsPerBeat := gridStepsPerBeat s;
     performanceMode := performanceMode s; isEditMode := isEditMode s;
     clock := clock s; timeouts := timeouts s; intervals := intervals s;
     nextTimerId := nextTimerId s; dispatchLog := dispatchLog s;
     playLog := playLog s |}.

Definition set_currentBar (v : Z) (s : Player) : Player :=
  {| audioContext := audioContext s; isRecording := isRecording s;
     isOverdubbing := isOverdubbing s;
     overdubStartTime := overdubStartTime s; isPlaying := isPlaying s;
     bpm := bpm s; currentBar := v; currentBeat := currentBeat s;
     sequence := sequence s; sequenceStartTime := sequenceStartTime s;
     metronomeInterval := metronomeInterval s;
     beatInterval := beatInterval s;
     barAdvancementInterval := barAdvancementInterval s;
     nextNoteTime := nextNoteTime s; schedulerTimer := schedulerTimer s;
     currentBank := currentBank s; scheduledEvents := scheduledEvents s;
     deletePadMode := deletePadMode s; quantizeMode := quantizeMode s;
     quantizeStrength := quantizeStrength s;
     gridStepsPerBeat := gridStepsPerBeat s;
     performanceMode := performanceMode s; isEditMode := isEditMode s;
     clock := clock s; timeouts := timeouts s; intervals := intervals s;
     nextTimerId := nextTimerId s; dispatchLog := dispatchLog s;
     playLog := playLog s |}.

Definition set_currentBeat (v : Z) (s : Player) : Player :=
  {| audioContext := audioContext s; isRecording := isRecording s;
     isOverdubbing := isOverdubbing s;
     overdubStartTime := overdubStartTime s; isPlaying := isPlaying s;
     bpm := bpm s; currentBar := currentBar s; currentBeat := v;
     sequence := sequence s; sequenceStartTime := sequenceStartTime s;
     metronomeInterval := metronomeInterval s;
     beatInterval := beatInterval s;
     barAdvancementInterval := barAdvancementInterval s;
     nextNoteTime := nextNoteTime s; schedulerTimer := schedulerTimer s;
     currentBank := currentBank s; scheduledEvents := scheduledEvents s;
     deletePadMode := deletePadMode s; quantizeMode := quantizeMode s;
     quantizeStrength := quantizeStrength s;
     gridStepsPerBeat := gridStepsPerBeat s;
     performanceMode := performanceMode s; isEditMode := isEditMode s;
     clock := clock s; timeouts := timeouts s; intervals := intervals s;
     nextTimerId := nextTimerId s; dispatchLog := dispatchLog s;
     playLog := playLog s |}.

Definition set_sequence (v : list (list Event)) (s : Player) : Player :=
  {| audioContext := audioContext s; isRecording := isRecording s;
     isOverdubbing := isOverdubbing s;
     overdubStartTime := overdubStartTime s; isPlaying := isPlaying s;
     bpm := bpm s; currentBar := currentBar s; currentBeat := currentBeat s;
     sequence := v; sequenceStartTime := sequenceStartTime s;
     metronomeInterval := metronomeInterval s;
     beatInterval := beatInterval s;
     barAdvancementInterval := barAdvancementInterval s;
     nextNoteTime := nextNoteTime s; schedulerTimer := schedulerTimer s;
     currentBank := currentBank s; scheduledEvents := scheduledEvents s;
     deletePadMode := deletePadMode s; quantizeMode := quantizeMode s;
     quantizeStrength := quantizeStrength s;
     gridStepsPerBeat := gridStepsPerBeat s;
     performanceMode := performanceMode s; isEditMode := isEditMode s;
     clock := clock s; timeouts := timeouts s; intervals := intervals s;
     nextTimerId := nextTimerId s; dispatchLog := dispatchLog s;
     playLog := playLog s |}.

Definition set_sequenceStartTime (v : Q) (s : Player) : Player :=
  {| audioContext := audioContext s; isRecording := isRecording s;
     isOverdubbing := isOverdubbing s;
     overdubStartTime := overdubStartTime s; isPlaying := isPlaying s;
     bpm := bpm s; currentBar := currentBar s; currentBeat := currentBeat s;
     sequence := sequence s; sequenceStartTime := v;
     metronomeInterval := metronomeInterval s;
     beatInterval := beatInterval s;
     barAdvancementInterval := barAdvancementInterval s;
     nextNoteTime := nextNoteTime s; schedulerTimer := schedulerTimer s;
     currentBank := currentBank s; scheduledEvents := scheduledEvents s;
     deletePadMode := deletePadMode s; quantizeMode := quantizeMode s;
     quantizeStrength := quantizeStrength s;
     gridStepsPerBeat := gridStepsPerBeat s;
     performanceMode := performanceMode s; isEditMode := isEditMode s;
     clock := clock s; timeouts := timeouts s; intervals := intervals s;
     nextTimerId := nextTimerId s; dispatchLog := dispatchLog s;
     playLog := playLog s |}.

Definition set_metronomeInterval (v : option nat) (s : Player) : Player :=
  {| audioContext := audioContext s; isRecording := isRecording s;
     isOverdubbing := isOverdubbing s;
     overdubStartTime := overdubStartTime s; isPlaying := isPlaying s;
     bpm := bpm s; currentBar := currentBar s; currentBeat := currentBeat s;
     sequence := sequence s; sequenceStartTime := sequenceStartTime s;
     metronomeInterval := v; beatInterval := beatInterval s;
     barAdvancementInterval := barAdvancementInterval s;
     nextNoteTime := nextNoteTime s; schedulerTimer := schedulerTimer s;
     currentBank := currentBank s; scheduledEvents := scheduledEvents s;
     deletePadMode := deletePadMode s; quantizeMode := quantizeMode s;
     quantizeStrength := quantizeStrength s;
     gridStepsPerBeat := gridStepsPerBeat s;
     performanceMode := performanceMode s; isEditMode := isEditMode s;
     clock := clock s; timeouts := timeouts s; intervals := intervals s;
     nextTimerId := nextTimerId s; dispatchLog := dispatchLog s;
     playLog := playLog s |}.

Definition set_beatInterval (v : option nat) (s : Player) : Player :=
  {| audioContext := audioContext s; isRecording := isRecording s;
     isOverdubbing := isOverdubbing s;
     overdubStartTime := overdubStartTime s; isPlaying := isPlaying s;
     bpm := bpm s; currentBar := currentBar s; currentBeat := currentBeat s;
     sequence := sequence s; sequenceStartTime := sequenceStartTime s;
     metronomeInterval := metronomeInterval s; beatInterval := v;
     barAdvancementInterval := barAdvancementInterval s;
     nextNoteTime := nextNoteTime s; schedulerTimer := schedulerTimer s;
     currentBank := currentBank s; scheduledEvents := scheduledEvents s;
     deletePadMode := deletePadMode s; quantizeMode := quantizeMode s;
     quantizeStrength := quantizeStrength s;
     gridStepsPerBeat := gridStepsPerBeat s;
     performanceMode := performanceMode s; isEditMode := isEditMode s;
     clock := clock s; timeouts := timeouts s; intervals := intervals s;
     nextTimerId := nextTimerId s; dispatchLog := dispatchLog s;
     playLog := playLog s |}.

Definition set_barAdvancementInterval (v : option nat) (s : Player) : Player :=
  {| audioContext := audioContext s; isRecording := isRecording s;
     isOverdubbing := isOverdubbing s;
     overdubStartTime := overdubStartTime s; isPlaying := isPlaying s;
     bpm := bpm s; currentBar := currentBar s; currentBeat := currentBeat s;
     sequence := sequence s; sequenceStartTime := sequenceStartTime s;
     metronomeInterval := metronomeInterval s;
     beatInterval := beatInterval s; barAdvancementInterval := v;
     nextNoteTime := nextNoteTime s; schedulerTimer := schedulerTimer s;
     currentBank := currentBank s; scheduledEvents := scheduledEvents s;
     deletePadMode := deletePadMode s; quantizeMode := quantizeMode s;
     quantizeStrength := quantizeStrength s;
     gridStepsPerBeat := gridStepsPerBeat s;
     performanceMode := performanceMode s; isEditMode := isEditMode s;
     clock := clock s; timeouts := timeouts s; intervals := intervals s;
     nextTimerId := nextTimerId s; dispatchLog := dispatchLog s;
     playLog := playLog s |}.

Definition set_nextNoteTime (v : Q) (s : Player) : Player :=
  {| audioContext := audioContext s; isRecording := isRecording s;
     isOverdubbing := isOverdubbing s;
     overdubStartTime := overdubStartTime s; isPlaying := isPlaying s;
     bpm := bpm s; currentBar := currentBar s; currentBeat := currentBeat s;
     sequence := sequence s; sequenceStartTime := sequenceStartTime s;
     metronomeInterval := metronomeInterval s;
     beatInterval := beatInterval s;
     barAdvancementInterval := barAdvancementInterval s; nextNoteTime := v;
     schedulerTimer := schedulerTimer s; currentBank := currentBank s;
     scheduledEvents := scheduledEvents s; deletePadMode := deletePadMode s;
     quantizeMode := quantizeMode s; quantizeStrength := quantizeStrength s;
     gridStepsPerBeat := gridStepsPerBeat s;
     performanceMode := performanceMode s; isEditMode := isEditMode s;
     clock := clock s; timeouts := timeouts s; intervals := intervals s;
     nextTimerId := nextTimerId s; dispatchLog := dispatchLog s;
     playLog := playLog s |}.

Definition set_schedulerTimer (v : option nat) (s : Player) : Player :=
  {| audioContext := audioContext s; isRecording := isRecording s;
     isOverdubbing := isOverdubbing s;
     overdubStartTime := overdubStartTime s; isPlaying := isPlaying s;
     bpm := bpm s; currentBar := currentBar s; currentBeat := currentBeat s;
     sequence := sequence s; sequenceStartTime := sequenceStartTime s;
     metronomeInterval := metronomeInterval s;
     beatInterval := beatInterval s;
     barAdvancementInterval := barAdvancementInterval s;
     nextNoteTime := nextNoteTime s; schedulerTimer := v;
     currentBank := currentBank s; scheduledEvents := scheduledEvents s;
     deletePadMode := deletePadMode s; quantizeMode := quantizeMode s;
     quantizeStrength := quantizeStrength s;
     gridStepsPerBeat := gridStepsPerBeat s;
     performanceMode := performanceMode s; isEditMode := isEditMode s;
     clock := clock s; timeouts := timeouts s; intervals := intervals s;
     nextTimerId := nextTimerId s; dispatchLog := dispatchLog s;
     playLog := playLog s |}.

Definition set_currentBank (v : string) (s : Player) : Player :=
  {| audioContext := audioContext s; isRecording := isRecording s;
     isOverdubbing := isOverdubbing s;
     overdubStartTime := overdubStartTime s; isPlaying := isPlaying s;
     bpm := bpm s; currentBar := currentBar s; currentBeat := currentBeat s;
     sequence := sequence s; sequenceStartTime := sequenceStartTime s;
     metronomeInterval := metronomeInterval s;
     beatInterval := beatInterval s;
     barAdvancementInterval := barAdvancementInterval s;
     nextNoteTime := nextNoteTime s; schedulerTimer := schedulerTimer s;
     currentBank := v; scheduledEvents := scheduledEvents s;
     deletePadMode := deletePadMode s; quantizeMode := quantizeMode s;
     quantizeStrength := quantizeStrength s;
     gridStepsPerBeat := gridStepsPerBeat s;
     performanceMode := performanceMode s; isEditMode := isEditMode s;
     clock := clock s; timeouts := timeouts s; intervals := intervals s;
     nextTimerId := nextTimerId s; dispatchLog := dispatchLog s;
     playLog := playLog s |}.

Definition set_scheduledEvents (v : gset string) (s : Player) : Player :=
  {| audioContext := audioContext s; isRecording := isRecording s;
     isOverdubbing := isOverdubbing s;
     overdubStartTime := overdubStartTime s; isPlaying := isPlaying s;
     bpm := bpm s; currentBar := currentBar s; currentBeat := currentBeat s;
     sequence := sequence s; sequenceStartTime := sequenceStartTime s;
     metronomeInterval := metronomeInterval s;
     beatInterval := beatInterval s;
     barAdvancementInterval := barAdvancementInterval s;
     nextNoteTime := nextNoteTime s; schedulerTimer := schedulerTimer s;
     currentBank := currentBank s; scheduledEvents := v;
     deletePadMode := deletePadMode s; quantizeMode := quantizeMode s;
     quantizeStrength := quantizeStrength s;
     gridStepsPerBeat := gridStepsPerBeat s;
     performanceMode := performanceMode s; isEditMode := isEditMode s;
     clock := clock s; timeouts := timeouts s; intervals := intervals s;
     nextTimerId := nextTimerId s; dispatchLog := dispatchLog s;
     playLog := playLog s |}.

Definition set_deletePadMode (v : bool) (s : Player) : Player :=
  {| audioContext := audioContext s; isRecording := isRecording s;
     isOverdubbing := isOverdubbing s;
     overdubStartTime := overdubStartTime s; isPlaying := isPlaying s;
     bpm := bpm s; currentBar := currentBar s; currentBeat := currentBeat s;
     sequence := sequence s; sequenceStartTime := sequenceStartTime s;
     metronomeInterval := metronomeInterval s;
     beatInterval := beatInterval s;
     barAdvancementInterval := barAdvancementInterval s;
     nextNoteTime := nextNoteTime s; schedulerTimer := schedulerTimer s;
     currentBank := currentBank s; scheduledEvents := scheduledEvents s;
     deletePadMode := v; quantizeMode := quantizeMode s;
     quantizeStrength := quantizeStrength s;
     gridStepsPerBeat := gridStepsPerBeat s;
     performanceMode := performanceMode s; isEditMode := isEditMode s;
     clock := clock s; timeouts := timeouts s; intervals := intervals s;
     nextTimerId := nextTimerId s; dispatchLog := dispatchLog s;
     playLog := playLog s |}.

Definition set_performanceMode (v : bool) (s : Player) : Player :=
  {| audioContext := audioContext s; isRecording := isRecording s;
     isOverdubbing := isOverdubbing s;
     overdubStartTime := overdubStartTime s; isPlaying := isPlaying s;
     bpm := bpm s; currentBar := currentBar s; currentBeat := currentBeat s;
     sequence := sequence s; sequenceStartTime := sequenceStartTime s;
     metronomeInterval := metronomeInterval s;
     beatInterval := beatInterval s;
     barAdvancementInterval := barAdvancementInterval s;
     nextNoteTime := nextNoteTime s; schedulerTimer := schedulerTimer s;
     currentBank := currentBank s; scheduledEvents := scheduledEvents s;
     deletePadMode := deletePadMode s; quantizeMode := quantizeMode s;
     quantizeStrength := quantizeStrength s;
     gridStepsPerBeat := gridStepsPerBeat s; performanceMode := v;
     isEditMode := isEditMode s; clock := clock s; timeouts := timeouts s;
     intervals := intervals s; nextTimerId := nextTimerId s;
     dispatchLog := dispatchLog s; playLog := playLog s |}.

Definition set_isEditMode (v : bool) (s : Player) : Player :=
  {| audioContext := audioContext s; isRecording := isRecording s;
     isOverdubbing := isOverdubbing s;
     overdubStartTime := overdubStartTime s; isPlaying := isPlaying s;
     bpm := bpm s; currentBar := currentBar s; currentBeat := currentBeat s;
     sequence := sequence s; sequenceStartTime := sequenceStartTime s;
     metronomeInterval := metronomeInterval s;
     beatInterval := beatInterval s;
     barAdvancementInterval := barAdvancementInterval s;
     nextNoteTime := nextNoteTime s; schedulerTimer := schedulerTimer s;
     currentBank := currentBank s; scheduledEvents := scheduledEvents s;
     deletePadMode := deletePadMode s; quantizeMode := quantizeMode s;
     quantizeStrength := quantizeStrength s;
     gridStepsPerBeat := gridStepsPerBeat s;
     performanceMode := performanceMode s; isEditMode := v; clock := clock s;
     timeouts := timeouts s; intervals := intervals s;
     nextTimerId := nextTimerId s; dispatchLog := dispatchLog s;
     playLog := playLog s |}.

Definition set_clock (v : Z) (s : Player) : Player :=
  {| audioContext := audioContext s; isRecording := isRecording s;
     isOverdubbing := isOverdubbing s;
     overdubStartTime := overdubStartTime s; isPlaying := isPlaying s;
     bpm := bpm s; currentBar := currentBar s; currentBeat := currentBeat s;
     sequence := sequence s; sequenceStartTime := sequenceStartTime s;
     metronomeInterval := metronomeInterval s;
     beatInterval := beatInterval s;
     barAdvancementInterval := barAdvancementInterval s;
     nextNoteTime := nextNoteTime s; schedulerTimer := schedulerTimer s;
     currentBank := currentBank s; scheduledEvents := scheduledEvents s;
     deletePadMode := deletePadMode s; quantizeMode := quantizeMode s;
     quantizeStrength := quantizeStrength s;
     gridStepsPerBeat := gridStepsPerBeat s;
     performanceMode := performanceMode s; isEditMode := isEditMode s;
     clock := v; timeouts := timeouts s; intervals := intervals s;
     nextTimerId := nextTimerId s; dispatchLog := dispatchLog s;
     playLog := playLog s |}.

Definition set_timeouts (v : list (Z * TimeoutAction)) (s : Player) : Player :=
  {| audioContext := audioContext s; isRecording := isRecording s;
     isOverdubbing := isOverdubbing s;
     overdubStartTime := overdubStartTime s; isPlaying := isPlaying s;
     bpm := bpm s; currentBar := currentBar s; currentBeat := currentBeat s;
     sequence := sequence s; sequenceStartTime := sequenceStartTime s;
     metronomeInterval := metronomeInterval s;
     beatInterval := beatInterval s;
     barAdvancementInterval := barAdvancementInterval s;
     nextNoteTime := nextNoteTime s; schedulerTimer := schedulerTimer s;
     currentBank := currentBank s; scheduledEvents := scheduledEvents s;
     deletePadMode := deletePadMode s; quantizeMode := quantizeMode s;
     quantizeStrength := quantizeStrength s;
     gridStepsPerBeat := gridStepsPerBeat s;
     performanceMode := performanceMode s; isEditMode := isEditMode s;
     clock := clock s; timeouts := v; intervals := intervals s;
     nextTimerId := nextTimerId s; dispatchLog := dispatchLog s;
     playLog := playLog s |}.

Definition set_intervals (v : list (nat * IntervalAction)) (s : Player) : Player :=
  {| audioContext := audioContext s; isRecording := isRecording s;
     isOverdubbing := isOverdubbing s;
     overdubStartTime := overdubStartTime s; isPlaying := isPlaying s;
     bpm := bpm s; currentBar := currentBar s; currentBeat := currentBeat s;
     sequence := sequence s; sequenceStartTime := sequenceStartTime s;
     metronomeInterval := metronomeInterval s;
     beatInterval := beatInterval s;
     barAdvancementInterval := barAdvancementInterval s;
     nextNoteTime := nextNoteTime s; schedulerTimer := schedulerTimer s;
     currentBank := currentBank s; scheduledEvents := scheduledEvents s;
     deletePadMode := deletePadMode s; quantizeMode := quantizeMode s;
     quantizeStrength := quantizeStrength s;
     gridStepsPerBeat := gridStepsPerBeat s;
     performanceMode := performanceMode s; isEditMode := isEditMode s;
     clock := clock s; timeouts := timeouts s; intervals := v;
     nextTimerId := nextTimerId s; dispatchLog := dispatchLog s;
     playLog := playLog s |}.

Definition set_nextTimerId (v : nat) (s : Player) : Player :=
  {| audioContext := audioContext s; isRecording := isRecording s;
     isOverdubbing := isOverdubbing s;
     overdubStartTime := overdubStartTime s; isPlaying := isPlaying s;
     bpm := bpm s; currentBar := currentBar s; currentBeat := currentBeat s;
     sequence := sequence s; sequenceStartTime := sequenceStartTime s;
     metronomeInterval := metronomeInterval s;
     beatInterval := beatInterval s;
     barAdvancementInterval := barAdvancementInterval s;
     nextNoteTime := nextNoteTime s; schedulerTimer := schedulerTimer s;
     currentBank := currentBank s; scheduledEvents := scheduledEvents s;
     deletePadMode := deletePadMode s; quantizeMode := quantizeMode s;
     quantizeStrength := quantizeStrength s;
     gridStepsPerBeat := gridStepsPerBeat s;
     performanceMode := performanceMode s; isEditMode := isEditMode s;
     clock := clock s; timeouts := timeouts s; intervals := intervals s;
     nextTimerId := v; dispatchLog := dispatchLog s; playLog := playLog s |}.

Definition set_dispatchLog (v : list (Event * Q)) (s : Player) : Player :=
  {| audioContext := audioContext s; isRecording := isRecording s;
     isOverdubbing := isOverdubbing s;
     overdubStartTime := overdubStartTime s; isPlaying := isPlaying s;
     bpm := bpm s; currentBar := currentBar s; currentBeat := currentBeat s;
     sequence := sequence s; sequenceStartTime := sequenceStartTime s;
     metronomeInterval := metronomeInterval s;
     beatInterval := beatInterval s;
     barAdvancementInterval := barAdvancementInterval s;
     nextNoteTime := nextNoteTime s; schedulerTimer := schedulerTimer s;
     currentBank := currentBank s; scheduledEvents := scheduledEvents s;
     deletePadMode := deletePadMode s; quantizeMode := quantizeMode s;
     quantizeStrength := quantizeStrength s;
     gridStepsPerBeat := gridStepsPerBeat s;
     performanceMode := performanceMode s; isEditMode := isEditMode s;
     clock := clock s; timeouts := timeouts s; intervals := intervals s;
     nextTimerId := nextTimerId s; dispatchLog := v; playLog := playLog s |}.

Definition set_playLog (v : list (Z * Q)) (s : Player) : Player :=
  {| audioContext := audioContext s; isRecording := isRecording s;
     isOverdubbing := isOverdubbing s;
     overdubStartTime := overdubStartTime s; isPlaying := isPlaying s;
     bpm := bpm s; currentBar := currentBar s; currentBeat := currentBeat s;
     sequence := sequence s; sequenceStartTime := sequenceStartTime s;
     metronomeInterval := metronomeInterval s;
     beatInterval := beatInterval s;
     barAdvancementInterval := barAdvancementInterval s;
     nextNoteTime := nextNoteTime s; schedulerTimer := schedulerTimer s;
     currentBank := currentBank s; scheduledEvents := scheduledEvents s;
     deletePadMode := deletePadMode s; quantizeMode := quantizeMode s;
     quantizeStrength := quantizeStrength s;
     gridStepsPerBeat := gridStepsPerBeat s;
     performanceMode := performanceMode s; isEditMode := isEditMode s;
     clock := clock s; timeouts := timeouts s; intervals := intervals s;
     nextTimerId := nextTimerId s; dispatchLog := dispatchLog s;
     playLog := v |}.

Definition set_quantizeMode (v : bool) (s : Player) : Player :=
  {| audioContext := audioContext s; isRecording := isRecording s;
     isOverdubbing := isOverdubbing s;
     overdubStartTime := overdubStartTime s; isPlaying := isPlaying s;
     bpm := bpm s; currentBar := currentBar s; currentBeat := currentBeat s;
     sequence := sequence s; sequenceStartTime := sequenceStartTime s;
     metronomeInterval := metronomeInterval s;
     beatInterval := beatInterval s;
     barAdvancementInterval := barAdvancementInterval s;
     nextNoteTime := nextNoteTime s; schedulerTimer := schedulerTimer s;
     currentBank := currentBank s; scheduledEvents := scheduledEvents s;
     deletePadMode := deletePadMode s; quantizeMode := v;
     quantizeStrength := quantizeStrength s;
     gridStepsPerBeat := gridStepsPerBeat s;
     performanceMode := performanceMode s; isEditMode := isEditMode s;
     clock := clock s; timeouts := timeouts s; intervals := intervals s;
     nextTimerId := nextTimerId s; dispatchLog := dispatchLog s;
     playLog := playLog s |}.

Definition set_quantizeStrength (v : Q) (s : Player) : Player :=
  {| audioContext := audioContext s; isRecording := isRecording s;
     isOverdubbing := isOverdubbing s;
     overdubStartTime := overdubStartTime s; isPlaying := isPlaying s;
     bpm := bpm s; currentBar := currentBar s; currentBeat := currentBeat s;
     sequence := sequence s; sequenceStartTime := sequenceStartTime s;
     metronomeInterval := metronomeInterval s;
     beatInterval := beatInterval s;
     barAdvancementInterval := barAdvancementInterval s;
     nextNoteTime := nextNoteTime s; schedulerTimer := schedulerTimer s;
     currentBank := currentBank s; scheduledEvents := scheduledEvents s;
     deletePadMode := deletePadMode s; quantizeMode := quantizeMode s;
     quantizeStrength := v; gridStepsPerBeat := gridStepsPerBeat s;
     performanceMode := performanceMode s; isEditMode := isEditMode s;
     clock := clock s; timeouts := timeouts s; intervals := intervals s;
     nextTimerId := nextTimerId s; dispatchLog := dispatchLog s;
     playLog := playLog s |}.

(** ** Host timers *)

(** [setTimeout(callback, delayMs)]. *)
Definition setTimeout (delayMs : Z) (a : TimeoutAction) (s : Player) : Player :=
  set_timeouts (timeouts s ++ [((clock s + delayMs)%Z, a)]) s.

(** [setInterval(callback, period)]: the fresh handle and the new state.
    Handles are positive, hence truthy. *)
Definition setInterval (a : IntervalAction) (s : Player) : nat * Player :=
  let id := nextTimerId s in
  (id, set_nextTimerId (S id) (set_intervals (intervals s ++ [(id, a)]) s)).

(** [clearInterval(id)]. *)
Definition clearInterval (id : nat) (s : Player) : Player :=
  set_intervals (filter (fun e => fst e <> id) (intervals s)) s.

(** ** The player after its constructor *)

Definition emptySequence : list (list Event) :=
  replicate (Z.to_nat BAR_COUNT) [].

Definition initialPlayer : Player :=
  {| audioContext := false; isRecording := false; isOverdubbing := false;
     overdubStartTime := 0; isPlaying := false; bpm := 120;
     currentBar := 0; currentBeat := 1; sequence := emptySequence;
     sequenceStartTime := 0; metronomeInterval := None;
     beatInterval := None; barAdvancementInterval := None;
     nextNoteTime := 0; schedulerTimer := None; currentBank := "A";
     scheduledEvents := ∅; deletePadMode := false; quantizeMode := true;
     quantizeStrength := QUANTIZE_STRENGTH;
     gridStepsPerBeat := GRID_STEPS_PER_BEAT; performanceMode := true;
     isEditMode := false; clock := 0; timeouts := []; intervals := [];
     nextTimerId := 1; dispatchLog := []; playLog := [] |}.

(** [initAudio] as far as the sequencer sees it: the audio context exists. *)
Definition withAudio (s : Player) : Player :=
  {| audioContext := true; isRecording := isRecording s;
     isOverdubbing := isOverdubbing s;
     overdubStartTime := overdubStartTime s; isPlaying := isPlaying s;
     bpm := bpm s; currentBar := currentBar s; currentBeat := currentBeat s;
     sequence := sequence s; sequenceStartTime := sequenceStartTime s;
     metronomeInterval := metronomeInterval s;
     beatInterval := beatInterval s;
     barAdvancementInterval := barAdvancementInterval s;
     nextNoteTime := nextNoteTime s; schedulerTimer := schedulerTimer s;
     currentBank := currentBank s; scheduledEvents := scheduledEvents s;
     deletePadMode := deletePadMode s; quantizeMode := quantizeMode s;
     quantizeStrength := quantizeStrength s;
     gridStepsPerBeat := gridStepsPerBeat s;
     performanceMode := performanceMode s; isEditMode := isEditMode s;
     clock := clock s; timeouts := timeouts s; intervals := intervals s;
     nextTimerId := nextTimerId s; dispatchLog := dispatchLog s;
     playLog := playLog s |}.

(** ** Durations *)

(** [barDuration()]: [(60 / this.bpm) * BEATS_PER_BAR]. *)
Definition barDuration (s : Player) : Q := (60 / bpm s) * inject_Z BEATS_PER_BAR.

(** [beatDuration()]: [60 / this.bpm]. *)
Definition beatDuration (s : Player) : Q := 60 / bpm s.

(** ** Quantizer *)

(** [quantizeTime(time)]. *)
Definition quantizeTime (time : Q) (s : Player) : Q :=
  let beatDuration := 60 / bpm s in
  let stepDuration := beatDuration / inject_Z (gridStepsPerBeat s) in
  let stepIndex := JS.round (time / stepDuration) in
  let quantizedTime := inject_Z stepIndex * stepDuration in
  let finalTime := time + (quantizedTime - time) * quantizeStrength s in
  JS.rem finalTime (beatDuration * inject_Z BEATS_PER_BAR).

(** [strengths.indexOf(x)]: the first index holding a value equal to [x],
    or [-1]. *)
Fixpoint indexOf (x : Q) (l : list Q) (i : Z) : Z :=
  match l with
  | [] => (-1)%Z
  | y :: l' => if Qeq_bool y x then i else indexOf x l' (i + 1)%Z
  end.

(** [cycleQuantizeConsolidated()]. *)
Definition cycleQuantizeConsolidated (s : Player) : Player :=
  let strengths := [0; 0.25; 0.5; 0.75; 1] in
  let currentIndex := indexOf (quantizeStrength s) strengths 0 in
  let nextIndex := ((currentIndex + 1) mod Z.of_nat (length strengths))%Z in
  let s := set_quantizeStrength (nth (Z.to_nat nextIndex) strengths 0) s in
  set_quantizeMode (JS.ltb 0 (quantizeStrength s)) s.

(** ** Recorder *)

(** [this.sequence[i]] for a numeric index: [undefined] out of range. *)
Definition barAt (i : Z) (seq : list (list Event)) : option (list Event) :=
  if (i <? 0)%Z then None else seq !! Z.to_nat i.

(** [this.sequence[i].push(e)]: a [TypeError] when the bar is [undefined]. *)
Definition pushEvent (i : Z) (e : Event) (seq : list (list Event))
  : option (list (list Event)) :=
  match barAt i seq with
  | Some b => Some (<[Z.to_nat i := b ++ [e]]> seq)
  | None => None
  end.

(** [recordPadEvent(padNumber)] at audio time [now].  Both branches of the
    source push the same fields; only the overdub branch sets [overdubbed].
    [None] stands for the [TypeError] of pushing to a missing bar. *)
Definition recordPadEvent (padNumber : Z) (now : Q) (s : Player) : option Player :=
  let relativeTime :=
    if isOverdubbing s
    then JS.rem (now - overdubStartTime s) (60 / bpm s * inject_Z BEATS_PER_BAR)
    else JS.rem (now - sequenceStartTime s) (60 / bpm s * inject_Z BEATS_PER_BAR) in
  let quantizedTime :=
    if quantizeMode s then quantizeTime relativeTime s else relativeTime in
  let e := {| pad := padNumber; time := quantizedTime;
              bank := Some (currentBank s);
              originalTime := Some relativeTime;
              quantized := quantizeMode s;
              overdubbed := isOverdubbing s |} in
  match pushEvent (currentBar s) e (sequence s) with
  | Some seq => Some (set_sequence seq s)
  | None => None
  end.

(** ** Timers of the transport *)

(** [stopTimers()]. *)
Definition stopTimers (s : Player) : Player :=
  let s := match metronomeInterval s with
           | Some id => set_metronomeInterval None (clearInterval id s)
           | None => s
           end in
  let s := match beatInterval s with
           | Some id => set_beatInterval None (clearInterval id s)
           | None => s
           end in
  match barAdvancementInterval s with
  | Some id => set_barAdvancementInterval None (clearInterval id s)
  | None => s
  end.

(** [startMetronome()]. *)
Definition startMetronome (s : Player) : Player :=
  let s := match metronomeInterval s with
           | Some id => clearInterval id s
           | None => s
           end in
  let beatDuration := 60000 / bpm s in
  let s := set_currentBeat 1 s in
  let s := set_currentBar 0 s in
  let (id, s) := setInterval (MetronomeI beatDuration) s in
  set_metronomeInterval (Some id) s.

(** [startBarAdvancement()]. *)
Definition startBarAdvancement (s : Player) : Player :=
  let s := match beatInterval s with
           | Some id => clearInterval id s
           | None => s
           end in
  let beatDuration := 60000 / bpm s in
  let s := set_currentBar 0 s in
  let s := set_currentBeat 1 s in
  let (id, s) := setInterval (BarAdvanceI beatDuration) s in
  set_beatInterval (Some id) s.

(** [restartTimers()]. *)
Definition restartTimers (s : Player) : Player :=
  let s := stopTimers s in
  if isRecording s || isPlaying s then
    let s := if isRecording s then startMetronome s else s in
    startBarAdvancement s
  else s.

(** ** Bank selection and edit mode *)

(** [exitEditMode()]. *)
Definition exitEditMode (s : Player) : Player := set_isEditMode false s.

(** [deactivateDeletePadMode()]. *)
Definition deactivateDeletePadMode (s : Player) : Player :=
  set_deletePadMode false s.

(** [selectBank(bank)]. *)
Definition selectBank (bank : string) (s : Player) : Player :=
  if String.eqb (currentBank s) bank then s
  else
    let s := set_currentBank bank s in
    let s := if deletePadMode s then deactivateDeletePadMode s else s in
    if isEditMode s then exitEditMode s else s.

(** ** Audio source factory *)

(** [playPad(padNumber, when)]: the call is recorded.  The body belongs to
    the Web Audio layer.  Of what it does to the player, one thing is left
    out: while [isRecording] is set it queues, with
    [requestAnimationFrame], a [recordPadEvent(padNumber)] for a pad that
    passed [validatePlayback]. *)
Definition playPad (padNumber : Z) (when : Q) (s : Player) : Player :=
  set_playLog (playLog s ++ [(padNumber, when)]) s.

(** [cleanupActiveSources()]: besides stopping the sounding sources it
    empties the dedup set. *)
Definition cleanupActiveSources (s : Player) : Player :=
  set_scheduledEvents ∅ s.

(** ** Trigger dispatcher *)

(** [ev.bank || this.currentBank]: an absent or empty bank is falsy. *)
Definition bankOrCurrent (ev : Event) (s : Player) : string :=
  match bank ev with
  | Some b => if String.eqb b "" then currentBank s else b
  | None => currentBank s
  end.

(** The template literal
    [`${ev.pad}-${ev.bank || this.currentBank}-${when.toFixed(3)}`]. *)
Definition eventKey (ev : Event) (when : Q) (s : Player) : string :=
  pretty (pad ev) +:+ "-" +:+ bankOrCurrent ev s +:+ "-" +:+ JS.toFixed3 when.

(** [ev.bank && ev.bank !== originalBank], with the bank to switch to. *)
Definition bankSwitch (ev : Event) (originalBank : string) : option string :=
  match bank ev with
  | Some b =>
      if String.eqb b "" then None
      else if String.eqb b originalBank then None else Some b
  | None => None
  end.

(** [triggerScheduled(ev, when)].  Every call is appended to
    [dispatchLog] on entry. *)
Definition triggerScheduled (ev : Event) (when : Q) (s : Player) : Player :=
  let s := set_dispatchLog (dispatchLog s ++ [(ev, when)]) s in
  let key := eventKey ev when s in
  if bool_decide (key ∈ scheduledEvents s) then s
  else
    let s := set_scheduledEvents (scheduledEvents s ∪ {[key]}) s in
    let s := setTimeout 1000 (DeleteKey key) s in
    let originalBank := currentBank s in
    let s := match bankSwitch ev originalBank with
             | Some b => selectBank b s
             | None => s
             end in
    let s := playPad (pad ev) when s in
    match bankSwitch ev originalBank with
    | Some _ => setTimeout 0 (RestoreBank originalBank) s
    | None => s
    end.

(** ** Scheduler core *)

(** [startSequence()] at audio time [now]. *)
Definition startSequence (now : Q) (s : Player) : Player :=
  let s := cleanupActiveSources s in
  let s := set_isPlaying true s in
  let s := set_sequenceStartTime (now + 0.05) s in
  let s := set_nextNoteTime (sequenceStartTime s) s in
  let s := set_currentBar 0 s in
  let s := set_currentBeat 1 s in
  let (id, s) := setInterval (SchedulerTickI (LOOKAHEAD * 1000)) s in
  set_schedulerTimer (Some id) s.

(** First part of [schedulerTick()]: the bar and beat shown to the user. *)
Definition updateBarBeat (now : Q) (s : Player) : Player :=
  let loopDuration := barDuration s * inject_Z BAR_COUNT in
  if JS.ltb 0 (sequenceStartTime s) then
    let elapsedTime := now - sequenceStartTime s in
    let timeInCurrentCycle := JS.rem elapsedTime loopDuration in
    let s := set_currentBar (JS.floor (timeInCurrentCycle / barDuration s)) s in
    set_currentBeat
      (JS.floor (JS.rem timeInCurrentCycle (barDuration s) / beatDuration s) + 1) s
  else s.

(** The cycle and the bar a point [t] of the timeline falls into. *)
Definition cycleOf (t : Q) (s : Player) : Z :=
  let loopDuration := barDuration s * inject_Z BAR_COUNT in
  JS.floor ((t - sequenceStartTime s) / loopDuration).

Definition barIndexOf (t : Q) (s : Player) : Z :=
  let loopDuration := barDuration s * inject_Z BAR_COUNT in
  let timeInCycle := JS.rem (t - sequenceStartTime s) loopDuration in
  JS.floor (timeInCycle / barDuration s).

(** The absolute start time [when] of [ev] in bar [barIndex] of [cycle]. *)
Definition whenOf (cycle barIndex : Z) (ev : Event) (s : Player) : Q :=
  let loopDuration := barDuration s * inject_Z BAR_COUNT in
  sequenceStartTime s + inject_Z cycle * loopDuration
    + inject_Z barIndex * barDuration s + time ev.

(** The dispatch window test [when >= now + 0.01 && when < now + SCHEDULE_AHEAD_TIME]. *)
Definition inWindow (now when : Q) : bool :=
  JS.geb when (now + 0.01) && JS.ltb when (now + SCHEDULE_AHEAD_TIME).

(** Body of the [for (const ev of bar)] loop. *)
Definition scheduleEvent (now : Q) (cycle barIndex : Z) (s : Player) (ev : Event)
  : Player :=
  let when := whenOf cycle barIndex ev s in
  if inWindow now when then triggerScheduled ev when s else s.

(** Body of the [while] loop of [schedulerTick()].  The cursor advances in
    exact arithmetic.  The code adds binary64 numbers, so that over many
    passes its cursor can come to lie a few units in the last place off
    the grid: what is stated about a pass holds for the cursor the pass
    finds, whatever its value. *)
Definition scheduleStep (now : Q) (s : Player) : Player :=
  let cycle := cycleOf (nextNoteTime s) s in
  let barIndex := barIndexOf (nextNoteTime s) s in
  let s := match barAt barIndex (sequence s) with
           | Some bar => fold_left (scheduleEvent now cycle barIndex) bar s
           | None => s
           end in
  set_nextNoteTime
    (nextNoteTime s + beatDuration s / inject_Z GRID_STEPS_PER_BEAT) s.

(** The [while (this.nextNoteTime < now + SCHEDULE_AHEAD_TIME)] loop, with a
    bound on the number of iterations; [None] when the bound is reached
    with the condition still true. *)
Fixpoint scheduleLoop (fuel : nat) (now : Q) (s : Player) : option Player :=
  if JS.ltb (nextNoteTime s) (now + SCHEDULE_AHEAD_TIME) then
    match fuel with
    | O => None
    | S fuel' => scheduleLoop fuel' now (scheduleStep now s)
    end
  else Some s.

(** [schedulerTick()] at audio time [now]. *)
Definition schedulerTick (fuel : nat) (now : Q) (s : Player) : option Player :=
  scheduleLoop fuel now (updateBarBeat now s).

(** Grid steps between the cursor and the horizon: the number of
    iterations the loop makes. *)
Definition stepsToHorizon (now : Q) (s : Player) : nat :=
  Z.to_nat
    (Qceiling ((now + SCHEDULE_AHEAD_TIME - nextNoteTime s)
               / (beatDuration s / inject_Z GRID_STEPS_PER_BEAT))).

(** The values [nextNoteTime] takes in the first [n] iterations. *)
Fixpoint gridTimes (n : nat) (t step : Q) : list Q :=
  match n with
  | O => []
  | S n' => t :: gridTimes n' (t + step) step
  end.

(** [stopSequence()]. *)
Definition stopSequence (s : Player) : Player :=
  let s := match schedulerTimer s with
           | Some id => set_schedulerTimer None (clearInterval id s)
           | None => s
           end in
  let s := set_isPlaying false s in
  let s := set_isRecording false s in
  let s := stopTimers s in
  let s := cleanupActiveSources s in
  let s := set_scheduledEvents ∅ s in
  let s := if isEditMode s then exitEditMode s else s in
  let s := set_currentBar 0 s in
  let s := set_currentBeat 1 s in
  if negb (performanceMode s) then set_performanceMode true s else s.

(** [hasRecordedSequence()]. *)
Definition hasRecordedSequence (s : Player) : bool :=
  existsb (fun bar => (0 <? length bar)%nat) (sequence s).

(** [playSequence()] at audio time [now]. *)
Definition playSequence (now : Q) (s : Player) : Player :=
  if isPlaying s then s
  else if negb (audioContext s) then s
  else if negb (existsb (fun bar => (0 <? length bar)%nat) (sequence s)) then s
  else
    let s := set_isPlaying true s in
    let s := set_currentBar 0 s in
    let s := set_currentBeat 1 s in
    let s := if performanceMode s then set_performanceMode false s else s in
    startSequence now s.

(** ** Tempo manager *)

(** The transform applied to one event by [recalculateSequenceTiming]. *)
Definition rescaleEvent (bpmRatio : Q) (event : Event) : Event :=
  {| pad := pad event;
     time := time event * bpmRatio;
     bank := bank event;
     originalTime := option_map (fun t => t * bpmRatio) (originalTime event);
     quantized := quantized event;
     overdubbed := overdubbed event |}.

(** [recalculateSequenceTiming(oldBPM, newBPM)]. *)
Definition recalculateSequenceTiming (oldBPM newBPM : Q) (s : Player) : Player :=
  if Qeq_bool oldBPM newBPM then s
  else
    let bpmRatio := oldBPM / newBPM in
    let eventsRecalculated := length (concat (sequence s)) in
    let s := set_sequence (map (map (rescaleEvent bpmRatio)) (sequence s)) s in
    if (0 <? eventsRecalculated)%nat then
      if isPlaying s then setTimeout 100 RestartSequence (stopSequence s)
      else s
    else s.

(** [changeTempo(change)]. *)
Definition changeTempo (change : Q) (s : Player) : Player :=
  let oldBPM := bpm s in
  let s := set_bpm (Qmax MIN_BPM (Qmin MAX_BPM (bpm s + change))) s in
  let s := if hasRecordedSequence s
           then recalculateSequenceTiming oldBPM (bpm s) s else s in
  if isRecording s || isPlaying s then restartTimers s else s.

(** ** Recording transport *)

(** The [preCount] closure of [startPrecount()], with its captured counter
    and beat length. *)
Definition preCount (preCountRemaining : Z) (beatMs : Q) (now : Q) (s : Player)
  : Player :=
  if (0 <? preCountRemaining)%Z then
    setTimeout (JS.trunc beatMs) (PreCount (preCountRemaining - 1) beatMs) s
  else
    let s := if isOverdubbing s then s else set_sequenceStartTime now s in
    startBarAdvancement s.

(** [startPrecount()]. *)
Definition startPrecount (now : Q) (s : Player) : Player :=
  let preCountRemaining := (PRE_COUNT_BARS * BEATS_PER_BAR)%Z in
  let s := startMetronome s in
  let beatDuration := 60 / bpm s in
  preCount preCountRemaining (beatDuration * 1000) now s.

(** [startRecording()]. *)
Definition startRecording (now : Q) (s : Player) : Player :=
  if negb (audioContext s) then s
  else
    let s := if isPlaying s then set_isPlaying false s else s in
    let s := set_isRecording true s in
    let s := set_sequence emptySequence s in
    let s := set_currentBar 0 s in
    let s := set_currentBeat 1 s in
    startPrecount now s.

(** ** Running the host *)

(** The callback of a timeout, run at audio time [now]. *)
Definition runTimeout (now : Q) (a : TimeoutAction) (s : Player) : Player :=
  match a with
  | DeleteKey k => set_scheduledEvents (scheduledEvents s ∖ {[k]}) s
  | RestoreBank b => selectBank b s
  | RestartSequence => startSequence now s
  | PreCount r ms => preCount r ms now s
  end.

(** [ms] milliseconds pass. *)
Definition elapse (ms : Z) (s : Player) : Player :=
  set_clock (clock s + ms)%Z s.

(** The [i]-th pending timeout runs; it must be due. *)
Definition fireTimeout (i : nat) (now : Q) (s : Player) : option Player :=
  match timeouts s !! i with
  | Some (due, a) =>
      if (due <=? clock s)%Z
      then Some (runTimeout now a (set_timeouts (delete i (timeouts s)) s))
      else None
  | None => None
  end.

(** ** What a tick is expected to dispatch *)

(** The advance of the cursor per loop iteration. *)
Definition gridStep (s : Player) : Q :=
  beatDuration s / inject_Z GRID_STEPS_PER_BEAT.

(** The events of [bar] that are due, with their start times. *)
Definition dueEvents (now : Q) (cycle barIndex : Z) (bar : list Event) (s : Player)
  : list (Event * Q) :=
  map (fun ev => (ev, whenOf cycle barIndex ev s))
      (filter (fun ev => inWindow now (whenOf cycle barIndex ev s) = true) bar).

(** What one iteration of the loop dispatches when the cursor is at [t]. *)
Definition dueAt (now t : Q) (s : Player) : list (Event * Q) :=
  match barAt (barIndexOf t s) (sequence s) with
  | Some bar => dueEvents now (cycleOf t s) (barIndexOf t s) bar s
  | None => []
  end.

(** Two players with the same recorded sequence, tempo and time origin. *)
Definition sameTimeline (s s' : Player) : Prop :=
  sequence s' = sequence s /\ bpm s' = bpm s
  /\ sequenceStartTime s' = sequenceStartTime s.

(** A tick with the number of iterations it needs; the player is returned
    unchanged should the loop not finish. *)
Definition tickAt (now : Q) (s : Player) : Player :=
  default s (schedulerTick (stepsToHorizon now s) now s).

(** ** Quiet intervals of the host *)

(** A timeout of the dispatcher itself: expiry of a key, or the deferred
    bank restore. *)
Definition housekeeping (a : TimeoutAction) : Prop :=
  match a with
  | DeleteKey _ | RestoreBank _ => True
  | RestartSequence | PreCount _ _ => False
  end.

(** Nothing happens but time passing and due housekeeping timeouts
    running. *)
Inductive quiet : Player -> Player -> Prop :=
| quiet_refl s : quiet s s
| quiet_elapse s d s' :
    (0 <= d)%Z -> quiet (elapse d s) s' -> quiet s s'
| quiet_fire s i now due a s1 s' :
    timeouts s !! i = Some (due, a) -> housekeeping a ->
    fireTimeout i now s = Some s1 -> quiet s1 s' -> quiet s s'.

(** [key] is in the dedup set and none of its pending removals is due
    before [deadline]. *)
Definition held (key : string) (deadline : Z) (s : Player) : Prop :=
  key ∈ scheduledEvents s
  /\ forall due, (due, DeleteKey key) ∈ timeouts s -> (deadline <= due)%Z.


(** ** Concrete players used in examples *)

(** The player of the constructor with the strength cycled to a given
    level: from 0.5, two presses give 1 and three give 0. *)
Definition strength0 : Player :=
  cycleQuantizeConsolidated
    (cycleQuantizeConsolidated (cycleQuantizeConsolidated initialPlayer)).

Definition strength1 : Player :=
  cycleQuantizeConsolidated (cycleQuantizeConsolidated initialPlayer).

(** ** Relations between events used in the statements *)

(** Two optional times are both absent, or both present and related. *)
Definition optRel (R : Q -> Q -> Prop) (a b : option Q) : Prop :=
  match a, b with
  | Some x, Some y => R x y
  | None, None => True
  | _, _ => False
  end.

(** [e'] is [e] with [time] and [originalTime] multiplied by [ratio]. *)
Definition Rescaled (ratio : Q) (e e' : Event) : Prop :=
  pad e' = pad e /\ bank e' = bank e /\ quantized e' = quantized e /\
  overdubbed e' = overdubbed e /\
  time e' == time e * ratio /\
  optRel (fun o o' => o' == o * ratio) (originalTime e) (originalTime e').

(** [e'] is [e] up to equality of rationals. *)
Definition SameEvent (e e' : Event) : Prop :=
  pad e' = pad e /\ bank e' = bank e /\ quantized e' = quantized e /\
  overdubbed e' = overdubbed e /\
  time e' == time e /\
  optRel (fun o o' => o' == o) (originalTime e) (originalTime e').

(** A player at 120 BPM whose first bar holds one event of pad 3, bank A. *)
Definition eventAt (t : Q) : Event :=
  {| pad := 3; time := t; bank := Some "A"%string; originalTime := Some t;
     quantized := true; overdubbed := false |}.

Definition playerWith (bar0 : list Event) : Player :=
  set_sequence [bar0; []; []; []] (withAudio initialPlayer).

(** A player that is playing: audio started, one recorded event, PLAY
    pressed at audio time 9.95. *)
Definition running : Player := playSequence 9.95 (playerWith [eventAt 0.5]).

(** A player that is recording and not playing: audio started, REC pressed
    at audio time 10. *)
Definition recording : Player := startRecording 10 (withAudio initialPlayer).

(** Dedup scenarios.  [dispatchedOnce]: one dispatch of pad 3 for the start
    time 10.5 on a fresh player.  [afterStop]: 100 ms later playback is
    stopped, which empties the dedup set, and 400 ms pass.  [redispatched]:
    the same event is dispatched again.  [staleFired]: 500 ms later the
    removal scheduled by the first dispatch runs, and 200 ms pass. *)
Definition dispatchedOnce : Player :=
  triggerScheduled (eventAt 0.5) 10.5 (playerWith [eventAt 0.5]).

Definition afterStop : Player :=
  elapse 400 (stopSequence (elapse 100 dispatchedOnce)).

Definition redispatched : Player :=
  triggerScheduled (eventAt 0.5) 10.5 afterStop.

Definition staleRemoved : Player :=
  default redispatched (fireTimeout 0 0 (elapse 500 redispatched)).

Definition staleFired : Player := elapse 200 staleRemoved.

(** Recording scenarios.  [firstHit]: during the count-in of [recording] pad
    3 is hit at audio time 10.5.  [playWhileRecording]: PLAY is pressed at
    11.0, so playback starts with its origin at 11.05.  [earlyHit]: pad 5 is
    hit at 11.02, before that origin. *)
Definition firstHit : Player :=
  default recording (recordPadEvent 3 10.5 recording).

Definition playWhileRecording : Player := playSequence 11 firstHit.

Definition earlyHit : Player :=
  default playWhileRecording (recordPadEvent 5 11.02 playWhileRecording).

(** * Further operations of the player

    The rest of the recording transport ([startOverdub], [stopRecording],
    the two toggles, [clearSequence], the callback of
    [startBarAdvancement]), the grid information, the tap tempo of the BPM
    controller, the sample slicer and the MIDI input, with the same
    conventions.  Integer quantities (frame counts, pad numbers, MIDI
    bytes, millisecond time stamps) are [Z]. *)

(** ** Predicates used in the statements *)

(** [e] lies inside one bar at the tempo of [s]. *)
Definition inBar (s : Player) (e : Event) : Prop :=
  0 <= time e /\ time e < barDuration s.

(** The start time [recordPadEvent] measures from. *)
Definition recordingOrigin (s : Player) : Q :=
  if isOverdubbing s then overdubStartTime s else sequenceStartTime s.

(** The sounds started between [s] and [s']: all inside the dispatch window
    of [now], as many as keys entered the dedup set, none of which left. *)
Definition playedInWindow (now : Q) (s s' : Player) : Prop :=
  exists plays,
    playLog s' = playLog s ++ plays
    /\ Forall (fun pw => now + 0.01 <= snd pw /\ snd pw < now + SCHEDULE_AHEAD_TIME)
         plays
    /\ scheduledEvents s ⊆ scheduledEvents s'
    /\ size (scheduledEvents s') = (size (scheduledEvents s) + length plays)%nat.

(** Every registered interval and every transport handle of the player is
    older than the next handle to be issued. *)
Definition timersTracked (s : Player) : Prop :=
  (forall id a, (id, a) ∈ intervals s -> (id < nextTimerId s)%nat)
  /\ (forall id, metronomeInterval s = Some id -> (id < nextTimerId s)%nat)
  /\ (forall id, beatInterval s = Some id -> (id < nextTimerId s)%nat)
  /\ (forall id, barAdvancementInterval s = Some id -> (id < nextTimerId s)%nat).

(** The levels the quantize button cycles through. *)
Definition strengthLevels : list Q := [0; 0.25; 0.5; 0.75; 1].

(** ** Overdub and recording transport *)

Definition set_isOverdubbing (v : bool) (s : Player) : Player :=
  {| audioContext := audioContext s; isRecording := isRecording s;
     isOverdubbing := v; overdubStartTime := overdubStartTime s;
     isPlaying := isPlaying s; bpm := bpm s; currentBar := currentBar s;
     currentBeat := currentBeat s; sequence := sequence s;
     sequenceStartTime := sequenceStartTime s;
     metronomeInterval := metronomeInterval s;
     beatInterval := beatInterval s;
     barAdvancementInterval := barAdvancementInterval s;
     nextNoteTime := nextNoteTime s; schedulerTimer := schedulerTimer s;
     currentBank := currentBank s; scheduledEvents := scheduledEvents s;
     deletePadMode := deletePadMode s; quantizeMode := quantizeMode s;
     quantizeStrength := quantizeStrength s;
     gridStepsPerBeat := gridStepsPerBeat s;
     performanceMode := performanceMode s; isEditMode := isEditMode s;
     clock := clock s; timeouts := timeouts s; intervals := intervals s;
     nextTimerId := nextTimerId s; dispatchLog := dispatchLog s;
     playLog := playLog s |}.

Definition set_overdubStartTime (v : Q) (s : Player) : Player :=
  {| audioContext := audioContext s; isRecording := isRecording s;
     isOverdubbing := isOverdubbing s; overdubStartTime := v;
     isPlaying := isPlaying s; bpm := bpm s; currentBar := currentBar s;
     currentBeat := currentBeat s; sequence := sequence s;
     sequenceStartTime := sequenceStartTime s;
     metronomeInterval := metronomeInterval s;
     beatInterval := beatInterval s;
     barAdvancementInterval := barAdvancementInterval s;
     nextNoteTime := nextNoteTime s; schedulerTimer := schedulerTimer s;
     currentBank := currentBank s; scheduledEvents := scheduledEvents s;
     deletePadMode := deletePadMode s; quantizeMode := quantizeMode s;
     quantizeStrength := quantizeStrength s;
     gridStepsPerBeat := gridStepsPerBeat s;
     performanceMode := performanceMode s; isEditMode := isEditMode s;
     clock := clock s; timeouts := timeouts s; intervals := intervals s;
     nextTimerId := nextTimerId s; dispatchLog := dispatchLog s;
     playLog := playLog s |}.

(** [clearSequence()]. *)
Definition clearSequence (s : Player) : Player :=
  set_currentBar 0 (set_sequence emptySequence s).

(** [stopRecording()]. *)
Definition stopRecording (s : Player) : Player :=
  let s := set_isRecording false s in
  let s := if isOverdubbing s then set_isOverdubbing false s else s in
  let s := stopTimers s in
  if negb (performanceMode s) then set_performanceMode true s else s.

(** [startOverdub()] at audio time [now]. *)
Definition startOverdub (now : Q) (s : Player) : Player :=
  if negb (audioContext s) then s
  else if negb (hasRecordedSequence s) then s
  else
    let s := if isPlaying s then set_isPlaying false s else s in
    let s := set_isRecording true s in
    let s := set_isOverdubbing true s in
    let s := set_currentBar 0 s in
    let s := set_currentBeat 1 s in
    let s := set_overdubStartTime now s in
    startPrecount now s.

(** [toggleRecording()] at audio time [now]. *)
Definition toggleRecording (now : Q) (s : Player) : Player :=
  if isRecording s then stopRecording s else startRecording now s.

(** [toggleOverdub()] at audio time [now]. *)
Definition toggleOverdub (now : Q) (s : Player) : Player :=
  if isRecording s then stopRecording s else startOverdub now s.

(** [stopMetronome()]. *)
Definition stopMetronome (s : Player) : Player :=
  match metronomeInterval s with
  | Some id => set_metronomeInterval None (clearInterval id s)
  | None => s
  end.

(** The interval callback of [startBarAdvancement()], run at audio time
    [now].  Its closure variables [tickCount] and [totalBarsRecorded] are
    passed in and returned. *)
Definition barAdvanceTick (tickCount totalBarsRecorded : Z) (now : Q) (s : Player)
  : Z * Z * Player :=
  if isRecording s then
    let tickCount := (tickCount + 1)%Z in
    let s := set_currentBeat (Z.rem tickCount BEATS_PER_BAR + 1) s in
    if (currentBeat s =? 1)%Z then
      let s := set_currentBar
                 (Z.rem (JS.floor (inject_Z tickCount / inject_Z BEATS_PER_BAR))
                        BAR_COUNT) s in
      let totalBarsRecorded := (totalBarsRecorded + 1)%Z in
      if (BAR_COUNT <=? totalBarsRecorded)%Z then
        let s := set_isRecording false s in
        let s := set_isPlaying true s in
        let s := stopMetronome s in
        (tickCount, totalBarsRecorded, startSequence now s)
      else (tickCount, totalBarsRecorded, s)
    else (tickCount, totalBarsRecorded, s)
  else (tickCount, totalBarsRecorded, stopTimers s).

(** [n] runs of the callback, all at audio time [now]. *)
Fixpoint barAdvanceTicks (n : nat) (tickCount totalBarsRecorded : Z) (now : Q)
  (s : Player) : Z * Z * Player :=
  match n with
  | O => (tickCount, totalBarsRecorded, s)
  | S n' =>
      let '(t, b, s1) := barAdvanceTick tickCount totalBarsRecorded now s in
      barAdvanceTicks n' t b now s1
  end.

(** What the callback does to the player when the last bar of a take is
    complete: the branch [totalBarsRecorded >= BAR_COUNT], after the
    counters are set. *)
Definition takeEnded (now : Q) (s : Player) : Player :=
  startSequence now
    (stopMetronome
       (set_isPlaying true
          (set_isRecording false (set_currentBar 0 (set_currentBeat 1 s))))).

(** ** Grid information *)

(** The object returned by [getGridStepInfo]. *)
Record GridStepInfo : Type := mkGridStepInfo {
  stepIndex : Z;
  beatIndex : Z;
  stepInBeat : Z;
  stepDuration : Q;
  quantizedTime : Q
}.

(** [getGridStepInfo(time)]. *)
Definition getGridStepInfo (time : Q) (s : Player) : GridStepInfo :=
  let beatDuration := 60 / bpm s in
  let stepDuration := beatDuration / inject_Z (gridStepsPerBeat s) in
  let stepIndex := JS.round (time / stepDuration) in
  let beatIndex := JS.floor (time / beatDuration) in
  let stepInBeat := Z.rem stepIndex (gridStepsPerBeat s) in
  {| stepIndex := stepIndex; beatIndex := beatIndex; stepInBeat := stepInBeat;
     stepDuration := stepDuration;
     quantizedTime := inject_Z stepIndex * stepDuration |}.

(** ** Binary64 arithmetic

    Where the rounding of a quotient decides an integer result, the
    division is the one of IEEE 754 binary64: the exact quotient rounded
    to the nearest number with a significand of 53 bits (fewer at the
    least exponent, -1074), ties going to the even significand.  Numbers
    are still carried as rationals.  Overflow to [Infinity] is not
    modelled; a division by zero is treated where it occurs. *)

Module Double.

(** [floor (log2 q)] for [q > 0]: the difference of the bit lengths of
    numerator and denominator, or one less. *)
Definition ilog2 (q : Q) : Z :=
  let l := (Z.log2 (Qnum q) - Z.log2 (Zpos (Qden q)))%Z in
  if Qle_bool (2 ^ l) q then l else (l - 1)%Z.

(** The integer nearest to [x >= 0]; of two nearest ones, the even one. *)
Definition nearestEven (x : Q) : Z :=
  let f := Qfloor x in
  match Qcompare (x - inject_Z f) (1 # 2) with
  | Lt => f
  | Gt => (f + 1)%Z
  | Eq => if Z.even f then f else (f + 1)%Z
  end.

(** The binary64 number nearest to [q]. *)
Definition round (q : Q) : Q :=
  if Qeq_bool q 0 then 0
  else
    let a := Qabs q in
    let e := Z.max (ilog2 a - 52) (-1074) in
    let m := inject_Z (nearestEven (a / 2 ^ e)) * 2 ^ e in
    if Qle_bool 0 q then m else - m.

(** [a / b] on binary64 numbers, for [b] other than zero. *)
Definition div (a b : Q) : Q := round (a / b).

(** [a + b] on binary64 numbers. *)
Definition add (a b : Q) : Q := round (a + b).

End Double.

(** ** Tap tempo *)

(** Consecutive differences [tapTimes[i] - tapTimes[i - 1]]. *)
Fixpoint tapIntervals (tapTimes : list Z) : list Z :=
  match tapTimes with
  | a :: (b :: _) as rest => (b - a)%Z :: tapIntervals rest
  | _ => []
  end.

(** [intervals.reduce((sum, interval) => sum + interval, 0)]. *)
Definition sumZ (l : list Z) : Z := fold_left Z.add l 0%Z.

(** The tap list kept by [handleTapTempo]: [push(now)], then [shift()] when
    more than [maxTaps = 4] taps are held. *)
Definition tapsAfter (now : Z) (tapTimes : list Z) : list Z :=
  if (4 <? length (tapTimes ++ [now]))%nat then tail (tapTimes ++ [now])
  else tapTimes ++ [now].

(** [handleTapTempo()] of the BPM controller, with [Date.now() = now]: the
    new tap list and the player.  The two deferred callbacks (visual
    feedback, and [expireTaps] below) are left out.  Time stamps are
    integers far below 2^53, so their differences and sums are exact; the
    two divisions are binary64 divisions.  When the taps held span no
    time, [avgInterval] is 0 and [60000 / avgInterval] is [Infinity],
    which [Math.round] returns and [Math.min] cuts to [MAX_BPM]: [newBPM]
    is [None] then. *)
Definition handleTapTempo (now : Z) (tapTimes : list Z) (s : Player)
  : list Z * Player :=
  let tapTimes := tapsAfter now tapTimes in
  if (2 <=? length tapTimes)%nat then
    let intervals := tapIntervals tapTimes in
    let avgInterval := Double.div (inject_Z (sumZ intervals))
                         (inject_Z (Z.of_nat (length intervals))) in
    let newBPM := if Qeq_bool avgInterval 0 then None
                  else Some (inject_Z (JS.round (Double.div 60000 avgInterval))) in
    let clampedBPM := match newBPM with
                      | Some v => Qmax MIN_BPM (Qmin MAX_BPM v)
                      | None => MAX_BPM
                      end in
    if negb (Qeq_bool clampedBPM (bpm s)) then
      let oldBPM := bpm s in
      let s := set_bpm clampedBPM s in
      (tapTimes,
       if hasRecordedSequence s
       then recalculateSequenceTiming oldBPM clampedBPM s else s)
    else (tapTimes, s)
  else (tapTimes, s).

(** The callback deferred by 3000 ms: forget the taps when the last one is
    more than 3 s old. *)
Definition expireTaps (now : Z) (tapTimes : list Z) : list Z :=
  match last tapTimes with
  | Some t => if (3000 <? now - t)%Z then [] else tapTimes
  | None => tapTimes
  end.

(** ** Sample slicer *)

(** A slice: a window into the source buffer. *)
Record Slice : Type := mkSlice {
  offset : Q;
  duration : Q;
  startFrame : Z;
  endFrame : Z
}.

(** The body of the loop of [createSlices] for index [i]. *)
Definition makeSlice (totalFrames framesPerSlice : Z) (sampleRate : Q) (i : Z)
  : Slice :=
  let startFrame := (i * framesPerSlice)%Z in
  let endFrame := Z.min (startFrame + framesPerSlice) totalFrames in
  let sliceLength := (endFrame - startFrame)%Z in
  {| offset := inject_Z startFrame / sampleRate;
     duration := inject_Z sliceLength / sampleRate;
     startFrame := startFrame;
     endFrame := endFrame |}.

(** [createSlices(sourceBuffer, numSlices)], for a buffer of [totalFrames]
    frames at [sampleRate]. *)
Definition createSlices (totalFrames : Z) (sampleRate : Q) (numSlices : Z)
  : list Slice :=
  let framesPerSlice := JS.floor (inject_Z totalFrames / inject_Z numSlices) in
  map (fun i => makeSlice totalFrames framesPerSlice sampleRate (Z.of_nat i))
      (seq 0 (Z.to_nat numSlices)).

(** Pads 1..16. *)
Definition allPads : list Z := map Z.of_nat (seq 1 16).

(** [findAvailablePadsForSlicing(sourcePad)] for a source pad in 1..16,
    with [loaded] the keys of [samples[currentBank]]; every key holds a
    sample, since entries are removed with [delete]. *)
Definition findAvailablePadsForSlicing (sourcePad : Z) (loaded : gset Z) : list Z :=
  let totalSamples := size loaded in
  if (totalSamples =? 1)%nat then allPads
  else
    let availablePads :=
      filter (fun i => i ∉ loaded) (filter (fun i => (sourcePad + 1 <= i)%Z) allPads) in
    if (length availablePads =? 0)%nat
    then filter (fun i => i <> sourcePad /\ i ∉ loaded) allPads
    else availablePads.

(** [calculateAvailablePadsForSlicing(startPad)]. *)
Definition calculateAvailablePadsForSlicing (startPad : Z) (loaded : gset Z)
  : list Z :=
  let totalSamples := size loaded in
  if (totalSamples =? 1)%nat then allPads
  else
    let availablePads :=
      filter (fun i => i ∉ loaded) (filter (fun i => (startPad + 1 <= i)%Z) allPads) in
    if (length availablePads =? 0)%nat
    then filter (fun i => i <> startPad /\ i ∉ loaded) allPads
    else availablePads.

(** The pads [distributeSlices] writes to: slice [index] goes to
    [availablePads[index]] while there is one. *)
Definition distributeSlices (slices : list Slice) (startPadNumber : Z)
  (loaded : gset Z) : list (Z * Slice) :=
  let availablePads := findAvailablePadsForSlicing startPadNumber loaded in
  zip availablePads slices.

(** ** MIDI input *)

(** [onMIDIMessage]: the pad a message triggers, if any.  The three data
    bytes are [status], [note] and [velocity]. *)
Definition onMIDIMessage (status note velocity : Z) : option Z :=
  if ((144 <=? status) && (status <=? 159) && (0 <? velocity))%Z
  then Some (Z.rem note 16 + 1)%Z
  else None.

(** The channel logged for a message: [(status & 0x0F) + 1]. *)
Definition midiChannel (status : Z) : Z := (Z.land status 15 + 1)%Z.

(** * Properties *)

(** ** Facts about the number primitives *)

Section JSFacts.

Lemma ltb_true a b : JS.ltb a b = true <-> a < b.
Proof.
  unfold JS.ltb. rewrite negb_true_iff, <- not_true_iff_false, Qle_bool_iff.
  split; [apply Qnot_le_lt | apply Qlt_not_le].
Qed.

Lemma ltb_false a b : JS.ltb a b = false <-> b <= a.
Proof.
  unfold JS.ltb. rewrite negb_false_iff. apply Qle_bool_iff.
Qed.

Lemma geb_true a b : JS.geb a b = true <-> b <= a.
Proof. apply Qle_bool_iff. Qed.

#[global] Instance trunc_proper : Proper (Qeq ==> eq) JS.trunc.
Proof.
  intros x y Hxy. unfold JS.trunc. rewrite Hxy.
  destruct (Qle_bool 0 y); [apply Qfloor_comp | apply Qceiling_comp]; exact Hxy.
Qed.

#[global] Instance rem_proper : Proper (Qeq ==> Qeq ==> Qeq) JS.rem.
Proof.
  intros a a' Ha b b' Hb. unfold JS.rem. 
  assert (JS.trunc (a / b) = JS.trunc (a' / b')) as ->.
  { apply trunc_proper. rewrite Ha, Hb. reflexivity. }
  rewrite Ha, Hb. reflexivity.
Qed.

#[global] Instance round_proper : Proper (Qeq ==> eq) JS.round.
Proof. intros x y H. unfold JS.round. apply Qfloor_comp. rewrite H. reflexivity. Qed.

Lemma div_cancel a b : ~ b == 0 -> b * (a / b) == a.
Proof. intros. field. assumption. Qed.

Lemma rem_nonneg a b : 0 < b -> 0 <= a -> 0 <= JS.rem a b /\ JS.rem a b < b.
Proof.
  intros Hb Ha. unfold JS.rem, JS.trunc.
  assert (Hq : 0 <= a / b) by (apply Qle_shift_div_l; [assumption | lra]).
  apply Qle_bool_iff in Hq as Hq'. rewrite Hq'.
  pose proof (Qfloor_le (a / b)) as Hlo.
  pose proof (Qlt_floor (a / b)) as Hhi.
  rewrite inject_Z_plus in Hhi.
  set (f := inject_Z (Qfloor (a / b))) in *.
  assert (Hab : b * (a / b) == a) by (apply div_cancel; lra).
  split.
  - assert (b * f <= b * (a / b)) by (apply Qmult_le_l; assumption). lra.
  - assert (b * (a / b) < b * (f + 1)) by (apply Qmult_lt_l; assumption). lra.
Qed.

Lemma floor_unique x z : inject_Z z <= x -> x < inject_Z z + 1 -> Qfloor x = z.
Proof.
  intros Hlo Hhi.
  pose proof (Qfloor_le x) as H1. pose proof (Qlt_floor x) as H2.
  rewrite inject_Z_plus in H2. change (inject_Z 1) with 1 in H2.
  assert (inject_Z (Qfloor x) < inject_Z (z + 1)) as A
    by (rewrite inject_Z_plus; change (inject_Z 1) with 1; lra).
  assert (inject_Z z < inject_Z (Qfloor x + 1)) as B
    by (rewrite inject_Z_plus; change (inject_Z 1) with 1; lra).
  rewrite <- Zlt_Qlt in A, B. lia.
Qed.

Lemma ceiling_unique x z : inject_Z z - 1 < x -> x <= inject_Z z -> Qceiling x = z.
Proof.
  intros Hlo Hhi. unfold Qceiling.
  rewrite (floor_unique (- x) (- z)); [lia | |];
    rewrite inject_Z_opp; lra.
Qed.

Lemma round_inject_Z m : JS.round (inject_Z m) = m.
Proof. unfold JS.round. apply floor_unique; lra. Qed.

Lemma round_nonneg x : 0 <= x -> (0 <= JS.round x)%Z.
Proof.
  intros Hx. unfold JS.round.
  change 0%Z with (Qfloor 0). apply Qfloor_resp_le. lra.
Qed.

Lemma rem_small a b : 0 < b -> - b < a -> a < b -> JS.rem a b == a.
Proof.
  intros Hb Hlo Hhi. unfold JS.rem, JS.trunc.
  assert (Hab : b * (a / b) == a) by (apply div_cancel; lra).
  assert (Hq1 : a / b < 1) by (apply Qlt_shift_div_r; lra).
  assert (Hq2 : - (1) < a / b) by (apply Qlt_shift_div_l; lra).
  destruct (Qle_bool 0 (a / b)) eqn:E.
  - apply Qle_bool_iff in E.
    rewrite (floor_unique (a / b) 0); [| change (inject_Z 0) with 0; lra ..].
    change (inject_Z 0) with 0. lra.
  - rewrite (ceiling_unique (a / b) 0).
    + change (inject_Z 0) with 0. lra.
    + change (inject_Z 0) with 0. lra.
    + change (inject_Z 0) with 0.
      apply Qlt_le_weak. apply Qnot_le_lt. intro H.
      apply Qle_bool_iff in H. congruence.
Qed.

Lemma rem_neg a b : 0 < b -> a < 0 -> - b < JS.rem a b /\ JS.rem a b <= 0.
Proof.
  intros Hb Ha. unfold JS.rem, JS.trunc.
  assert (Hab : b * (a / b) == a) by (apply div_cancel; lra).
  assert (Hq : a / b < 0) by (apply Qlt_shift_div_r; lra).
  assert (E : Qle_bool 0 (a / b) = false).
  { apply not_true_iff_false. rewrite Qle_bool_iff. lra. }
  rewrite E.
  pose proof (Qle_ceiling (a / b)) as Hhi.
  pose proof (Qceiling_lt (a / b)) as Hlo.
  unfold Zminus in Hlo. rewrite inject_Z_plus in Hlo.
  change (inject_Z (-1)) with (- (1)) in Hlo.
  set (c := inject_Z (Qceiling (a / b))) in *.
  split.
  - assert (b * (c + - (1)) < b * (a / b)) by (apply Qmult_lt_l; assumption). lra.
  - assert (b * (a / b) <= b * c) by (apply Qmult_le_l; assumption). lra.
Qed.

Lemma trunc_ratio k n : (0 < n)%Z -> JS.trunc (inject_Z k / inject_Z n) = Z.quot k n.
Proof.
  intros Hn. unfold JS.trunc.
  assert (Hn' : 0 < inject_Z n) by (change 0 with (inject_Z 0); rewrite <- Zlt_Qlt; lia).
  destruct (Qle_bool 0 (inject_Z k / inject_Z n)) eqn:E.
  - apply Qle_bool_iff in E.
    assert (0 <= k)%Z.
    { rewrite Zle_Qle. change (inject_Z 0) with 0.
      assert (inject_Z n * (inject_Z k / inject_Z n) == inject_Z k)
        by (apply div_cancel; lra).
      assert (0 <= inject_Z n * (inject_Z k / inject_Z n))
        by (apply Qmult_le_0_compat; lra).
      lra. }
    rewrite <- Zdiv_Qdiv. symmetry. apply Z.quot_div_nonneg; lia.
  - assert (Hq : inject_Z k / inject_Z n < 0).
    { apply Qnot_le_lt. intro H. apply Qle_bool_iff in H. congruence. }
    assert (k < 0)%Z.
    { rewrite Zlt_Qlt. change (inject_Z 0) with 0.
      assert (inject_Z n * (inject_Z k / inject_Z n) == inject_Z k)
        by (apply div_cancel; lra).
      assert (inject_Z n * (inject_Z k / inject_Z n) < inject_Z n * 0)
        by (apply Qmult_lt_l; assumption).
      lra. }
    unfold Qceiling.
    assert (- (inject_Z k / inject_Z n) == inject_Z (- k) / inject_Z n) as ->.
    { rewrite inject_Z_opp. field. lra. }
    rewrite <- Zdiv_Qdiv.
    rewrite <- (Z.quot_div_nonneg (- k) n) by lia.
    rewrite Z.quot_opp_l by lia. lia.
Qed.

Lemma rem_grid k n u :
  (0 < n)%Z -> 0 < u ->
  JS.rem (inject_Z k * u) (inject_Z n * u) == inject_Z (Z.rem k n) * u.
Proof.
  intros Hn Hu. unfold JS.rem.
  assert (Hn' : 0 < inject_Z n) by (change 0 with (inject_Z 0); rewrite <- Zlt_Qlt; lia).
  assert (inject_Z k * u / (inject_Z n * u) == inject_Z k / inject_Z n) as ->
    by (field; split; lra).
  rewrite trunc_ratio by assumption.
  rewrite (Z.rem_eq k n) by lia.
  unfold Zminus. rewrite inject_Z_plus, inject_Z_opp, inject_Z_mult. ring.
Qed.

End JSFacts.

(** ** Quantizer *)

Section Quantizer.
Variable s : Player.
Hypothesis bpm_pos : 0 < bpm s.
Hypothesis grid_pos : (0 < gridStepsPerBeat s)%Z.

Lemma beat_pos : 0 < 60 / bpm s.
Proof. apply Qlt_shift_div_l; lra. Qed.

Lemma grid_pos_Q : 0 < inject_Z (gridStepsPerBeat s).
Proof. change 0 with (inject_Z 0). rewrite <- Zlt_Qlt. exact grid_pos. Qed.

Lemma step_pos : 0 < 60 / bpm s / inject_Z (gridStepsPerBeat s).
Proof.
  apply Qlt_shift_div_l; [apply grid_pos_Q |].
  pose proof beat_pos. lra.
Qed.

Lemma bar_pos : 0 < 60 / bpm s * inject_Z BEATS_PER_BAR.
Proof.
  pose proof beat_pos. change (inject_Z BEATS_PER_BAR) with 4. lra.
Qed.

Lemma bar_in_steps :
  60 / bpm s * inject_Z BEATS_PER_BAR ==
  inject_Z (BEATS_PER_BAR * gridStepsPerBeat s)
    * (60 / bpm s / inject_Z (gridStepsPerBeat s)).
Proof.
  rewrite inject_Z_mult. pose proof grid_pos_Q. field. split; lra.
Qed.

Lemma quantize_off t :
  quantizeStrength s == 0 ->
  - barDuration s < t -> t < barDuration s ->
  quantizeTime t s == t.
Proof.
  intros H0 Hlo Hhi. unfold quantizeTime, barDuration in *.
  transitivity (JS.rem t (60 / bpm s * inject_Z BEATS_PER_BAR)).
  - apply rem_proper; [rewrite H0; ring | reflexivity].
  - apply rem_small; [apply bar_pos | assumption ..].
Qed.

Lemma quantize_full t :
  quantizeStrength s == 1 ->
  quantizeTime t s ==
  inject_Z (Z.rem (JS.round (t / (60 / bpm s / inject_Z (gridStepsPerBeat s))))
                  (BEATS_PER_BAR * gridStepsPerBeat s))
    * (60 / bpm s / inject_Z (gridStepsPerBeat s)).
Proof.
  intros H1. unfold quantizeTime.
  set (st := 60 / bpm s / inject_Z (gridStepsPerBeat s)).
  set (k := JS.round (t / st)).
  rewrite <- rem_grid; [| unfold BEATS_PER_BAR; lia | apply step_pos].
  apply rem_proper.
  - rewrite H1. ring.
  - apply bar_in_steps.
Qed.

Lemma quantize_full_idempotent t :
  quantizeStrength s == 1 ->
  quantizeTime (quantizeTime t s) s == quantizeTime t s.
Proof.
  intros H1.
  pose proof (quantize_full t H1) as Ht.
  pose proof (quantize_full (quantizeTime t s) H1) as Htt.
  set (st := 60 / bpm s / inject_Z (gridStepsPerBeat s)) in *.
  set (n := (BEATS_PER_BAR * gridStepsPerBeat s)%Z) in *.
  set (m := Z.rem (JS.round (t / st)) n) in *.
  assert (Hst : 0 < st) by apply step_pos.
  assert (Hm : JS.round (quantizeTime t s / st) = m).
  { rewrite <- (round_inject_Z m). apply round_proper.
    rewrite Ht. field. lra. }
  rewrite Hm in Htt.
  assert (Hmm : Z.rem m n = m).
  { unfold m. apply Z.rem_rem. unfold n, BEATS_PER_BAR. lia. }
  rewrite Hmm in Htt. rewrite Htt, Ht. reflexivity.
Qed.

Lemma quantize_range t :
  0 <= t -> 0 <= quantizeStrength s -> quantizeStrength s <= 1 ->
  0 <= quantizeTime t s /\ quantizeTime t s < barDuration s.
Proof.
  intros Ht Hs0 Hs1. unfold quantizeTime, barDuration.
  apply rem_nonneg; [apply bar_pos |].
  set (st := 60 / bpm s / inject_Z (gridStepsPerBeat s)).
  assert (Hst : 0 < st) by apply step_pos.
  assert (Hk : 0 <= inject_Z (JS.round (t / st))).
  { change 0 with (inject_Z 0). rewrite <- Zle_Qle.
    apply round_nonneg. apply Qle_shift_div_l; lra. }
  assert (Hq : 0 <= inject_Z (JS.round (t / st)) * st)
    by (apply Qmult_le_0_compat; lra).
  set (q := inject_Z (JS.round (t / st)) * st) in *.
  set (w := quantizeStrength s) in *.
  assert (t + (q - t) * w == t * (1 - w) + q * w) as -> by ring.
  assert (0 <= t * (1 - w)) by (apply Qmult_le_0_compat; lra).
  assert (0 <= q * w) by (apply Qmult_le_0_compat; lra).
  lra.
Qed.
End Quantizer.

Example strength0_level :
  quantizeStrength strength0 == 0 /\ quantizeMode strength0 = false.
Proof. split; vm_compute; reflexivity. Qed.

Example strength1_level :
  quantizeStrength strength1 == 1 /\ quantizeMode strength1 = true.
Proof. split; vm_compute; reflexivity. Qed.

(** C4, as the code has it.  With strength 0 the quantizer returns [t]
    unchanged for every [t] strictly inside one bar length of zero (the
    final remainder is the identity there), and with strength 1 it is
    idempotent for every [u]. *)
Theorem quantize_extremes (s0 s1 : Player) (t u : Q) :
  0 < bpm s0 -> (0 < gridStepsPerBeat s0)%Z -> quantizeStrength s0 == 0 ->
  - barDuration s0 < t -> t < barDuration s0 ->
  0 < bpm s1 -> (0 < gridStepsPerBeat s1)%Z -> quantizeStrength s1 == 1 ->
  quantizeTime t s0 == t /\
  quantizeTime (quantizeTime u s1) s1 == quantizeTime u s1.
Proof.
  intros Hb0 _ Hz Hlo Hhi Hb1 Hg1 Hone. split.
  - apply quantize_off; assumption.
  - apply quantize_full_idempotent; assumption.
Qed.

Lemma quantize_extremes_witness :
  quantizeTime 0.3 strength0 == 0.3 /\
  quantizeTime (quantizeTime 1.97 strength1) strength1
    == quantizeTime 1.97 strength1.
Proof.
  apply (quantize_extremes strength0 strength1 0.3 1.97);
    vm_compute; reflexivity.
Defined.

(** C4 as stated fails: at 120 BPM a bar lasts 2 s, and with strength 0
    the time 2.5 s comes back as 0.5 s. *)
Lemma quantize_off_wraps :
  ~ (quantizeTime 2.5 strength0 == 2.5)
  /\ quantizeTime 2.5 strength0 == 0.5.
Proof. split; [intro H; vm_compute in H; discriminate H | vm_compute; reflexivity]. Qed.

(** C5.  For every [t >= 0], in particular for every [t] in
    [[0, barDuration)], and every strength in [[0, 1]] the quantized time
    lies in [[0, barDuration)]. *)
Theorem quantize_in_bar (s : Player) (t : Q) :
  0 < bpm s -> (0 < gridStepsPerBeat s)%Z ->
  0 <= quantizeStrength s -> quantizeStrength s <= 1 ->
  0 <= t ->
  0 <= quantizeTime t s /\ quantizeTime t s < barDuration s.
Proof. intros. apply quantize_range; assumption. Qed.

Lemma quantize_in_bar_witness :
  0 <= quantizeTime 1.97 strength1
  /\ quantizeTime 1.97 strength1 < barDuration strength1.
Proof.
  apply (quantize_in_bar strength1 1.97);
    vm_compute; first [reflexivity | discriminate].
Defined.

(** Near the bar boundary the snapped time reaches the bar length and is
    wrapped to the start of the bar. *)
Example quantize_wraps_at_boundary : quantizeTime 1.97 strength1 == 0.
Proof. vm_compute; reflexivity. Qed.

(** ** Reading fields through the operations *)

(** Reduce field reads of explicitly built players, nothing else. *)
Ltac fields :=
  cbn [audioContext isRecording isOverdubbing overdubStartTime isPlaying bpm
       currentBar currentBeat sequence sequenceStartTime metronomeInterval
       beatInterval barAdvancementInterval nextNoteTime schedulerTimer
       currentBank scheduledEvents deletePadMode quantizeMode
       quantizeStrength gridStepsPerBeat performanceMode isEditMode clock
       timeouts intervals nextTimerId dispatchLog playLog
       set_isRecording set_isPlaying set_bpm set_currentBar set_currentBeat
       set_sequence set_sequenceStartTime set_metronomeInterval
       set_beatInterval set_barAdvancementInterval set_nextNoteTime
       set_schedulerTimer set_currentBank set_scheduledEvents
       set_deletePadMode set_performanceMode set_isEditMode set_clock
       set_timeouts set_intervals set_nextTimerId set_dispatchLog
       set_playLog set_quantizeMode set_quantizeStrength
       setInterval setTimeout clearInterval exitEditMode
       deactivateDeletePadMode cleanupActiveSources playPad withAudio
       fst snd].

(** Case analysis on every [match] and [if] of the goal. *)
Ltac split_cases :=
  repeat match goal with
         | |- context [match ?x with _ => _ end] => destruct x eqn:?
         end.

(** Name the fields of a player. *)
Ltac destruct_player s :=
  destruct s as [ac ir io ost ip bp cb cbt sq sst mi bi bai nnt st bank se
                 dpm qm qs gs pm em ck tos ints nid dl pl].

Lemma bpm_stopTimers s : bpm (stopTimers s) = bpm s.
Proof. destruct_player s. destruct mi, bi, bai; reflexivity. Qed.

Lemma sequence_stopTimers s : sequence (stopTimers s) = sequence s.
Proof. destruct_player s. destruct mi, bi, bai; reflexivity. Qed.

Lemma isPlaying_stopTimers s : isPlaying (stopTimers s) = isPlaying s.
Proof. destruct_player s. destruct mi, bi, bai; reflexivity. Qed.

Lemma isRecording_stopTimers s : isRecording (stopTimers s) = isRecording s.
Proof. destruct_player s. destruct mi, bi, bai; reflexivity. Qed.

Lemma bpm_stopSequence s : bpm (stopSequence s) = bpm s.
Proof. destruct_player s. destruct st, mi, bi, bai, em, pm; reflexivity. Qed.

Lemma sequence_stopSequence s : sequence (stopSequence s) = sequence s.
Proof. destruct_player s. destruct st, mi, bi, bai, em, pm; reflexivity. Qed.

Lemma isPlaying_stopSequence s : isPlaying (stopSequence s) = false.
Proof. destruct_player s. destruct st, mi, bi, bai, em, pm; reflexivity. Qed.

Lemma isRecording_stopSequence s : isRecording (stopSequence s) = false.
Proof. destruct_player s. destruct st, mi, bi, bai, em, pm; reflexivity. Qed.

Lemma bpm_restartTimers s : bpm (restartTimers s) = bpm s.
Proof. destruct_player s. destruct mi, bi, bai, ir, ip; reflexivity. Qed.

Lemma sequence_restartTimers s : sequence (restartTimers s) = sequence s.
Proof. destruct_player s. destruct mi, bi, bai, ir, ip; reflexivity. Qed.

Lemma bpm_setTimeout d a s : bpm (setTimeout d a s) = bpm s.
Proof. reflexivity. Qed.

Lemma sequence_setTimeout d a s : sequence (setTimeout d a s) = sequence s.
Proof. reflexivity. Qed.

Lemma bpm_recalculateSequenceTiming a b s :
  bpm (recalculateSequenceTiming a b s) = bpm s.
Proof.
  unfold recalculateSequenceTiming.
  destruct (Qeq_bool a b); [reflexivity |]. cbv zeta.
  destruct (0 <? _)%nat; [| reflexivity].
  destruct (isPlaying _); [| reflexivity].
  rewrite bpm_setTimeout, bpm_stopSequence. reflexivity.
Qed.

Lemma sequence_recalculateSequenceTiming a b s :
  sequence (recalculateSequenceTiming a b s) =
  if Qeq_bool a b then sequence s
  else map (map (rescaleEvent (a / b))) (sequence s).
Proof.
  unfold recalculateSequenceTiming.
  destruct (Qeq_bool a b); [reflexivity |]. cbv zeta.
  destruct (0 <? _)%nat; [| reflexivity].
  destruct (isPlaying _); [| reflexivity].
  rewrite sequence_setTimeout, sequence_stopSequence. reflexivity.
Qed.

Lemma bpm_changeTempo change s :
  bpm (changeTempo change s) = Qmax MIN_BPM (Qmin MAX_BPM (bpm s + change)).
Proof.
  unfold changeTempo. cbv zeta.
  destruct (isRecording _ || isPlaying _); rewrite ?bpm_restartTimers;
    destruct (hasRecordedSequence _);
    rewrite ?bpm_recalculateSequenceTiming; reflexivity.
Qed.

Lemma sequence_changeTempo change s :
  sequence (changeTempo change s) =
  if hasRecordedSequence s
  then sequence (recalculateSequenceTiming (bpm s) (bpm (changeTempo change s)) s)
  else sequence s.
Proof.
  rewrite bpm_changeTempo. unfold changeTempo. cbv zeta.
  change (hasRecordedSequence (set_bpm _ s)) with (hasRecordedSequence s).
  destruct (isRecording _ || isPlaying _); rewrite ?sequence_restartTimers;
    destruct (hasRecordedSequence s);
    rewrite ?sequence_recalculateSequenceTiming; reflexivity.
Qed.


Lemma Rescaled_rescaleEvent r e : Rescaled r e (rescaleEvent r e).
Proof.
  unfold Rescaled, rescaleEvent; cbn. repeat split; try reflexivity.
  destruct (originalTime e); cbn; [reflexivity | exact I].
Qed.

Lemma Rescaled_one r e : r == 1 -> Rescaled r e e.
Proof.
  intros Hr. unfold Rescaled. repeat split; try reflexivity.
  - rewrite Hr. ring.
  - destruct (originalTime e); cbn; [rewrite Hr; ring | exact I].
Qed.

Lemma Forall2_map_r_same {A} (R : A -> A -> Prop) (f : A -> A) l :
  (forall x, R x (f x)) -> Forall2 R l (map f l).
Proof. intros H. induction l; cbn; constructor; auto. Qed.

Lemma Forall2_same {A} (R : A -> A -> Prop) l :
  (forall x, R x x) -> Forall2 R l l.
Proof. intros H. induction l; constructor; auto. Qed.

Lemma recalculate_rescales oldBPM newBPM s :
  ~ newBPM == 0 ->
  Forall2 (Forall2 (Rescaled (oldBPM / newBPM)))
    (sequence s) (sequence (recalculateSequenceTiming oldBPM newBPM s)).
Proof.
  intros Hn. rewrite sequence_recalculateSequenceTiming.
  destruct (Qeq_bool oldBPM newBPM) eqn:E.
  - apply Qeq_bool_eq in E.
    apply Forall2_same. intros bar. apply Forall2_same. intros e.
    apply Rescaled_one. rewrite E. field. exact Hn.
  - apply Forall2_map_r_same. intros bar. apply Forall2_map_r_same.
    apply Rescaled_rescaleEvent.
Qed.

Lemma recalculate_same_bpm b s : recalculateSequenceTiming b b s = s.
Proof. unfold recalculateSequenceTiming. rewrite Qeq_bool_refl. reflexivity. Qed.

Lemma clamp_range x : MIN_BPM <= Qmax MIN_BPM (Qmin MAX_BPM x) /\ Qmax MIN_BPM (Qmin MAX_BPM x) <= MAX_BPM.
Proof.
  split.
  - apply Q.le_max_l.
  - apply Q.max_lub; [unfold MIN_BPM, MAX_BPM; lra | apply Q.le_min_l].
Qed.

Lemma hasRecorded_false_empty seq :
  existsb (fun bar : list Event => (0 <? length bar)%nat) seq = false ->
  Forall (fun bar => bar = []) seq.
Proof.
  induction seq as [|b seq IH]; cbn; intros H; constructor.
  - apply orb_false_iff in H as [H _]. destruct b; [reflexivity | discriminate].
  - apply IH. apply orb_false_iff in H as [_ H]. exact H.
Qed.

Lemma changeTempo_rescales change s :
  Forall2 (Forall2 (Rescaled (bpm s / bpm (changeTempo change s))))
    (sequence s) (sequence (changeTempo change s)).
Proof.
  rewrite sequence_changeTempo.
  destruct (hasRecordedSequence s) eqn:E.
  - apply recalculate_rescales.
    rewrite bpm_changeTempo. pose proof (clamp_range (bpm s + change)) as [H _].
    unfold MIN_BPM in *. lra.
  - apply hasRecorded_false_empty in E.
    induction E as [|b seq -> _ IH]; constructor; [constructor | exact IH].
Qed.

Lemma SameEvent_round_trip a b e :
  ~ a == 0 -> ~ b == 0 ->
  SameEvent e (rescaleEvent (b / a) (rescaleEvent (a / b) e)).
Proof.
  intros Ha Hb. unfold SameEvent, rescaleEvent; cbn.
  repeat split; try reflexivity.
  - field. split; assumption.
  - destruct (originalTime e); cbn; [field; split; assumption | exact I].
Qed.

Lemma SameEvent_refl e : SameEvent e e.
Proof.
  unfold SameEvent. repeat split; try reflexivity.
  destruct (originalTime e); cbn; [reflexivity | exact I].
Qed.

Lemma recalculate_round_trip a b s :
  ~ a == 0 -> ~ b == 0 ->
  Forall2 (Forall2 SameEvent) (sequence s)
    (sequence (recalculateSequenceTiming b a (recalculateSequenceTiming a b s))).
Proof.
  intros Ha Hb. rewrite !sequence_recalculateSequenceTiming.
  rewrite (Qeq_bool_comm b a).
  destruct (Qeq_bool a b).
  - apply Forall2_same. intros bar. apply Forall2_same. apply SameEvent_refl.
  - rewrite map_map.
    apply Forall2_map_r_same. intros bar. rewrite map_map.
    apply Forall2_map_r_same. intros e. apply SameEvent_round_trip; assumption.
Qed.

Lemma clamp_nearest x q :
  MIN_BPM <= q -> q <= MAX_BPM ->
  Qabs (Qmax MIN_BPM (Qmin MAX_BPM x) - x) <= Qabs (q - x).
Proof.
  unfold MIN_BPM, MAX_BPM. intros Hlo Hhi.
  destruct (Q.min_spec 200 x) as [[H1 E1] | [H1 E1]];
  destruct (Q.max_spec 60 (Qmin 200 x)) as [[H2 E2] | [H2 E2]];
    rewrite E2, ?E1; rewrite E1 in H2;
    apply Qabs_case; intros; apply Qabs_case; intros; lra.
Qed.

(** ** Tempo manager *)

(** C3.  A tempo change multiplies [time] and [originalTime] of every event
    of every bar by [oldBPM / newBPM] and leaves the other fields alone:
    for [recalculateSequenceTiming] called directly, and for [changeTempo],
    where the new tempo is the clamped one.  With equal tempi the rescale
    returns the player unchanged. *)
Theorem tempo_change_rescales (s : Player) (oldBPM newBPM change : Q) :
  ~ newBPM == 0 ->
  Forall2 (Forall2 (Rescaled (oldBPM / newBPM)))
    (sequence s) (sequence (recalculateSequenceTiming oldBPM newBPM s))
  /\ recalculateSequenceTiming newBPM newBPM s = s
  /\ Forall2 (Forall2 (Rescaled (bpm s / bpm (changeTempo change s))))
       (sequence s) (sequence (changeTempo change s)).
Proof.
  intros Hn. split; [| split].
  - apply recalculate_rescales. exact Hn.
  - apply recalculate_same_bpm.
  - apply changeTempo_rescales.
Qed.

Lemma tempo_change_rescales_witness :
  Forall2 (Forall2 (Rescaled (120 / 60)))
    (sequence (playerWith [eventAt 1]))
    (sequence (recalculateSequenceTiming 120 60 (playerWith [eventAt 1])))
  /\ recalculateSequenceTiming 60 60 (playerWith [eventAt 1])
     = playerWith [eventAt 1]
  /\ Forall2 (Forall2 (Rescaled (bpm (playerWith [eventAt 1])
                                 / bpm (changeTempo (-60) (playerWith [eventAt 1])))))
       (sequence (playerWith [eventAt 1]))
       (sequence (changeTempo (-60) (playerWith [eventAt 1]))).
Proof.
  apply (tempo_change_rescales (playerWith [eventAt 1]) 120 60 (-60)).
  intro H. vm_compute in H. discriminate H.
Defined.

(** The scenario of the specification: at 120 BPM an event at 1.0 s moves
    to 2.0 s when the tempo drops to 60 BPM. *)
Example tempo_120_to_60 :
  bpm (changeTempo (-60) (playerWith [eventAt 1])) == 60 /\
  exists e, sequence (changeTempo (-60) (playerWith [eventAt 1]))
            = [[e]; []; []; []]
            /\ time e == 2 /\ originalTime e = Some (1 * (120 / 60)).
Proof.
  split; [vm_compute; reflexivity |].
  eexists. split; [vm_compute; reflexivity |].
  split; vm_compute; reflexivity.
Qed.

(** C8.  Rescaling from [bpmA] to [bpmB] and back restores [time] and
    [originalTime] of every event exactly (equality of rationals), hence
    within any tolerance. *)
Theorem rescale_round_trip (s : Player) (bpmA bpmB : Q) :
  ~ bpmA == 0 -> ~ bpmB == 0 ->
  Forall2 (Forall2 SameEvent) (sequence s)
    (sequence (recalculateSequenceTiming bpmB bpmA
                 (recalculateSequenceTiming bpmA bpmB s))).
Proof. intros. apply recalculate_round_trip; assumption. Qed.

Lemma rescale_round_trip_witness :
  Forall2 (Forall2 SameEvent) (sequence (playerWith [eventAt 0.37]))
    (sequence (recalculateSequenceTiming 97 120
                 (recalculateSequenceTiming 120 97 (playerWith [eventAt 0.37])))).
Proof.
  apply (rescale_round_trip (playerWith [eventAt 0.37]) 120 97);
    intro H; vm_compute in H; discriminate H.
Defined.

(** C9.  Whatever the tempo and the change, [changeTempo] leaves the tempo
    in [[MIN_BPM, MAX_BPM]], and the new tempo is the point of that range
    nearest to [bpm + change]: no point [q] of the range is closer.  The
    function is total: nothing is raised. *)
Theorem changeTempo_clamps (s : Player) (change q : Q) :
  MIN_BPM <= q -> q <= MAX_BPM ->
  MIN_BPM <= bpm (changeTempo change s)
  /\ bpm (changeTempo change s) <= MAX_BPM
  /\ Qabs (bpm (changeTempo change s) - (bpm s + change))
     <= Qabs (q - (bpm s + change)).
Proof.
  intros Hlo Hhi. rewrite bpm_changeTempo.
  pose proof (clamp_range (bpm s + change)) as [H1 H2].
  split; [exact H1 | split; [exact H2 |]].
  apply clamp_nearest; assumption.
Qed.

Lemma changeTempo_clamps_witness :
  MIN_BPM <= bpm (changeTempo 500 initialPlayer)
  /\ bpm (changeTempo 500 initialPlayer) <= MAX_BPM
  /\ Qabs (bpm (changeTempo 500 initialPlayer) - (bpm initialPlayer + 500))
     <= Qabs (200 - (bpm initialPlayer + 500)).
Proof.
  apply (changeTempo_clamps initialPlayer 500 200);
    vm_compute; discriminate.
Defined.

Example changeTempo_at_bounds :
  bpm (changeTempo 500 initialPlayer) == 200
  /\ bpm (changeTempo (-500) initialPlayer) == 60
  /\ bpm (changeTempo 1 initialPlayer) == 121.
Proof. repeat split; vm_compute; reflexivity. Qed.

(** ** Transport *)


Lemma stopSequence_handles s :
  schedulerTimer (stopSequence s) = None
  /\ metronomeInterval (stopSequence s) = None
  /\ beatInterval (stopSequence s) = None
  /\ barAdvancementInterval (stopSequence s) = None.
Proof.
  destruct_player s.
  destruct st, mi, bi, bai, em, pm; repeat split; reflexivity.
Qed.


Lemma startSequence_fields now s :
  isPlaying (startSequence now s) = true
  /\ sequenceStartTime (startSequence now s) = now + 0.05
  /\ nextNoteTime (startSequence now s) = now + 0.05
  /\ currentBar (startSequence now s) = 0%Z
  /\ currentBeat (startSequence now s) = 1%Z
  /\ scheduledEvents (startSequence now s) = ∅
  /\ schedulerTimer (startSequence now s) = Some (nextTimerId s)
  /\ intervals (startSequence now s)
     = intervals s ++ [(nextTimerId s, SchedulerTickI (LOOKAHEAD * 1000))].
Proof. repeat split; reflexivity. Qed.






(** C10.  After [stopSequence] the player is neither playing nor
    recording, whatever it was doing before, and no transport timer is
    left registered in the player. *)
Theorem stopSequence_ends_recording (s : Player) :
  isRecording (stopSequence s) = false
  /\ isPlaying (stopSequence s) = false
  /\ metronomeInterval (stopSequence s) = None
  /\ beatInterval (stopSequence s) = None.
Proof.
  destruct (stopSequence_handles s) as (_ & H1 & H2 & _).
  split; [apply isRecording_stopSequence |].
  split; [apply isPlaying_stopSequence |].
  split; assumption.
Qed.

Example stop_while_recording :
  isRecording recording = true
  /\ isRecording (stopSequence recording) = false
  /\ intervals (stopSequence recording) = [].
Proof. repeat split; reflexivity. Qed.

(** ** Scheduler core *)

Lemma inWindow_true now w :
  inWindow now w = true <-> now + 0.01 <= w /\ w < now + SCHEDULE_AHEAD_TIME.
Proof.
  unfold inWindow. rewrite andb_true_iff, geb_true, ltb_true. reflexivity.
Qed.

Lemma triggerScheduled_frame ev w s :
  sameTimeline s (triggerScheduled ev w s)
  /\ nextNoteTime (triggerScheduled ev w s) = nextNoteTime s
  /\ dispatchLog (triggerScheduled ev w s) = dispatchLog s ++ [(ev, w)].
Proof.
  destruct_player s. unfold sameTimeline, triggerScheduled, selectBank. fields.
  destruct (bool_decide _); [repeat split; reflexivity |].
  destruct (bankSwitch ev bank); [| repeat split; reflexivity].
  destruct (String.eqb bank s), dpm, em; repeat split; reflexivity.
Qed.

Lemma whenOf_same c b ev s s' :
  sameTimeline s s' -> whenOf c b ev s' = whenOf c b ev s.
Proof.
  intros (_ & Hb & Ht). unfold whenOf, barDuration. rewrite Hb, Ht. reflexivity.
Qed.

Lemma sameTimeline_refl s : sameTimeline s s.
Proof. repeat split. Qed.

Lemma sameTimeline_trans s1 s2 s3 :
  sameTimeline s1 s2 -> sameTimeline s2 s3 -> sameTimeline s1 s3.
Proof.
  intros (A1 & A2 & A3) (B1 & B2 & B3). repeat split; congruence.
Qed.

Lemma scheduleEvent_frame now c b s ev :
  sameTimeline s (scheduleEvent now c b s ev)
  /\ nextNoteTime (scheduleEvent now c b s ev) = nextNoteTime s
  /\ dispatchLog (scheduleEvent now c b s ev)
     = dispatchLog s ++ dueEvents now c b [ev] s.
Proof.
  unfold scheduleEvent, dueEvents. cbv zeta.
  rewrite filter_cons, filter_nil.
  destruct (inWindow now (whenOf c b ev s)) eqn:E.
  - rewrite decide_True by reflexivity. apply triggerScheduled_frame.
  - rewrite decide_False by discriminate.
    cbn [map]. rewrite app_nil_r. split; [apply sameTimeline_refl | split; reflexivity].
Qed.

Lemma dueEvents_same now c b bar s s' :
  sameTimeline s s' -> dueEvents now c b bar s' = dueEvents now c b bar s.
Proof.
  intros H. unfold dueEvents.
  induction bar as [|ev bar IH]; [reflexivity |].
  rewrite !filter_cons, (whenOf_same c b ev s s' H).
  destruct (decide _); cbn [map]; rewrite ?(whenOf_same c b ev s s' H), IH; reflexivity.
Qed.

Lemma dueEvents_cons now c b ev bar s :
  dueEvents now c b (ev :: bar) s
  = dueEvents now c b [ev] s ++ dueEvents now c b bar s.
Proof.
  unfold dueEvents. rewrite !filter_cons, filter_nil.
  destruct (decide _); reflexivity.
Qed.

Lemma fold_scheduleEvent_frame now c b bar : forall s,
  sameTimeline s (fold_left (scheduleEvent now c b) bar s)
  /\ nextNoteTime (fold_left (scheduleEvent now c b) bar s) = nextNoteTime s
  /\ dispatchLog (fold_left (scheduleEvent now c b) bar s)
     = dispatchLog s ++ dueEvents now c b bar s.
Proof.
  induction bar as [|ev bar IH]; intros s.
  - cbn [fold_left]. unfold dueEvents. rewrite filter_nil. cbn [map].
    rewrite app_nil_r. split; [apply sameTimeline_refl | split; reflexivity].
  - cbn [fold_left].
    destruct (scheduleEvent_frame now c b s ev) as (T1 & N1 & L1).
    destruct (IH (scheduleEvent now c b s ev)) as (T2 & N2 & L2).
    split; [eapply sameTimeline_trans; eassumption |].
    split; [congruence |].
    rewrite L2, L1, <- app_assoc, (dueEvents_same _ _ _ _ _ _ T1).
    rewrite (dueEvents_cons now c b ev bar s). reflexivity.
Qed.

Lemma barIndexOf_same t s s' :
  sameTimeline s s' -> barIndexOf t s' = barIndexOf t s.
Proof.
  intros (_ & Hb & Ht). unfold barIndexOf, barDuration. rewrite Hb, Ht. reflexivity.
Qed.

Lemma cycleOf_same t s s' :
  sameTimeline s s' -> cycleOf t s' = cycleOf t s.
Proof.
  intros (_ & Hb & Ht). unfold cycleOf, barDuration. rewrite Hb, Ht. reflexivity.
Qed.

Lemma dueAt_same now t s s' :
  sameTimeline s s' -> dueAt now t s' = dueAt now t s.
Proof.
  intros H. unfold dueAt.
  rewrite (barIndexOf_same t s s' H), (cycleOf_same t s s' H).
  destruct H as (Hs & Hbt). rewrite Hs.
  destruct (barAt _ _); [| reflexivity].
  apply dueEvents_same. split; assumption.
Qed.

Lemma gridStep_same s s' : sameTimeline s s' -> gridStep s' = gridStep s.
Proof. intros (_ & Hb & _). unfold gridStep, beatDuration. rewrite Hb. reflexivity. Qed.

Lemma scheduleStep_frame now s :
  sameTimeline s (scheduleStep now s)
  /\ nextNoteTime (scheduleStep now s) = nextNoteTime s + gridStep s
  /\ dispatchLog (scheduleStep now s)
     = dispatchLog s ++ dueAt now (nextNoteTime s) s.
Proof.
  unfold scheduleStep, dueAt, sameTimeline. cbv zeta.
  destruct (barAt _ _) as [bar |].
  - destruct (fold_scheduleEvent_frame now (cycleOf (nextNoteTime s) s)
                (barIndexOf (nextNoteTime s) s) bar s) as (T & N & L).
    set (s1 := fold_left _ bar s) in *. fields.
    split; [exact T |].
    split; [| exact L].
    rewrite N. unfold gridStep, beatDuration. destruct T as (_ & -> & _).
    reflexivity.
  - fields. rewrite app_nil_r. repeat split; reflexivity.
Qed.

Lemma gridStep_pos s : 0 < bpm s -> 0 < gridStep s.
Proof.
  intros H. unfold gridStep, beatDuration.
  change (inject_Z GRID_STEPS_PER_BEAT) with 4.
  apply Qlt_shift_div_l; [lra |].
  assert (0 < 60 / bpm s) by (apply Qlt_shift_div_l; lra). lra.
Qed.

Lemma inject_Z_pred z : inject_Z (z - 1) == inject_Z z - 1.
Proof. unfold Zminus. rewrite inject_Z_plus. reflexivity. Qed.

Lemma ceiling_pred x : Qceiling (x - 1) = (Qceiling x - 1)%Z.
Proof.
  pose proof (Qceiling_lt x) as H1. pose proof (Qle_ceiling x) as H2.
  rewrite inject_Z_pred in H1.
  apply ceiling_unique; rewrite inject_Z_pred; lra.
Qed.

Lemma ceiling_pos x : 0 < x -> (0 < Qceiling x)%Z.
Proof.
  intros H. pose proof (Qle_ceiling x) as Hc.
  rewrite Zlt_Qlt. change (inject_Z 0) with 0. lra.
Qed.

Lemma ceiling_nonpos x : x <= 0 -> (Qceiling x <= 0)%Z.
Proof.
  intros H. change 0%Z with (Qceiling 0). apply Qceiling_resp_le. exact H.
Qed.

Lemma stepsToHorizon_done now s :
  0 < bpm s ->
  JS.ltb (nextNoteTime s) (now + SCHEDULE_AHEAD_TIME) = false ->
  stepsToHorizon now s = O.
Proof.
  intros Hb H. apply ltb_false in H. unfold stepsToHorizon.
  fold (gridStep s). pose proof (gridStep_pos s Hb) as Hg.
  assert ((now + SCHEDULE_AHEAD_TIME - nextNoteTime s) / gridStep s <= 0)
    by (apply Qle_shift_div_r; lra).
  pose proof (ceiling_nonpos _ H0). lia.
Qed.

Lemma stepsToHorizon_step now s :
  0 < bpm s ->
  JS.ltb (nextNoteTime s) (now + SCHEDULE_AHEAD_TIME) = true ->
  stepsToHorizon now s = S (stepsToHorizon now (scheduleStep now s)).
Proof.
  intros Hb H. apply ltb_true in H.
  destruct (scheduleStep_frame now s) as (T & N & _).
  unfold stepsToHorizon. fold (gridStep s). fold (gridStep (scheduleStep now s)).
  rewrite (gridStep_same _ _ T), N.
  pose proof (gridStep_pos s Hb) as Hg.
  set (x := (now + SCHEDULE_AHEAD_TIME - nextNoteTime s) / gridStep s).
  assert (Hx : 0 < x) by (apply Qlt_shift_div_l; lra).
  assert (E : (now + SCHEDULE_AHEAD_TIME - (nextNoteTime s + gridStep s)) / gridStep s
              == x - 1) by (unfold x; field; lra).
  rewrite (Qceiling_comp _ _ E), ceiling_pred.
  pose proof (ceiling_pos x Hx). lia.
Qed.

Lemma scheduleLoop_runs now : forall n s,
  0 < bpm s -> stepsToHorizon now s = n ->
  exists s',
    scheduleLoop n now s = Some s'
    /\ sameTimeline s s'
    /\ JS.ltb (nextNoteTime s') (now + SCHEDULE_AHEAD_TIME) = false
    /\ dispatchLog s'
       = dispatchLog s
         ++ concat (map (fun t => dueAt now t s)
                        (gridTimes n (nextNoteTime s) (gridStep s))).
Proof.
  induction n as [|n IH]; intros s Hb Hn.
  - destruct (JS.ltb (nextNoteTime s) (now + SCHEDULE_AHEAD_TIME)) eqn:E.
    + rewrite (stepsToHorizon_step now s Hb E) in Hn. discriminate.
    + exists s. cbn [scheduleLoop gridTimes map concat]. rewrite app_nil_r.
      split; [rewrite E; reflexivity |].
      split; [apply sameTimeline_refl | split; [exact E | reflexivity]].
  - destruct (JS.ltb (nextNoteTime s) (now + SCHEDULE_AHEAD_TIME)) eqn:E.
    + rewrite (stepsToHorizon_step now s Hb E) in Hn. injection Hn as Hn.
      destruct (scheduleStep_frame now s) as (T & N & L).
      assert (Hb' : 0 < bpm (scheduleStep now s))
        by (destruct T as (_ & -> & _); exact Hb).
      destruct (IH (scheduleStep now s) Hb' Hn) as (s' & R & T' & D & L').
      exists s'. cbn [scheduleLoop]. rewrite E.
      split; [exact R |].
      split; [eapply sameTimeline_trans; eassumption |].
      split; [exact D |].
      rewrite L', L, <- app_assoc. f_equal.
      cbn [gridTimes map concat]. f_equal.
      rewrite N, (gridStep_same _ _ T).
      f_equal. apply map_ext. intros t. apply dueAt_same. exact T.
    + rewrite (stepsToHorizon_done now s Hb E) in Hn. discriminate.
Qed.

Lemma updateBarBeat_frame now s :
  sameTimeline s (updateBarBeat now s)
  /\ nextNoteTime (updateBarBeat now s) = nextNoteTime s
  /\ dispatchLog (updateBarBeat now s) = dispatchLog s.
Proof.
  unfold updateBarBeat, sameTimeline. cbv zeta.
  destruct (JS.ltb 0 (sequenceStartTime s)); repeat split; reflexivity.
Qed.

Lemma stepsToHorizon_same now s s' :
  sameTimeline s s' -> nextNoteTime s' = nextNoteTime s ->
  stepsToHorizon now s' = stepsToHorizon now s.
Proof.
  intros (_ & Hb & _) Hn. unfold stepsToHorizon, beatDuration.
  rewrite Hb, Hn. reflexivity.
Qed.




Lemma floor_bounds x (n : Z) :
  0 <= x -> x < inject_Z n -> (0 <= JS.floor x < n)%Z.
Proof.
  intros H0 Hn. unfold JS.floor.
  pose proof (Qfloor_le x) as Hlo. pose proof (Qlt_floor x) as Hhi.
  split.
  - change 0%Z with (Qfloor 0). apply Qfloor_resp_le. exact H0.
  - rewrite Zlt_Qlt. lra.
Qed.

Lemma loop_pos s : 0 < bpm s -> 0 < barDuration s /\ 0 < barDuration s * inject_Z BAR_COUNT.
Proof.
  intros Hb. pose proof (bar_pos s Hb) as H. unfold barDuration.
  change (inject_Z BAR_COUNT) with 4. lra.
Qed.




(** The scenario of the specification: 120 BPM, pad 3 of bank A recorded
    0.5 s into bar 0, playback origin at 10.0.  The tick at 10.4 reaches
    the event from each of its five loop iterations with the start time
    10.5, and the sound is started once. *)
Example tick_at_10_4 :
  is_Some (schedulerTick (stepsToHorizon 10.4 running) 10.4 running)
  /\ map (fun d => (pad (fst d), Qred (snd d)))
         (dispatchLog (tickAt 10.4 running))
     = replicate 5 (3%Z, 21 # 2)
  /\ map (fun d => (fst d, Qred (snd d))) (playLog (tickAt 10.4 running))
     = [(3%Z, 21 # 2)].
Proof. split; [eexists |]; [| split]; vm_compute; reflexivity. Qed.

(** A late tick: at 10.495 the start time 10.5 is less than 10 ms ahead,
    and the event is skipped. *)
Example tick_at_10_495 :
  is_Some (schedulerTick (stepsToHorizon 10.495 running) 10.495 running)
  /\ dispatchLog (tickAt 10.495 running) = []
  /\ playLog (tickAt 10.495 running) = [].
Proof. split; [eexists |]; [| split]; vm_compute; reflexivity. Qed.

(** ** Trigger dispatcher *)

Lemma selectBank_frame b s :
  scheduledEvents (selectBank b s) = scheduledEvents s
  /\ timeouts (selectBank b s) = timeouts s
  /\ playLog (selectBank b s) = playLog s
  /\ clock (selectBank b s) = clock s.
Proof.
  destruct_player s. unfold selectBank. fields.
  destruct (String.eqb bank b), dpm, em; repeat split; reflexivity.
Qed.

Lemma quiet_clock s s' : quiet s s' -> (clock s <= clock s')%Z.
Proof.
  induction 1 as [s | s d s' Hd _ IH | s i now due a s1 s' Hi Ha Hf _ IH].
  - lia.
  - cbn in IH. lia.
  - unfold fireTimeout in Hf. rewrite Hi in Hf.
    destruct (due <=? clock s)%Z; [| discriminate]. injection Hf as <-.
    destruct a; try contradiction; cbn in IH; [exact IH |].
    destruct (selectBank_frame originalBank (set_timeouts (delete i (timeouts s)) s))
      as (_ & _ & _ & Hc). rewrite Hc in IH. exact IH.
Qed.

Lemma elem_of_delete_list {A} (l : list A) i x : x ∈ delete i l -> x ∈ l.
Proof.
  revert i. induction l as [|y l IH]; intros i H; [destruct i; inversion H |].
  destruct i; cbn in H.
  - apply list_elem_of_further. exact H.
  - apply elem_of_cons in H as [-> | H]; [apply list_elem_of_here |].
    apply list_elem_of_further. eapply IH. exact H.
Qed.

Lemma quiet_keeps key deadline s s' :
  quiet s s' -> held key deadline s -> (clock s' < deadline)%Z ->
  held key deadline s' /\ playLog s' = playLog s.
Proof.
  induction 1 as [s | s d s' Hd _ IH | s i now due a s1 s' Hi Ha Hf Hq IH];
    intros Hh Hc.
  - split; [exact Hh | reflexivity].
  - apply IH; [exact Hh | exact Hc].
  - pose proof (quiet_clock _ _ Hq) as Hmono.
    unfold fireTimeout in Hf. rewrite Hi in Hf.
    destruct (due <=? clock s)%Z eqn:Hdue; [| discriminate].
    apply Z.leb_le in Hdue. injection Hf as <-.
    assert (Hin : (due, a) ∈ timeouts s)
      by (apply list_elem_of_lookup; exists i; exact Hi).
    destruct Hh as (Hk & Hp).
    destruct a as [k | b | |]; try contradiction.
    + assert (k <> key).
      { intros ->. specialize (Hp due Hin). cbn in Hmono. lia. }
      apply IH; [| exact Hc]. split; cbn.
      * set_solver.
      * intros due' Hd'. apply Hp. eapply elem_of_delete_list. exact Hd'.
    + cbn [runTimeout] in *.
      destruct (selectBank_frame b (set_timeouts (delete i (timeouts s)) s))
        as (Hs & Ht & Hl & Hck).
      assert (held key deadline
                (selectBank b (set_timeouts (delete i (timeouts s)) s))) as Hh'.
      { split; [rewrite Hs; exact Hk |].
        intros due'. rewrite Ht. cbn. intros Hd'. apply Hp.
        eapply elem_of_delete_list. exact Hd'. }
      destruct (IH Hh' Hc) as (H1 & H2). split; [exact H1 |].
      rewrite H2, Hl. reflexivity.
Qed.

Lemma triggerScheduled_fresh ev w s :
  eventKey ev w s ∉ scheduledEvents s ->
  (forall due, (due, DeleteKey (eventKey ev w s)) ∉ timeouts s) ->
  held (eventKey ev w s) (clock s + 1000) (triggerScheduled ev w s)
  /\ playLog (triggerScheduled ev w s) = playLog s ++ [(pad ev, w)]
  /\ clock (triggerScheduled ev w s) = clock s.
Proof.
  intros Hk Hp. unfold triggerScheduled. cbv zeta.
  change (eventKey ev w (set_dispatchLog _ s)) with (eventKey ev w s).
  set (key := eventKey ev w s) in *.
  change (scheduledEvents (set_dispatchLog _ s)) with (scheduledEvents s).
  rewrite bool_decide_eq_false_2 by exact Hk.
  destruct_player s. unfold held, selectBank. fields.
  assert (Hnew : forall due,
            (due, DeleteKey key) ∈ tos ++ [((ck + 1000)%Z, DeleteKey key)] ->
            (ck + 1000 <= due)%Z).
  { intros due Hin. apply elem_of_app in Hin as [Hin | Hin].
    - exfalso. exact (Hp due Hin).
    - apply list_elem_of_singleton in Hin. injection Hin as ->. lia. }
  destruct (bankSwitch ev bank) as [b |].
  - destruct (String.eqb bank b), dpm, em; fields;
      (split; [split; [set_solver |] | split; reflexivity]);
      intros due Hin;
      (apply elem_of_app in Hin as [Hin | Hin];
       [apply Hnew; exact Hin | apply list_elem_of_singleton in Hin; discriminate]).
  - fields. split; [split; [set_solver | exact Hnew] | split; reflexivity].
Qed.

Lemma triggerScheduled_duplicate ev w s :
  eventKey ev w s ∈ scheduledEvents s ->
  triggerScheduled ev w s = set_dispatchLog (dispatchLog s ++ [(ev, w)]) s.
Proof.
  intros Hk. unfold triggerScheduled. cbv zeta.
  change (eventKey ev w (set_dispatchLog _ s)) with (eventKey ev w s).
  change (scheduledEvents (set_dispatchLog _ s)) with (scheduledEvents s).
  rewrite bool_decide_eq_true_2 by exact Hk. reflexivity.
Qed.

(** What the dedup set does guarantee.  Let the key of the first call be
    absent from the dedup set and have no removal pending.  If after the
    first call only time passes and due housekeeping timeouts run, and the
    second call (same pad, same bank, a start time with the same
    [toFixed(3)] text) comes less than 1000 ms after the first, then
    [playPad] has been called exactly once, by the first call, and the
    second call changes nothing but the dispatch trace. *)
Theorem dedup_within_ttl (s s2 : Player) (ev1 ev2 : Event) (w1 w2 : Q) :
  eventKey ev1 w1 s ∉ scheduledEvents s ->
  (forall due, (due, DeleteKey (eventKey ev1 w1 s)) ∉ timeouts s) ->
  quiet (triggerScheduled ev1 w1 s) s2 ->
  (clock s2 < clock s + 1000)%Z ->
  pad ev2 = pad ev1 ->
  bankOrCurrent ev2 s2 = bankOrCurrent ev1 s ->
  JS.toFixed3 w2 = JS.toFixed3 w1 ->
  playLog (triggerScheduled ev2 w2 s2) = playLog s ++ [(pad ev1, w1)]
  /\ triggerScheduled ev2 w2 s2
     = set_dispatchLog (dispatchLog s2 ++ [(ev2, w2)]) s2.
Proof.
  intros Hk Hp Hq Hc Hpad Hbank Hw.
  destruct (triggerScheduled_fresh ev1 w1 s Hk Hp) as (Hh & Hl & _).
  destruct (quiet_keeps _ _ _ _ Hq Hh Hc) as ((Hin & _) & Hl2).
  assert (Hkey : eventKey ev2 w2 s2 = eventKey ev1 w1 s)
    by (unfold eventKey; rewrite Hpad, Hbank, Hw; reflexivity).
  rewrite <- Hkey in Hin.
  rewrite (triggerScheduled_duplicate ev2 w2 s2 Hin).
  split; [| reflexivity]. fields. rewrite Hl2, Hl. reflexivity.
Qed.

Lemma dedup_within_ttl_witness :
  playLog (triggerScheduled (eventAt 0.5) 10.5004 (elapse 700 dispatchedOnce))
  = playLog (playerWith [eventAt 0.5]) ++ [(pad (eventAt 0.5), 10.5)]
  /\ triggerScheduled (eventAt 0.5) 10.5004 (elapse 700 dispatchedOnce)
     = set_dispatchLog
         (dispatchLog (elapse 700 dispatchedOnce) ++ [(eventAt 0.5, 10.5004)])
         (elapse 700 dispatchedOnce).
Proof.
  apply (dedup_within_ttl (playerWith [eventAt 0.5]) (elapse 700 dispatchedOnce)
           (eventAt 0.5) (eventAt 0.5) 10.5 10.5004).
  - apply not_elem_of_empty.
  - intros due. apply not_elem_of_nil.
  - apply (quiet_elapse _ 700); [lia | apply quiet_refl].
  - reflexivity.
  - reflexivity.
  - reflexivity.
  - vm_compute. reflexivity.
Defined.

(** C2 fails on the code.  [triggerScheduled] keeps a key "for 1 second to
    prevent duplicates", but the removal it queues is not cancelled when
    [stopSequence] (or [cleanupActiveSources]) empties the dedup set, and
    it still runs when the same key has been entered again.  In
    [afterStop] an event was dispatched 500 ms ago and playback was
    stopped since: the key is absent.  The event is dispatched and played;
    500 ms later the old removal deletes the new key; a second dispatch of
    the same pad, bank and start time 700 ms after the first, with nothing
    but time and that removal in between, is played again. *)
Theorem dedup_broken_by_stale_removal :
  (eventKey (eventAt 0.5) 10.5 afterStop ∉ scheduledEvents afterStop)
  /\ quiet redispatched staleFired
  /\ (clock staleFired < clock afterStop + 1000)%Z
  /\ playLog (triggerScheduled (eventAt 0.5) 10.5 staleFired)
     = playLog afterStop ++ [(3%Z, 10.5); (3%Z, 10.5)].
Proof.
  split; [apply not_elem_of_empty |].
  split; [| split; [reflexivity | vm_compute; reflexivity]].
  apply (quiet_elapse _ 500); [lia |].
  apply (quiet_fire _ 0%nat 0 1000%Z (DeleteKey "3-A-10.500") staleRemoved).
  - reflexivity.
  - exact I.
  - vm_compute. reflexivity.
  - apply (quiet_elapse _ 200); [lia | apply quiet_refl].
Qed.

(** ** Recorder *)

(** C7 fails on the code.  With PLAY pressed during a recording the
    playback origin lies 50 ms ahead of the clock; a pad hit before the
    origin is stored with a negative time, here -0.015 s from the raw
    -0.03 s. *)
Theorem early_hit_negative_time :
  isRecording playWhileRecording = true
  /\ 11.02 < sequenceStartTime playWhileRecording
  /\ is_Some (recordPadEvent 5 11.02 playWhileRecording)
  /\ map (map (fun e => (pad e, Qred (time e)))) (sequence earlyHit)
     = [[(3%Z, 1 # 2); (5%Z, -3 # 200)]; []; []; []]
  /\ exists e, In e (concat (sequence earlyHit)) /\ time e < 0.
Proof.
  split; [reflexivity |].
  split; [vm_compute; reflexivity |].
  split; [eexists; vm_compute; reflexivity |].
  split; [vm_compute; reflexivity |].
  exists (nth 1 (nth 0 (sequence earlyHit) []) (eventAt 0)).
  split; [vm_compute; auto | vm_compute; reflexivity].
Qed.


(** * Further properties *)

(** ** Recorder *)

Lemma barAt_Some i seq bar :
  barAt i seq = Some bar -> (0 <= i)%Z /\ seq !! Z.to_nat i = Some bar.
Proof.
  unfold barAt. destruct (i <? 0)%Z eqn:E; [discriminate |].
  apply Z.ltb_ge in E. intros H. split; assumption.
Qed.

Lemma barAt_None i seq :
  barAt i seq = None <-> (i < 0)%Z \/ (Z.of_nat (length seq) <= i)%Z.
Proof.
  unfold barAt. destruct (i <? 0)%Z eqn:E.
  - apply Z.ltb_lt in E. split; [intros _; left; exact E | reflexivity].
  - apply Z.ltb_ge in E. rewrite lookup_ge_None. split.
    + intros H. right. lia.
    + intros [H | H]; lia.
Qed.

Lemma recordPadEvent_appends p now s :
  match recordPadEvent p now s with
  | Some s' =>
      exists bar e,
        barAt (currentBar s) (sequence s) = Some bar
        /\ s' = set_sequence (<[Z.to_nat (currentBar s) := bar ++ [e]]> (sequence s)) s
        /\ pad e = p /\ bank e = Some (currentBank s)
        /\ quantized e = quantizeMode s /\ overdubbed e = isOverdubbing s
        /\ originalTime e
           = Some (JS.rem (now - recordingOrigin s) (barDuration s))
        /\ time e = (if quantizeMode s
                     then quantizeTime (JS.rem (now - recordingOrigin s) (barDuration s)) s
                     else JS.rem (now - recordingOrigin s) (barDuration s))
  | None => (currentBar s < 0)%Z \/ (Z.of_nat (length (sequence s)) <= currentBar s)%Z
  end.
Proof.
  unfold recordPadEvent, pushEvent, recordingOrigin, barDuration. cbv zeta.
  destruct (barAt (currentBar s) (sequence s)) as [bar |] eqn:E.
  - eexists bar, _. split; [reflexivity |]. split; [reflexivity |].
    cbn. destruct (isOverdubbing s); repeat split; reflexivity.
  - apply barAt_None. exact E.
Qed.

Lemma recordPadEvent_length p now s s' :
  recordPadEvent p now s = Some s' ->
  length (sequence s') = length (sequence s).
Proof.
  intros H. pose proof (recordPadEvent_appends p now s) as A. rewrite H in A.
  destruct A as (bar & e & _ & -> & _). cbn. apply length_insert.
Qed.

(** X1.  A pad hit recorded at or after the origin of the take is appended
    to the bar the player shows and to no other; the time stored with it,
    quantized or not, and its original time lie inside one bar. *)
Theorem recordPadEvent_in_bar (p : Z) (now : Q) (s s' : Player) :
  0 < bpm s -> (0 < gridStepsPerBeat s)%Z ->
  0 <= quantizeStrength s -> quantizeStrength s <= 1 ->
  recordingOrigin s <= now ->
  recordPadEvent p now s = Some s' ->
  exists bar e r,
    barAt (currentBar s) (sequence s) = Some bar
    /\ barAt (currentBar s) (sequence s') = Some (bar ++ [e])
    /\ pad e = p /\ inBar s e
    /\ originalTime e = Some r /\ 0 <= r /\ r < barDuration s.
Proof.
  intros Hb Hg Hs0 Hs1 Ho H.
  pose proof (recordPadEvent_appends p now s) as A. rewrite H in A.
  destruct A as (bar & e & Hbar & -> & Hp & _ & _ & _ & Hr & Ht).
  assert (Hrem : 0 <= JS.rem (now - recordingOrigin s) (barDuration s)
                 /\ JS.rem (now - recordingOrigin s) (barDuration s) < barDuration s).
  { apply rem_nonneg; [apply bar_pos; exact Hb | lra]. }
  exists bar, e, (JS.rem (now - recordingOrigin s) (barDuration s)).
  split; [exact Hbar |]. split.
  - apply barAt_Some in Hbar as (Hi & Hl). unfold barAt.
    destruct (currentBar s <? 0)%Z eqn:E; [apply Z.ltb_lt in E; lia |].
    cbn. apply list_lookup_insert_eq. apply lookup_lt_Some in Hl. exact Hl.
  - split; [exact Hp |]. split; [| split; [exact Hr | exact Hrem]].
    unfold inBar. rewrite Ht. destruct (quantizeMode s); [| exact Hrem].
    apply quantize_range; try assumption. apply Hrem.
Qed.

Lemma recordPadEvent_in_bar_witness :
  exists bar e r,
    barAt (currentBar recording) (sequence recording) = Some bar
    /\ barAt (currentBar recording) (sequence firstHit) = Some (bar ++ [e])
    /\ pad e = 3%Z /\ inBar recording e
    /\ originalTime e = Some r /\ 0 <= r /\ r < barDuration recording.
Proof.
  apply (recordPadEvent_in_bar 3 10.5 recording firstHit);
    vm_compute; first [reflexivity | discriminate].
Defined.

(** ** Tempo and the stored events *)

Lemma Forall2_Forall_transfer {A} (R : A -> A -> Prop) (P P' : A -> Prop) l l' :
  (forall x y, R x y -> P x -> P' y) ->
  Forall2 R l l' -> Forall P l -> Forall P' l'.
Proof.
  intros H F. induction F as [|x y l l' Hxy _ IH]; intros HP; constructor.
  - eapply H; [exact Hxy |]. apply Forall_inv in HP. exact HP.
  - apply IH. apply Forall_inv_tail in HP. exact HP.
Qed.

Lemma Rescaled_inBar s s' e e' :
  0 < bpm s -> 0 < bpm s' ->
  Rescaled (bpm s / bpm s') e e' -> inBar s e -> inBar s' e'.
Proof.
  intros Hb Hb' (_ & _ & _ & _ & Ht & _) (H0 & H1). unfold inBar, barDuration in *.
  change (inject_Z BEATS_PER_BAR) with 4 in *.
  assert (Hr : 0 < bpm s / bpm s') by (apply Qlt_shift_div_l; lra).
  rewrite Ht. split.
  - apply Qmult_le_0_compat; lra.
  - assert (E : 60 / bpm s' * 4 == (60 / bpm s * 4) * (bpm s / bpm s'))
      by (field; split; lra).
    rewrite E. apply Qmult_lt_r; assumption.
Qed.

(** X2.  A tempo change keeps every stored event inside its bar: events
    that lie inside one bar at the old tempo lie inside one bar at the new
    one. *)
Theorem changeTempo_keeps_events_in_bar (s : Player) (change : Q) :
  0 < bpm s ->
  Forall (Forall (inBar s)) (sequence s) ->
  Forall (Forall (inBar (changeTempo change s))) (sequence (changeTempo change s)).
Proof.
  intros Hb HF.
  assert (Hb' : 0 < bpm (changeTempo change s)).
  { rewrite bpm_changeTempo. pose proof (clamp_range (bpm s + change)) as [H _].
    unfold MIN_BPM in *. lra. }
  eapply Forall2_Forall_transfer; [| apply changeTempo_rescales | exact HF].
  intros bar bar' HR HB.
  eapply Forall2_Forall_transfer; [| exact HR | exact HB].
  intros e e'. apply Rescaled_inBar; assumption.
Qed.

Lemma changeTempo_keeps_events_in_bar_witness :
  Forall (Forall (inBar (changeTempo 20 (playerWith [eventAt 0.5]))))
    (sequence (changeTempo 20 (playerWith [eventAt 0.5]))).
Proof.
  apply (changeTempo_keeps_events_in_bar (playerWith [eventAt 0.5]) 20).
  - reflexivity.
  - repeat constructor; vm_compute; first [reflexivity | discriminate].
Defined.

(** ** Cursor of the scheduler *)

Lemma scheduleLoop_cursor now : forall fuel s s',
  0 < bpm s ->
  scheduleLoop fuel now s = Some s' ->
  sameTimeline s s'
  /\ now + SCHEDULE_AHEAD_TIME <= nextNoteTime s'
  /\ nextNoteTime s <= nextNoteTime s'
  /\ (JS.ltb (nextNoteTime s) (now + SCHEDULE_AHEAD_TIME) = true ->
      nextNoteTime s' < now + SCHEDULE_AHEAD_TIME + gridStep s)
  /\ (JS.ltb (nextNoteTime s) (now + SCHEDULE_AHEAD_TIME) = false -> s' = s).
Proof.
  induction fuel as [|fuel IH]; intros s s' Hb H; cbn [scheduleLoop] in H;
    destruct (JS.ltb (nextNoteTime s) (now + SCHEDULE_AHEAD_TIME)) eqn:E;
    try discriminate.
  - injection H as <-. apply ltb_false in E.
    split; [apply sameTimeline_refl |]. split; [exact E |].
    split; [lra |]. split; [discriminate | reflexivity].
  - destruct (scheduleStep_frame now s) as (T & N & _).
    assert (Hb1 : 0 < bpm (scheduleStep now s))
      by (destruct T as (_ & -> & _); exact Hb).
    destruct (IH _ _ Hb1 H) as (T' & Hh & Hm & Hlt & Hge).
    pose proof (gridStep_pos s Hb) as Hg.
    rewrite N in Hm. rewrite (gridStep_same _ _ T) in Hlt.
    split; [eapply sameTimeline_trans; eassumption |].
    split; [exact Hh |]. split; [lra |]. split; [| discriminate].
    intros _.
    destruct (JS.ltb (nextNoteTime (scheduleStep now s))
                (now + SCHEDULE_AHEAD_TIME)) eqn:E1.
    + apply Hlt. reflexivity.
    + rewrite (Hge eq_refl), N. apply ltb_true in E. lra.
  - injection H as <-. apply ltb_false in E.
    split; [apply sameTimeline_refl |]. split; [exact E |].
    split; [lra |]. split; [discriminate | reflexivity].
Qed.

(** With the number of iterations it needs, a tick finishes. *)
Lemma schedulerTick_returns now s :
  0 < bpm s -> exists s', schedulerTick (stepsToHorizon now s) now s = Some s'.
Proof.
  intros Hb. destruct (updateBarBeat_frame now s) as (T & N & _).
  assert (Hb0 : 0 < bpm (updateBarBeat now s))
    by (destruct T as (_ & -> & _); exact Hb).
  destruct (scheduleLoop_runs now (stepsToHorizon now s) (updateBarBeat now s) Hb0
              (stepsToHorizon_same now s _ T N)) as (s' & R & _).
  exists s'. exact R.
Qed.

(** X3.  A tick finishes and leaves the cursor [nextNoteTime] at or beyond
    the horizon [now + SCHEDULE_AHEAD_TIME], less than one grid step past
    it, or where it was when it already lay beyond; the cursor never moves
    back, and the sequence, the tempo and the origin are untouched. *)
Theorem tick_advances_cursor (now : Q) (s : Player) :
  0 < bpm s ->
  exists s',
    schedulerTick (stepsToHorizon now s) now s = Some s'
    /\ sequence s' = sequence s /\ bpm s' = bpm s
    /\ sequenceStartTime s' = sequenceStartTime s
    /\ Qmax (nextNoteTime s) (now + SCHEDULE_AHEAD_TIME) <= nextNoteTime s'
    /\ nextNoteTime s' < Qmax (nextNoteTime s) (now + SCHEDULE_AHEAD_TIME) + gridStep s.
Proof.
  intros Hb. destruct (schedulerTick_returns now s Hb) as (s' & H).
  exists s'. split; [exact H |]. unfold schedulerTick in H.
  destruct (updateBarBeat_frame now s) as (T & N & _).
  set (s0 := updateBarBeat now s) in *.
  assert (Hb0 : 0 < bpm s0) by (destruct T as (_ & -> & _); exact Hb).
  destruct (scheduleLoop_cursor now _ s0 s' Hb0 H) as (T' & Hh & Hm & Hlt & Hge).
  pose proof (sameTimeline_trans _ _ _ T T') as (Q1 & Q2 & Q3).
  rewrite N in *. rewrite (gridStep_same _ _ T) in Hlt.
  pose proof (gridStep_pos s Hb) as Hg.
  split; [exact Q1 |]. split; [exact Q2 |]. split; [exact Q3 |].
  split; [apply Q.max_lub; assumption |].
  destruct (JS.ltb (nextNoteTime s) (now + SCHEDULE_AHEAD_TIME)) eqn:E.
  - specialize (Hlt eq_refl).
    pose proof (Q.le_max_r (nextNoteTime s) (now + SCHEDULE_AHEAD_TIME)). lra.
  - rewrite (Hge eq_refl), N.
    pose proof (Q.le_max_l (nextNoteTime s) (now + SCHEDULE_AHEAD_TIME)). lra.
Qed.

Lemma tick_advances_cursor_witness :
  exists s',
    schedulerTick (stepsToHorizon 10.4 running) 10.4 running = Some s'
    /\ sequence s' = sequence running /\ bpm s' = bpm running
    /\ sequenceStartTime s' = sequenceStartTime running
    /\ Qmax (nextNoteTime running) (10.4 + SCHEDULE_AHEAD_TIME) <= nextNoteTime s'
    /\ nextNoteTime s'
       < Qmax (nextNoteTime running) (10.4 + SCHEDULE_AHEAD_TIME) + gridStep running.
Proof. apply (tick_advances_cursor 10.4 running). reflexivity. Defined.



(** ** Display counters and started sounds *)

Lemma updateBarBeat_fields now s :
  0 < sequenceStartTime s ->
  currentBar (updateBarBeat now s)
  = JS.floor (JS.rem (now - sequenceStartTime s)
                (barDuration s * inject_Z BAR_COUNT) / barDuration s)
  /\ currentBeat (updateBarBeat now s)
     = (JS.floor (JS.rem (JS.rem (now - sequenceStartTime s)
                            (barDuration s * inject_Z BAR_COUNT))
                    (barDuration s) / beatDuration s) + 1)%Z.
Proof.
  intros H. apply ltb_true in H. unfold updateBarBeat. cbv zeta. rewrite H.
  split; reflexivity.
Qed.

(** X5.  Once the origin of playback is set and reached, the bar and beat a
    tick puts on the display are a bar of the loop and a beat of the bar:
    the bar lies in 0 .. [BAR_COUNT - 1] (shown as 1 .. 4), the beat in
    1 .. [BEATS_PER_BAR]. *)
Theorem display_counters_in_range (s : Player) (now : Q) :
  0 < bpm s -> 0 < sequenceStartTime s -> sequenceStartTime s <= now ->
  (0 <= currentBar (updateBarBeat now s) < BAR_COUNT)%Z
  /\ (1 <= currentBeat (updateBarBeat now s) <= BEATS_PER_BAR)%Z.
Proof.
  intros Hb Hs Hn. destruct (updateBarBeat_fields now s Hs) as (-> & ->).
  destruct (loop_pos s Hb) as (Hbar & Hloop).
  assert (Hbeat : 0 < beatDuration s) by (apply beat_pos; exact Hb).
  assert (Hbb : barDuration s == beatDuration s * inject_Z BEATS_PER_BAR) by reflexivity.
  set (bar := barDuration s) in *. set (beat := beatDuration s) in *.
  set (loop := bar * inject_Z BAR_COUNT) in *.
  assert (Hu : 0 <= now - sequenceStartTime s) by lra.
  destruct (rem_nonneg _ loop Hloop Hu) as (Hr0 & Hr1).
  set (r := JS.rem (now - sequenceStartTime s) loop) in *.
  destruct (rem_nonneg r bar Hbar Hr0) as (Hq0 & Hq1).
  split.
  - apply floor_bounds.
    + apply Qle_shift_div_l; [assumption | lra].
    + apply Qlt_shift_div_r; [assumption | unfold loop in Hr1; lra].
  - assert (0 <= JS.floor (JS.rem r bar / beat) < BEATS_PER_BAR)%Z; [| lia].
    apply floor_bounds.
    + apply Qle_shift_div_l; [assumption | lra].
    + apply Qlt_shift_div_r; [assumption | lra].
Qed.

Lemma display_counters_in_range_witness :
  (0 <= currentBar (updateBarBeat 13 running) < BAR_COUNT)%Z
  /\ (1 <= currentBeat (updateBarBeat 13 running) <= BEATS_PER_BAR)%Z.
Proof.
  apply (display_counters_in_range running 13);
    vm_compute; first [reflexivity | discriminate].
Defined.

(** X6.  A tick that runs before the origin of playback, which
    [startSequence] puts 50 ms ahead, sets the bar counter to -1; a pad hit
    recorded in that state has no bar to go to and fails. *)
Theorem display_before_origin (s : Player) (now now' : Q) (p : Z) :
  0 < bpm s -> 0 < sequenceStartTime s ->
  sequenceStartTime s - barDuration s <= now -> now < sequenceStartTime s ->
  currentBar (updateBarBeat now s) = (-1)%Z
  /\ recordPadEvent p now' (updateBarBeat now s) = None.
Proof.
  intros Hb Hs Hlo Hhi.
  destruct (updateBarBeat_fields now s Hs) as (Hbar & _).
  destruct (loop_pos s Hb) as (Hb1 & Hloop).
  assert (Hc : currentBar (updateBarBeat now s) = (-1)%Z).
  { rewrite Hbar.
    set (bar := barDuration s) in *.
    assert (Hr : JS.rem (now - sequenceStartTime s) (bar * inject_Z BAR_COUNT)
                 == now - sequenceStartTime s).
    { apply rem_small; [exact Hloop | |];
        change (inject_Z BAR_COUNT) with 4; lra. }
    unfold JS.floor. rewrite (Qfloor_comp _ _ (Qdiv_comp _ _ Hr _ _ (Qeq_refl bar))).
    apply floor_unique.
    - change (inject_Z (-1)) with (- (1)). apply Qle_shift_div_l; [assumption | lra].
    - change (inject_Z (-1)) with (- (1)). apply Qlt_shift_div_r; [assumption | lra]. }
  split; [exact Hc |].
  unfold recordPadEvent, pushEvent, barAt. cbv zeta. rewrite Hc. reflexivity.
Qed.

Lemma display_before_origin_witness :
  currentBar (updateBarBeat 9.97 running) = (-1)%Z
  /\ recordPadEvent 3 9.97 (updateBarBeat 9.97 running) = None.
Proof.
  apply (display_before_origin running 9.97 9.97 3);
    vm_compute; first [reflexivity | discriminate].
Defined.

Lemma triggerScheduled_plays ev w s :
  (playLog (triggerScheduled ev w s) = playLog s
   /\ scheduledEvents (triggerScheduled ev w s) = scheduledEvents s)
  \/ (playLog (triggerScheduled ev w s) = playLog s ++ [(pad ev, w)]
      /\ (eventKey ev w s ∉ scheduledEvents s)
      /\ scheduledEvents (triggerScheduled ev w s)
         = scheduledEvents s ∪ {[eventKey ev w s]}).
Proof.
  destruct (decide (eventKey ev w s ∈ scheduledEvents s)) as [Hin | Hout].
  - left. rewrite (triggerScheduled_duplicate ev w s Hin). split; reflexivity.
  - right. unfold triggerScheduled. cbv zeta.
    change (eventKey ev w (set_dispatchLog _ s)) with (eventKey ev w s).
    change (scheduledEvents (set_dispatchLog _ s)) with (scheduledEvents s).
    rewrite bool_decide_eq_false_2 by exact Hout.
    set (key := eventKey ev w s) in *. clearbody key.
    destruct_player s. unfold selectBank. fields.
    destruct (bankSwitch ev bank) as [b |];
      [destruct (String.eqb bank b), dpm, em |]; fields;
      (split; [reflexivity | split; [exact Hout | reflexivity]]).
Qed.

Lemma playedInWindow_refl now s : playedInWindow now s s.
Proof.
  exists []. rewrite app_nil_r.
  split; [reflexivity |]. split; [constructor |].
  split; [reflexivity | cbn; lia].
Qed.

Lemma playedInWindow_trans now s1 s2 s3 :
  playedInWindow now s1 s2 -> playedInWindow now s2 s3 -> playedInWindow now s1 s3.
Proof.
  intros (p1 & L1 & F1 & S1 & Z1) (p2 & L2 & F2 & S2 & Z2).
  exists (p1 ++ p2). rewrite L2, L1, <- app_assoc.
  split; [reflexivity |]. split; [apply Forall_app; split; assumption |].
  split; [set_solver |]. rewrite Z2, Z1, length_app. lia.
Qed.

Lemma scheduleEvent_played now c b s ev :
  playedInWindow now s (scheduleEvent now c b s ev).
Proof.
  unfold scheduleEvent. cbv zeta.
  destruct (inWindow now (whenOf c b ev s)) eqn:E; [| apply playedInWindow_refl].
  apply inWindow_true in E.
  destruct (triggerScheduled_plays ev (whenOf c b ev s) s)
    as [(Hl & Hs) | (Hl & Hout & Hs)].
  - exists []. rewrite app_nil_r, Hl, Hs.
    split; [reflexivity |]. split; [constructor |].
    split; [reflexivity | cbn; lia].
  - exists [(pad ev, whenOf c b ev s)]. rewrite Hl, Hs.
    split; [reflexivity |].
    split; [constructor; [exact E | constructor] |].
    split; [set_solver |].
    rewrite size_union by set_solver. rewrite size_singleton. reflexivity.
Qed.

Lemma fold_scheduleEvent_played now c b bar : forall s,
  playedInWindow now s (fold_left (scheduleEvent now c b) bar s).
Proof.
  induction bar as [|ev bar IH]; intros s; cbn [fold_left].
  - apply playedInWindow_refl.
  - eapply playedInWindow_trans; [apply scheduleEvent_played | apply IH].
Qed.

Lemma scheduleStep_played now s : playedInWindow now s (scheduleStep now s).
Proof.
  unfold scheduleStep. cbv zeta.
  destruct (barAt _ _) as [bar |].
  - destruct (fold_scheduleEvent_played now (cycleOf (nextNoteTime s) s)
                (barIndexOf (nextNoteTime s) s) bar s) as (pl & H).
    exists pl. exact H.
  - destruct (playedInWindow_refl now s) as (pl & H). exists pl. exact H.
Qed.

Lemma scheduleLoop_played now : forall fuel s s',
  scheduleLoop fuel now s = Some s' -> playedInWindow now s s'.
Proof.
  induction fuel as [|fuel IH]; intros s s' H; cbn [scheduleLoop] in H;
    destruct (JS.ltb _ _); try discriminate.
  - injection H as <-. apply playedInWindow_refl.
  - eapply playedInWindow_trans; [apply scheduleStep_played | apply IH; exact H].
  - injection H as <-. apply playedInWindow_refl.
Qed.

(** X7.  A tick finishes, and every sound it starts has its start time in
    the dispatch window [[now + 0.01, now + SCHEDULE_AHEAD_TIME)]; it
    starts one sound per key it enters into the dedup set and removes no
    key. *)
Theorem tick_plays_in_window (now : Q) (s : Player) :
  0 < bpm s ->
  exists s' plays,
    schedulerTick (stepsToHorizon now s) now s = Some s'
    /\ playLog s' = playLog s ++ plays
    /\ Forall (fun pw => now + 0.01 <= snd pw /\ snd pw < now + SCHEDULE_AHEAD_TIME) plays
    /\ scheduledEvents s ⊆ scheduledEvents s'
    /\ size (scheduledEvents s') = (size (scheduledEvents s) + length plays)%nat.
Proof.
  intros Hb. destruct (schedulerTick_returns now s Hb) as (s' & R).
  pose proof R as H. unfold schedulerTick in H.
  apply scheduleLoop_played in H. destruct H as (pl & L & F & S & Z).
  exists s', pl. split; [exact R |]. unfold updateBarBeat in *. cbv zeta in *.
  destruct (JS.ltb 0 (sequenceStartTime s)); repeat split; assumption.
Qed.

Lemma tick_plays_in_window_witness :
  exists s' plays,
    schedulerTick (stepsToHorizon 10.4 running) 10.4 running = Some s'
    /\ playLog s' = playLog running ++ plays
    /\ Forall (fun pw => 10.4 + 0.01 <= snd pw /\ snd pw < 10.4 + SCHEDULE_AHEAD_TIME)
         plays
    /\ scheduledEvents running ⊆ scheduledEvents s'
    /\ size (scheduledEvents s') = (size (scheduledEvents running) + length plays)%nat.
Proof. apply (tick_plays_in_window 10.4 running). reflexivity. Defined.

(** ** Bank switching and key expiry *)

Lemma bankSwitch_Some ev cur b :
  bank ev = Some b -> b <> ""%string -> b <> cur -> bankSwitch ev cur = Some b.
Proof.
  intros Hb He Hc. unfold bankSwitch. rewrite Hb.
  destruct (String.eqb_spec b ""); [contradiction |].
  destruct (String.eqb_spec b cur); [contradiction | reflexivity].
Qed.

Lemma selectBank_other b s :
  currentBank s <> b ->
  currentBank (selectBank b s) = b
  /\ isEditMode (selectBank b s) = false
  /\ deletePadMode (selectBank b s) = false.
Proof.
  intros H. destruct_player s. unfold selectBank. fields. cbn in H.
  destruct (String.eqb_spec bank b); [contradiction |].
  destruct dpm, em; repeat split; reflexivity.
Qed.

(** X8.  Dispatching a fresh event recorded in another bank selects that
    bank for the sound, which leaves edit mode and delete mode, and queues
    a timeout of 0 ms that selects the previous bank again; that timeout
    can run at once and keeps the dedup set. *)
Theorem dispatch_switches_bank_and_restores
  (ev : Event) (w now : Q) (s : Player) (b : string) :
  eventKey ev w s ∉ scheduledEvents s ->
  bank ev = Some b -> b <> ""%string -> b <> currentBank s ->
  currentBank (triggerScheduled ev w s) = b
  /\ isEditMode (triggerScheduled ev w s) = false
  /\ deletePadMode (triggerScheduled ev w s) = false
  /\ playLog (triggerScheduled ev w s) = playLog s ++ [(pad ev, w)]
  /\ timeouts (triggerScheduled ev w s)
     = timeouts s ++ [((clock s + 1000)%Z, DeleteKey (eventKey ev w s));
                      ((clock s + 0)%Z, RestoreBank (currentBank s))]
  /\ exists s2,
       fireTimeout (S (length (timeouts s))) now (triggerScheduled ev w s) = Some s2
       /\ currentBank s2 = currentBank s
       /\ isEditMode s2 = false
       /\ scheduledEvents s2 = scheduledEvents (triggerScheduled ev w s).
Proof.
  intros Hk Hb He Hc. unfold triggerScheduled. cbv zeta.
  change (eventKey ev w (set_dispatchLog _ s)) with (eventKey ev w s).
  change (scheduledEvents (set_dispatchLog _ s)) with (scheduledEvents s).
  rewrite bool_decide_eq_false_2 by exact Hk.
  set (key := eventKey ev w s) in *. clearbody key.
  destruct_player s. fields. cbn [currentBank] in Hc.
  rewrite (bankSwitch_Some ev bank b Hb He Hc).
  unfold selectBank. fields.
  destruct (String.eqb_spec bank b) as [E | _]; [congruence |].
  assert (Hfire : forall (l : list (Z * TimeoutAction)) x y,
             (l ++ [x; y]) !! S (length l) = Some y).
  { intros l x y. rewrite lookup_app_r by lia.
    replace (S (length l) - length l)%nat with 1%nat by lia. reflexivity. }
  destruct dpm, em; fields;
    (split; [reflexivity |]; split; [reflexivity |]; split; [reflexivity |];
     split; [reflexivity |]; split; [rewrite <- app_assoc; reflexivity |]);
    unfold fireTimeout; fields; rewrite <- app_assoc; cbn [app];
    rewrite Hfire; (destruct (ck + 0 <=? ck)%Z eqn:Hle; [| apply Z.leb_gt in Hle; lia]);
    eexists; (split; [reflexivity |]); cbn [runTimeout]; unfold selectBank; fields;
    (destruct (String.eqb_spec b bank) as [E | _]; [congruence |]);
    fields; repeat split; reflexivity.
Qed.

Lemma dispatch_switches_bank_and_restores_witness :
  currentBank
    (triggerScheduled (eventAt 0.5) 10.5
       (set_currentBank "B" (playerWith [eventAt 0.5])))
  = "A"%string.
Proof.
  apply (dispatch_switches_bank_and_restores (eventAt 0.5) 10.5 10.5
           (set_currentBank "B" (playerWith [eventAt 0.5])) "A").
  - apply not_elem_of_empty.
  - reflexivity.
  - discriminate.
  - discriminate.
Defined.

Lemma bankOrCurrent_switch ev cur b s' :
  bankSwitch ev cur = Some b -> bankOrCurrent ev s' = b.
Proof.
  unfold bankSwitch, bankOrCurrent. destruct (bank ev) as [x |]; [| discriminate].
  destruct (String.eqb x ""); [discriminate |].
  destruct (String.eqb x cur); [discriminate |]. congruence.
Qed.

Lemma triggerScheduled_fresh_shape ev w s :
  eventKey ev w s ∉ scheduledEvents s ->
  exists rest,
    timeouts (triggerScheduled ev w s)
    = timeouts s ++ ((clock s + 1000)%Z, DeleteKey (eventKey ev w s)) :: rest
    /\ scheduledEvents (triggerScheduled ev w s)
       = scheduledEvents s ∪ {[eventKey ev w s]}
    /\ clock (triggerScheduled ev w s) = clock s
    /\ playLog (triggerScheduled ev w s) = playLog s ++ [(pad ev, w)]
    /\ bankOrCurrent ev (triggerScheduled ev w s) = bankOrCurrent ev s.
Proof.
  intros Hk. unfold triggerScheduled. cbv zeta.
  change (eventKey ev w (set_dispatchLog _ s)) with (eventKey ev w s).
  change (scheduledEvents (set_dispatchLog _ s)) with (scheduledEvents s).
  rewrite bool_decide_eq_false_2 by exact Hk.
  set (key := eventKey ev w s) in *. clearbody key.
  destruct (bankSwitch ev (currentBank (setTimeout 1000 (DeleteKey key)
              (set_scheduledEvents (scheduledEvents s ∪ {[key]})
                 (set_dispatchLog (dispatchLog s ++ [(ev, w)]) s))))) as [b |] eqn:E.
  - rewrite (bankOrCurrent_switch _ _ _ _ E), (bankOrCurrent_switch _ _ _ s E).
    destruct_player s. unfold selectBank. fields.
    destruct (String.eqb bank b), dpm, em; fields;
      eexists; rewrite <- app_assoc; repeat split; reflexivity.
  - destruct_player s. fields. exists []. unfold bankOrCurrent. fields.
    repeat split; reflexivity.
Qed.

(** X9.  The removal a fresh dispatch queues for its key cannot run before
    1000 ms have passed; run after that, it gives the dedup set back as it
    was before the dispatch, and the same event for the same start time is
    then played a second time. *)
Theorem dedup_key_expires (ev : Event) (w now : Q) (s : Player) (d d' : Z) :
  eventKey ev w s ∉ scheduledEvents s ->
  (1000 <= d)%Z -> (d' < 1000)%Z ->
  fireTimeout (length (timeouts s)) now (elapse d' (triggerScheduled ev w s)) = None
  /\ exists s2,
       fireTimeout (length (timeouts s)) now (elapse d (triggerScheduled ev w s))
       = Some s2
       /\ scheduledEvents s2 = scheduledEvents s
       /\ playLog (triggerScheduled ev w s2) = playLog s ++ [(pad ev, w); (pad ev, w)].
Proof.
  intros Hk Hd Hd'.
  destruct (triggerScheduled_fresh_shape ev w s Hk) as (rest & Ht & Hs & Hc & Hl & Hb).
  set (s1 := triggerScheduled ev w s) in *.
  assert (Hlook : timeouts s1 !! length (timeouts s)
                  = Some ((clock s + 1000)%Z, DeleteKey (eventKey ev w s))).
  { rewrite Ht, lookup_app_r by lia. rewrite Nat.sub_diag. reflexivity. }
  unfold fireTimeout. cbn [timeouts elapse set_clock clock]. rewrite Hlook, Hc.
  split.
  - destruct (clock s + 1000 <=? clock s + d')%Z eqn:E; [| reflexivity].
    apply Z.leb_le in E. lia.
  - destruct (clock s + 1000 <=? clock s + d)%Z eqn:E;
      [| apply Z.leb_gt in E; lia].
    eexists. split; [reflexivity |]. cbn [runTimeout]. fields.
    assert (Hset : (scheduledEvents s1) ∖ {[eventKey ev w s]} = scheduledEvents s)
      by (rewrite Hs; set_solver).
    split; [exact Hset |].
    set (s2 := set_scheduledEvents _ _).
    assert (Hkey : eventKey ev w s2 = eventKey ev w s).
    { unfold eventKey. f_equal. f_equal.
      change (bankOrCurrent ev s2) with (bankOrCurrent ev s1). rewrite Hb. reflexivity. }
    assert (Hk2 : eventKey ev w s2 ∉ scheduledEvents s2).
    { rewrite Hkey. unfold s2, elapse. fields. rewrite Hset. exact Hk. }
    destruct (triggerScheduled_fresh_shape ev w s2 Hk2) as (_ & _ & _ & _ & Hl2 & _).
    rewrite Hl2. unfold s2, elapse. fields. rewrite Hl, <- app_assoc. reflexivity.
Qed.

Lemma dedup_key_expires_witness :
  fireTimeout (length (timeouts (playerWith [eventAt 0.5]))) 11
    (elapse 999 (triggerScheduled (eventAt 0.5) 10.5 (playerWith [eventAt 0.5])))
  = None.
Proof.
  apply (dedup_key_expires (eventAt 0.5) 10.5 11 (playerWith [eventAt 0.5]) 1000 999).
  - apply not_elem_of_empty.
  - lia.
  - lia.
Defined.

(** ** Tempo changes during playback *)

Lemma stopSequence_frame (s : Player) :
  sequence (stopSequence s) = sequence s
  /\ bpm (stopSequence s) = bpm s
  /\ quantizeStrength (stopSequence s) = quantizeStrength s
  /\ currentBank (stopSequence s) = currentBank s
  /\ timeouts (stopSequence s) = timeouts s
  /\ clock (stopSequence s) = clock s
  /\ playLog (stopSequence s) = playLog s
  /\ scheduledEvents (stopSequence s) = ∅
  /\ currentBar (stopSequence s) = 0%Z /\ currentBeat (stopSequence s) = 1%Z
  /\ performanceMode (stopSequence s) = true
  /\ isEditMode (stopSequence s) = false.
Proof.
  destruct_player s.
  destruct st, mi, bi, bai, em, pm; repeat split; reflexivity.
Qed.

Lemma hasRecorded_count s :
  hasRecordedSequence s = true -> (0 <? length (concat (sequence s)))%nat = true.
Proof.
  unfold hasRecordedSequence. induction (sequence s) as [|bar seq IH]; cbn [existsb concat].
  - discriminate.
  - intros H. apply Nat.ltb_lt. rewrite length_app.
    apply orb_true_iff in H as [H | H].
    + apply Nat.ltb_lt in H. lia.
    + apply IH, Nat.ltb_lt in H. lia.
Qed.

Lemma isRecording_setTimeout d a s :
  isRecording (setTimeout d a s) = isRecording s.
Proof. reflexivity. Qed.

Lemma isPlaying_setTimeout d a s : isPlaying (setTimeout d a s) = isPlaying s.
Proof. reflexivity. Qed.

Lemma timeouts_setTimeout d a s :
  timeouts (setTimeout d a s) = timeouts s ++ [((clock s + d)%Z, a)].
Proof. reflexivity. Qed.

Lemma clock_setTimeout d a s : clock (setTimeout d a s) = clock s.
Proof. reflexivity. Qed.

Lemma elapse_fields d s :
  clock (elapse d s) = (clock s + d)%Z /\ timeouts (elapse d s) = timeouts s.
Proof. split; reflexivity. Qed.

Lemma schedulerTimer_setTimeout d a s :
  schedulerTimer (setTimeout d a s) = schedulerTimer s.
Proof. reflexivity. Qed.

Lemma scheduledEvents_setTimeout d a s :
  scheduledEvents (setTimeout d a s) = scheduledEvents s.
Proof. reflexivity. Qed.

Lemma changeTempo_playing change s :
  isPlaying s = true -> hasRecordedSequence s = true ->
  ~ bpm s == bpm (changeTempo change s) ->
  changeTempo change s
  = setTimeout 100 RestartSequence
      (stopSequence
         (set_sequence
            (map (map (rescaleEvent (bpm s / bpm (changeTempo change s)))) (sequence s))
            (set_bpm (bpm (changeTempo change s)) s))).
Proof.
  intros Hp Hr Hne. rewrite !bpm_changeTempo in *.
  set (v := Qmax MIN_BPM (Qmin MAX_BPM (bpm s + change))) in *.
  unfold changeTempo. cbv zeta. fold v.
  change (hasRecordedSequence (set_bpm v s)) with (hasRecordedSequence s).
  rewrite Hr. change (bpm (set_bpm v s)) with v.
  unfold recalculateSequenceTiming. cbv zeta.
  destruct (Qeq_bool (bpm s) v) eqn:E; [apply Qeq_bool_eq in E; contradiction |].
  change (sequence (set_bpm v s)) with (sequence s).
  rewrite (hasRecorded_count s Hr).
  change (isPlaying (set_sequence _ (set_bpm v s))) with (isPlaying s). rewrite Hp.
  rewrite isRecording_setTimeout, isPlaying_setTimeout.
  rewrite isRecording_stopSequence, isPlaying_stopSequence. reflexivity.
Qed.

(** X10.  A tempo change that alters the tempo of a playing player with
    recorded events stops playback (no tick interval, empty dedup set) and
    queues a restart 100 ms later; the restart starts playback afresh with
    its origin 50 ms after the time it runs.  Stopping the player before
    the restart has run does not cancel it: the restart still runs and the
    player plays again. *)
Theorem tempo_change_restarts_playback (s : Player) (change now : Q) :
  isPlaying s = true -> hasRecordedSequence s = true ->
  ~ bpm s == bpm (changeTempo change s) ->
  isPlaying (changeTempo change s) = false
  /\ schedulerTimer (changeTempo change s) = None
  /\ scheduledEvents (changeTempo change s) = ∅
  /\ timeouts (changeTempo change s)
     = timeouts s ++ [((clock s + 100)%Z, RestartSequence)]
  /\ (exists s2,
        fireTimeout (length (timeouts s)) now (elapse 100 (changeTempo change s))
        = Some s2
        /\ isPlaying s2 = true
        /\ sequenceStartTime s2 = now + 0.05 /\ nextNoteTime s2 = now + 0.05)
  /\ (exists s3,
        fireTimeout (length (timeouts s)) now
          (elapse 100 (stopSequence (changeTempo change s)))
        = Some s3
        /\ isPlaying s3 = true).
Proof.
  intros Hp Hr Hne. rewrite (changeTempo_playing change s Hp Hr Hne).
  set (y0 := set_sequence _ _).
  assert (Hy : timeouts y0 = timeouts s /\ clock y0 = clock s) by (split; reflexivity).
  destruct Hy as (Hyt & Hyc).
  destruct (stopSequence_frame y0) as (_ & _ & _ & _ & Ht & Hc & _ & Hse & _).
  destruct (stopSequence_handles y0) as (Hst & _).
  set (y := stopSequence y0) in *.
  assert (Htime : timeouts (setTimeout 100 RestartSequence y)
                  = timeouts s ++ [((clock s + 100)%Z, RestartSequence)]).
  { rewrite timeouts_setTimeout, Ht, Hc, Hyt, Hyc. reflexivity. }
  split; [rewrite isPlaying_setTimeout; apply isPlaying_stopSequence |].
  split; [rewrite schedulerTimer_setTimeout; exact Hst |].
  split; [rewrite scheduledEvents_setTimeout; exact Hse |].
  split; [exact Htime |].
  assert (Hlook : forall z, timeouts z = timeouts s ++ [((clock s + 100)%Z, RestartSequence)] ->
            clock z = (clock s + 100)%Z ->
            exists z', fireTimeout (length (timeouts s)) now z = Some z'
                       /\ isPlaying z' = true
                       /\ sequenceStartTime z' = now + 0.05
                       /\ nextNoteTime z' = now + 0.05).
  { intros z Hz Hcz. unfold fireTimeout. rewrite Hz, lookup_app_r by lia.
    rewrite Nat.sub_diag. cbn [lookup list_lookup]. rewrite Hcz, Z.leb_refl.
    eexists. split; [reflexivity |]. cbn [runTimeout].
    destruct (startSequence_fields now (set_timeouts
                (delete (length (timeouts s))
                   (timeouts s ++ [((clock s + 100)%Z, RestartSequence)])) z))
      as (A & B & C & _).
    repeat split; assumption. }
  split.
  - destruct (elapse_fields 100 (setTimeout 100 RestartSequence y)) as (E1 & E2).
    apply Hlook; [rewrite E2; exact Htime |].
    rewrite E1, clock_setTimeout, Hc, Hyc. reflexivity.
  - destruct (stopSequence_frame (setTimeout 100 RestartSequence y))
      as (_ & _ & _ & _ & Ht2 & Hc2 & _).
    destruct (elapse_fields 100 (stopSequence (setTimeout 100 RestartSequence y)))
      as (E1 & E2).
    destruct (Hlook (elapse 100 (stopSequence (setTimeout 100 RestartSequence y))))
      as (z' & Hf & Hp' & _).
    + rewrite E2, Ht2. exact Htime.
    + rewrite E1, Hc2, clock_setTimeout, Hc, Hyc. reflexivity.
    + exists z'. split; assumption.
Qed.

Lemma tempo_change_restarts_playback_witness :
  isPlaying (changeTempo 20 running) = false.
Proof.
  apply (tempo_change_restarts_playback running 20 11).
  - reflexivity.
  - reflexivity.
  - vm_compute. discriminate.
Defined.

(** ** Starting and stopping *)

(** X11.  Pressing REC while the player plays turns [isPlaying] off but
    leaves the tick interval of the scheduler registered: the scheduler
    goes on ticking during the take. *)
Theorem startRecording_keeps_tick_running (s : Player) (now : Q) (id : nat) :
  audioContext s = true ->
  schedulerTimer s = Some id ->
  (id, SchedulerTickI (LOOKAHEAD * 1000)) ∈ intervals s ->
  metronomeInterval s <> Some id ->
  isPlaying (startRecording now s) = false
  /\ (id, SchedulerTickI (LOOKAHEAD * 1000)) ∈ intervals (startRecording now s).
Proof.
  intros Ha Hst Hin Hm. unfold startRecording. rewrite Ha. cbn [negb].
  destruct_player s. cbn in Hst, Hin, Hm.
  destruct ip, mi as [m |]; (split; [reflexivity |]);
    unfold startPrecount, startMetronome, preCount; fields;
    change (0 <? PRE_COUNT_BARS * BEATS_PER_BAR)%Z with true; cbv iota; fields;
    rewrite elem_of_app; left; try exact Hin;
    apply list_elem_of_filter; (split; [| exact Hin]); cbn; congruence.
Qed.

Lemma startRecording_keeps_tick_running_witness :
  isPlaying (startRecording 11 running) = false
  /\ (1%nat, SchedulerTickI (LOOKAHEAD * 1000)) ∈ intervals (startRecording 11 running).
Proof.
  apply (startRecording_keeps_tick_running running 11 1).
  - reflexivity.
  - reflexivity.
  - vm_compute. apply list_elem_of_here.
  - discriminate.
Defined.

Lemma stopSequence_spares_untracked s id a :
  (id, a) ∈ intervals s ->
  schedulerTimer s <> Some id -> metronomeInterval s <> Some id ->
  beatInterval s <> Some id -> barAdvancementInterval s <> Some id ->
  (id, a) ∈ intervals (stopSequence s).
Proof.
  intros Hin H1 H2 H3 H4. destruct_player s. cbn in Hin, H1, H2, H3, H4.
  destruct st as [x |], mi as [m |], bi as [b |], bai as [ba |], em, pm;
    unfold stopSequence, stopTimers; fields;
    repeat (apply list_elem_of_filter; split; [cbn; congruence |]);
    exact Hin.
Qed.

(** X12.  [startSequence] has no guard of its own: called twice, it
    registers two tick intervals and remembers the handle of the second.
    [stopSequence] then clears that one only; the first interval stays
    registered although the player is stopped. *)
Theorem double_start_leaks_interval (s : Player) (now1 now2 : Q) :
  timersTracked s ->
  schedulerTimer (stopSequence (startSequence now2 (startSequence now1 s))) = None
  /\ isPlaying (stopSequence (startSequence now2 (startSequence now1 s))) = false
  /\ (nextTimerId s, SchedulerTickI (LOOKAHEAD * 1000))
     ∈ intervals (stopSequence (startSequence now2 (startSequence now1 s))).
Proof.
  intros (Hi & Hm & Hb & Hba).
  split; [apply stopSequence_handles |]. split; [apply isPlaying_stopSequence |].
  apply stopSequence_spares_untracked.
  - destruct (startSequence_fields now2 (startSequence now1 s)) as (_ & _ & _ & _ & _ & _ & _ & ->).
    destruct (startSequence_fields now1 s) as (_ & _ & _ & _ & _ & _ & _ & ->).
    rewrite !elem_of_app. left. right. apply list_elem_of_here.
  - destruct (startSequence_fields now2 (startSequence now1 s)) as (_ & _ & _ & _ & _ & _ & -> & _).
    change (nextTimerId (startSequence now1 s)) with (S (nextTimerId s)).
    intros H. injection H as H. lia.
  - change (metronomeInterval (startSequence now2 (startSequence now1 s)))
      with (metronomeInterval s).
    intros H. specialize (Hm _ H). lia.
  - change (beatInterval (startSequence now2 (startSequence now1 s)))
      with (beatInterval s).
    intros H. specialize (Hb _ H). lia.
  - change (barAdvancementInterval (startSequence now2 (startSequence now1 s)))
      with (barAdvancementInterval s).
    intros H. specialize (Hba _ H). lia.
Qed.

Lemma double_start_leaks_interval_witness :
  isPlaying (stopSequence (startSequence 2 (startSequence 1 (withAudio initialPlayer))))
  = false
  /\ (nextTimerId (withAudio initialPlayer), SchedulerTickI (LOOKAHEAD * 1000))
     ∈ intervals
         (stopSequence (startSequence 2 (startSequence 1 (withAudio initialPlayer)))).
Proof.
  apply (double_start_leaks_interval (withAudio initialPlayer) 1 2).
  repeat split; intros *; cbn; first [intros H; inversion H | discriminate].
Defined.

(** ** Grid information *)

Lemma round_near x :
  inject_Z (JS.round x) - (1 # 2) <= x /\ x < inject_Z (JS.round x) + (1 # 2).
Proof.
  unfold JS.round. pose proof (Qfloor_le (x + (1 # 2))) as H1.
  pose proof (Qlt_floor (x + (1 # 2))) as H2.
  rewrite inject_Z_plus in H2. change (inject_Z 1) with 1 in H2. split; lra.
Qed.

Lemma Qabs_le_iff x y : Qabs x <= y <-> - y <= x /\ x <= y.
Proof. apply Qabs_Qle_condition. Qed.

Lemma snap_near s t :
  0 < bpm s -> (0 < gridStepsPerBeat s)%Z ->
  - (60 / bpm s / inject_Z (gridStepsPerBeat s) / 2)
  <= inject_Z (JS.round (t / (60 / bpm s / inject_Z (gridStepsPerBeat s))))
     * (60 / bpm s / inject_Z (gridStepsPerBeat s)) - t
  /\ inject_Z (JS.round (t / (60 / bpm s / inject_Z (gridStepsPerBeat s))))
     * (60 / bpm s / inject_Z (gridStepsPerBeat s)) - t
     <= 60 / bpm s / inject_Z (gridStepsPerBeat s) / 2.
Proof.
  intros Hb Hg. pose proof (step_pos s Hb Hg) as Hst.
  set (st := 60 / bpm s / inject_Z (gridStepsPerBeat s)) in *.
  destruct (round_near (t / st)) as (H1 & H2).
  set (k := inject_Z (JS.round (t / st))) in *.
  assert (Ht : st * (t / st) == t) by (apply div_cancel; lra).
  assert (A1 : st * (k - (1 # 2)) <= st * (t / st)) by (apply Qmult_le_l; assumption).
  assert (A2 : st * (t / st) < st * (k + (1 # 2))) by (apply Qmult_lt_l; assumption).
  assert (E1 : st * (k - (1 # 2)) == k * st - st / 2) by field.
  assert (E2 : st * (k + (1 # 2)) == k * st + st / 2) by field.
  split; lra.
Qed.

(** X13.  The grid information for a time [t >= 0]: the quantized time is
    the step index times the step length and lies within half a step of
    [t]; the step within the beat is one of the steps of a beat; the beat
    index is the beat [t] lies in. *)
Theorem gridStepInfo_nearest_step (s : Player) (t : Q) :
  0 < bpm s -> (0 < gridStepsPerBeat s)%Z -> 0 <= t ->
  let info := getGridStepInfo t s in
  quantizedTime info == inject_Z (stepIndex info) * stepDuration info
  /\ Qabs (quantizedTime info - t) <= stepDuration info / 2
  /\ (0 <= stepIndex info)%Z /\ (0 <= beatIndex info)%Z
  /\ (0 <= stepInBeat info < gridStepsPerBeat s)%Z
  /\ inject_Z (beatIndex info) * (60 / bpm s) <= t
  /\ t < inject_Z (beatIndex info + 1) * (60 / bpm s).
Proof.
  intros Hb Hg Ht info. subst info. unfold getGridStepInfo. cbv zeta.
  cbn [quantizedTime stepIndex stepDuration beatIndex stepInBeat].
  pose proof (step_pos s Hb Hg) as Hst. pose proof (beat_pos s Hb) as Hbeat.
  destruct (snap_near s t Hb Hg) as (N1 & N2).
  set (st := 60 / bpm s / inject_Z (gridStepsPerBeat s)) in *.
  set (beat := 60 / bpm s) in *.
  assert (Hk : (0 <= JS.round (t / st))%Z)
    by (apply round_nonneg; apply Qle_shift_div_l; lra).
  split; [reflexivity |].
  split; [apply Qabs_le_iff; split; lra |].
  split; [exact Hk |].
  assert (Hq : 0 <= t / beat) by (apply Qle_shift_div_l; lra).
  split; [unfold JS.floor; change 0%Z with (Qfloor 0); apply Qfloor_resp_le; exact Hq |].
  split; [apply Z.rem_bound_pos; lia |].
  pose proof (Qfloor_le (t / beat)) as F1. pose proof (Qlt_floor (t / beat)) as F2.
  fold (JS.floor (t / beat)) in F1, F2.
  assert (Ht2 : beat * (t / beat) == t) by (apply div_cancel; lra).
  assert (A1 : beat * inject_Z (JS.floor (t / beat)) <= beat * (t / beat))
    by (apply Qmult_le_l; assumption).
  assert (A2 : beat * (t / beat) < beat * inject_Z (JS.floor (t / beat) + 1))
    by (apply Qmult_lt_l; assumption).
  rewrite (Qmult_comm _ beat), (Qmult_comm _ beat). split; lra.
Qed.

Lemma gridStepInfo_nearest_step_witness :
  Qabs (quantizedTime (getGridStepInfo 0.3 strength1) - 0.3)
  <= stepDuration (getGridStepInfo 0.3 strength1) / 2.
Proof.
  apply (gridStepInfo_nearest_step strength1 0.3);
    vm_compute; first [reflexivity | discriminate].
Defined.

(** X14.  Away from the last half step of the bar, quantizing moves a time
    by at most the quantize strength times half a grid step: not at all at
    strength 0, to the nearest grid line at strength 1. *)
Theorem quantize_moves_at_most_half_step (s : Player) (t : Q) :
  0 < bpm s -> (0 < gridStepsPerBeat s)%Z ->
  0 <= quantizeStrength s -> quantizeStrength s <= 1 ->
  0 <= t ->
  t < barDuration s - (60 / bpm s / inject_Z (gridStepsPerBeat s)) / 2 ->
  Qabs (quantizeTime t s - t)
  <= quantizeStrength s * ((60 / bpm s / inject_Z (gridStepsPerBeat s)) / 2).
Proof.
  intros Hb Hg Hs0 Hs1 Ht Hhi.
  pose proof (step_pos s Hb Hg) as Hst. pose proof (bar_pos s Hb) as Hbar.
  pose proof (bar_in_steps s Hb Hg) as Hbs.
  destruct (snap_near s t Hb Hg) as (N1 & N2).
  unfold quantizeTime, barDuration in *. cbv zeta in *.
  set (st := 60 / bpm s / inject_Z (gridStepsPerBeat s)) in *.
  set (bar := 60 / bpm s * inject_Z BEATS_PER_BAR) in *.
  set (w := quantizeStrength s) in *.
  set (n := (BEATS_PER_BAR * gridStepsPerBeat s)%Z) in *.
  assert (Hk0 : (0 <= JS.round (t / st))%Z)
    by (apply round_nonneg; apply Qle_shift_div_l; lra).
  (* the snapped step stays below the bar *)
  assert (Hkn : (JS.round (t / st) < n)%Z).
  { unfold JS.round. rewrite Zlt_Qlt.
    pose proof (Qfloor_le (t / st + (1 # 2))) as F.
    assert (t / st < inject_Z n - (1 # 2)); [| lra].
    apply Qlt_shift_div_r; [exact Hst |].
    assert ((inject_Z n - (1 # 2)) * st == bar - st / 2) by (rewrite Hbs; field).
    lra. }
  set (k := inject_Z (JS.round (t / st))) in *.
  assert (Hk0' : 0 <= k) by (unfold k; change 0 with (inject_Z 0); rewrite <- Zle_Qle; exact Hk0).
  assert (Hk1 : k <= inject_Z n - 1).
  { unfold k. assert (JS.round (t / st) <= n - 1)%Z by lia.
    rewrite Zle_Qle in H. unfold Zminus in H. rewrite inject_Z_plus in H.
    exact H. }
  assert (Hq0 : 0 <= k * st) by (apply Qmult_le_0_compat; lra).
  assert (Hq1 : k * st <= bar - st).
  { assert (k * st <= (inject_Z n - 1) * st) by (apply Qmult_le_compat_r; lra).
    assert ((inject_Z n - 1) * st == bar - st) by (rewrite Hbs; ring). lra. }
  set (q := k * st) in *.
  assert (Hfin : t + (q - t) * w == t * (1 - w) + q * w) by ring.
  assert (A : 0 <= t * (1 - w)) by (apply Qmult_le_0_compat; lra).
  assert (B : 0 <= q * w) by (apply Qmult_le_0_compat; lra).
  assert (C : t * (1 - w) <= (bar - st / 2) * (1 - w)) by (apply Qmult_le_compat_r; lra).
  assert (D : q * w <= (bar - st) * w) by (apply Qmult_le_compat_r; lra).
  assert (E : 0 <= st * w) by (apply Qmult_le_0_compat; lra).
  assert (Hsmall : JS.rem (t + (q - t) * w) bar == t + (q - t) * w).
  { apply rem_small; [exact Hbar | lra |]. nra. }
  rewrite Hsmall. apply Qabs_le_iff.
  assert (F1 : (q - t) * w <= (st / 2) * w) by (apply Qmult_le_compat_r; lra).
  assert (F2 : (- (st / 2)) * w <= (q - t) * w) by (apply Qmult_le_compat_r; lra).
  split; lra.
Qed.

Lemma quantize_moves_at_most_half_step_witness :
  Qabs (quantizeTime 0.3 strength1 - 0.3)
  <= quantizeStrength strength1
     * ((60 / bpm strength1 / inject_Z (gridStepsPerBeat strength1)) / 2).
Proof.
  apply (quantize_moves_at_most_half_step strength1 0.3);
    vm_compute; first [reflexivity | discriminate].
Defined.

(** ** Quantize levels *)

Lemma cycleQuantize_in_levels s :
  In (quantizeStrength (cycleQuantizeConsolidated s)) strengthLevels.
Proof.
  destruct_player s. unfold strengthLevels.
  unfold cycleQuantizeConsolidated, indexOf. cbn [quantizeStrength].
  destruct (Qeq_bool 0 qs), (Qeq_bool 0.25 qs), (Qeq_bool 0.5 qs),
    (Qeq_bool 0.75 qs), (Qeq_bool 1 qs); cbn; auto 6.
Qed.

Lemma cycleQuantize_period s :
  In (quantizeStrength s) strengthLevels ->
  quantizeStrength
    (cycleQuantizeConsolidated
       (cycleQuantizeConsolidated
          (cycleQuantizeConsolidated
             (cycleQuantizeConsolidated (cycleQuantizeConsolidated s)))))
  = quantizeStrength s.
Proof.
  destruct_player s. unfold strengthLevels. cbn [quantizeStrength In].
  intros [<- | [<- | [<- | [<- | [<- | []]]]]]; vm_compute; reflexivity.
Qed.

(** X15.  Whatever the strength was, pressing the quantize button leaves
    one of the five levels; the mode is off exactly when the level is 0;
    and five more presses come back to the same level. *)
Theorem cycleQuantize_levels (s : Player) :
  In (quantizeStrength (cycleQuantizeConsolidated s)) strengthLevels
  /\ quantizeMode (cycleQuantizeConsolidated s)
     = negb (Qeq_bool (quantizeStrength (cycleQuantizeConsolidated s)) 0)
  /\ quantizeStrength
       (cycleQuantizeConsolidated
          (cycleQuantizeConsolidated
             (cycleQuantizeConsolidated
                (cycleQuantizeConsolidated
                   (cycleQuantizeConsolidated (cycleQuantizeConsolidated s))))))
     = quantizeStrength (cycleQuantizeConsolidated s).
Proof.
  split; [apply cycleQuantize_in_levels |].
  split; [| apply cycleQuantize_period, cycleQuantize_in_levels].
  destruct_player s.
  unfold cycleQuantizeConsolidated, indexOf. cbn [quantizeStrength].
  destruct (Qeq_bool 0 qs), (Qeq_bool 0.25 qs), (Qeq_bool 0.5 qs),
    (Qeq_bool 0.75 qs), (Qeq_bool 1 qs); reflexivity.
Qed.

(** ** Slicer *)

Lemma floor_div_Z a b : JS.floor (inject_Z a / inject_Z b) = (a / b)%Z.
Proof. unfold JS.floor. symmetry. apply Zdiv_Qdiv. Qed.

Lemma createSlices_lookup total rate n i sl :
  createSlices total rate n !! i = Some sl ->
  (i < Z.to_nat n)%nat
  /\ sl = makeSlice total (total / n)%Z rate (Z.of_nat i).
Proof.
  unfold createSlices. cbv zeta. rewrite floor_div_Z.
  rewrite list_lookup_fmap. intros H.
  destruct (seq 0 (Z.to_nat n) !! i) as [j |] eqn:E; [| discriminate].
  apply lookup_seq in E as (-> & Hi). cbn in H. injection H as <-.
  split; [exact Hi | reflexivity].
Qed.

(** X16.  Cutting a buffer of [total] frames into [n > 0] slices gives [n]
    slices of [total / n] frames each, laid end to end from frame 0 and
    inside the buffer, with offset and duration the frame counts over the
    sample rate; the frames left over at the end, fewer than [n], belong
    to no slice. *)
Theorem createSlices_partition (total n : Z) (rate : Q) (i : nat) (sl : Slice) :
  (0 <= total)%Z -> (0 < n)%Z -> 0 < rate ->
  createSlices total rate n !! i = Some sl ->
  length (createSlices total rate n) = Z.to_nat n
  /\ startFrame sl = (Z.of_nat i * (total / n))%Z
  /\ endFrame sl = (startFrame sl + total / n)%Z
  /\ (0 <= startFrame sl)%Z /\ (endFrame sl <= total)%Z
  /\ offset sl == inject_Z (startFrame sl) / rate
  /\ duration sl == inject_Z (total / n) / rate
  /\ (total - n < n * (total / n) <= total)%Z.
Proof.
  intros Ht Hn Hr H.
  apply createSlices_lookup in H as (Hi & ->).
  pose proof (Z.div_pos total n Ht Hn) as Hq.
  pose proof (Z.mul_div_le total n Hn) as Hle.
  pose proof (Z.mod_pos_bound total n Hn) as Hm.
  pose proof (Z.div_mod total n ltac:(lia)) as Hdm.
  assert (Hend : (Z.of_nat i * (total / n) + total / n <= total)%Z) by nia.
  unfold makeSlice. cbv zeta. cbn [startFrame endFrame offset duration].
  rewrite (Z.min_l _ _ Hend).
  split; [unfold createSlices; rewrite length_map, length_seq; reflexivity |].
  split; [reflexivity |]. split; [reflexivity |].
  split; [nia |]. split; [exact Hend |].
  split; [reflexivity |].
  split; [| lia].
  replace (Z.of_nat i * (total / n) + total / n - Z.of_nat i * (total / n))%Z
    with (total / n)%Z by lia.
  reflexivity.
Qed.

Lemma createSlices_partition_witness :
  length (createSlices 1000 44100 3) = 3%nat
  /\ (1000 - 3 < 3 * (1000 / 3) <= 1000)%Z.
Proof.
  destruct (createSlices_partition 1000 3 44100 1
              (makeSlice 1000 (1000 / 3) 44100 1))
    as (H1 & _ & _ & _ & _ & _ & _ & H2).
  - lia.
  - lia.
  - reflexivity.
  - vm_compute. reflexivity.
  - split; [exact H1 | exact H2].
Defined.

(** X17.  Asked for more slices than the buffer has frames, [createSlices]
    still returns that many slices, all of them empty: zero frames, zero
    duration. *)
Theorem createSlices_more_slices_than_frames (total n : Z) (rate : Q) :
  (0 <= total)%Z -> (total < n)%Z ->
  length (createSlices total rate n) = Z.to_nat n
  /\ Forall (fun sl => startFrame sl = 0%Z /\ endFrame sl = 0%Z
                       /\ duration sl == 0)
       (createSlices total rate n).
Proof.
  intros Ht Hn.
  split; [unfold createSlices; rewrite length_map, length_seq; reflexivity |].
  apply Forall_lookup. intros i sl H.
  apply createSlices_lookup in H as (Hi & ->).
  rewrite (Z.div_small total n) by lia.
  unfold makeSlice. cbv zeta. cbn [startFrame endFrame duration].
  rewrite Z.mul_0_r, Z.add_0_l, (Z.min_l 0 total) by lia.
  split; [reflexivity |]. split; [reflexivity |].
  unfold Qdiv. change (inject_Z (0 - 0)) with 0. apply Qmult_0_l.
Qed.

Lemma createSlices_more_slices_than_frames_witness :
  length (createSlices 5 44100 8) = 8%nat.
Proof. apply (createSlices_more_slices_than_frames 5 8 44100); lia. Defined.

(** ** Binary64 rounding *)

Lemma pow2_pos e : 0 < 2 ^ e.
Proof. apply Qpower_0_lt. reflexivity. Qed.

Lemma pow2_le e1 e2 : (e1 <= e2)%Z -> 2 ^ e1 <= 2 ^ e2.
Proof. intros H. apply Qpower_le_compat_l; [exact H | discriminate]. Qed.

Lemma pow2_Z n : (0 <= n)%Z -> inject_Z (2 ^ n) == 2 ^ n.
Proof. intros H. apply (Zpower_Qpower 2 n H). Qed.

(** A lower bound on a positive rational from the bit lengths of its
    numerator and denominator. *)
Lemma ilog2_estimate q :
  0 < q -> 2 ^ (Z.log2 (Qnum q) - Z.log2 (Zpos (Qden q)) - 1) <= q.
Proof.
  destruct q as [n d]. unfold Qlt. cbn [Qnum Qden]. intros Hn.
  rewrite Z.mul_1_r in Hn.
  destruct (Z.log2_spec n Hn) as (Hlo & _).
  destruct (Z.log2_spec (Zpos d) ltac:(lia)) as (_ & Hhi).
  pose proof (Z.log2_nonneg n). pose proof (Z.log2_nonneg (Zpos d)).
  set (ln := Z.log2 n) in *. set (ld := Z.log2 (Zpos d)) in *.
  replace (ln - ld - 1)%Z with (ln + - (ld + 1))%Z by lia.
  rewrite Qpower_plus by discriminate. rewrite Qpower_opp.
  rewrite <- !pow2_Z by lia.
  assert (Hd : 0 < inject_Z (2 ^ (ld + 1))).
  { change 0 with (inject_Z 0). rewrite <- Zlt_Qlt. apply Z.pow_pos_nonneg; lia. }
  assert (Hq : n # d == inject_Z n / inject_Z (Zpos d)) by apply Qmake_Qdiv.
  rewrite Hq.
  assert (Hdp : 0 < inject_Z (Zpos d)) by reflexivity.
  apply Qle_shift_div_l; [exact Hdp |].
  assert (A : inject_Z (2 ^ ln) <= inject_Z n) by (rewrite <- Zle_Qle; exact Hlo).
  assert (B : inject_Z (Zpos d) <= inject_Z (2 ^ (ld + 1)))
    by (rewrite <- Zle_Qle; lia).
  assert (P : 0 < inject_Z (2 ^ ln)).
  { change 0 with (inject_Z 0). rewrite <- Zlt_Qlt. apply Z.pow_pos_nonneg; lia. }
  assert (C : inject_Z (2 ^ ln) * / inject_Z (2 ^ (ld + 1)) * inject_Z (Zpos d)
              <= inject_Z (2 ^ ln)).
  { assert (E : inject_Z (2 ^ ln) * / inject_Z (2 ^ (ld + 1)) * inject_Z (Zpos d)
                == inject_Z (2 ^ ln) * (inject_Z (Zpos d) / inject_Z (2 ^ (ld + 1))))
      by (field; lra).
    rewrite E. rewrite <- (Qmult_1_r (inject_Z (2 ^ ln))) at 2.
    apply Qmult_le_l; [exact P |].
    apply Qle_shift_div_r; [exact Hd | lra]. }
  lra.
Qed.

Lemma ilog2_lower q : 0 < q -> 2 ^ (Double.ilog2 q) <= q.
Proof.
  intros Hq. unfold Double.ilog2. cbv zeta.
  destruct (Qle_bool _ q) eqn:E.
  - apply Qle_bool_iff. exact E.
  - apply ilog2_estimate. exact Hq.
Qed.

Lemma nearestEven_floor x : (Qfloor x <= Double.nearestEven x)%Z.
Proof.
  unfold Double.nearestEven. cbv zeta.
  destruct (Qcompare _ _); [destruct (Z.even _) | |]; lia.
Qed.

(** Rounding keeps a positive number that is not below the least positive
    binary64 number positive. *)
Lemma round_pos q : 0 < q -> 2 ^ (-1074) <= q -> 0 < Double.round q.
Proof.
  intros Hq Hmin. unfold Double.round. cbv zeta.
  destruct (Qeq_bool q 0) eqn:E; [apply Qeq_bool_eq in E; lra |].
  assert (Hle : Qle_bool 0 q = true) by (apply Qle_bool_iff; lra).
  rewrite Hle.
  assert (Ha : Qabs q == q) by (apply Qabs_pos; lra).
  set (e := Z.max (Double.ilog2 (Qabs q) - 52) (-1074)).
  assert (He : 2 ^ e <= Qabs q).
  { rewrite Ha. unfold e. destruct (Z.max_spec (Double.ilog2 (Qabs q) - 52) (-1074))
      as [[_ ->] | [_ ->]]; [exact Hmin |].
    apply Qle_trans with (2 ^ Double.ilog2 (Qabs q)).
    - apply pow2_le. lia.
    - rewrite <- Ha at 2. apply ilog2_lower. rewrite Ha. exact Hq. }
  pose proof (pow2_pos e) as Hp.
  assert (H1 : 1 <= Qabs q / 2 ^ e) by (apply Qle_shift_div_l; lra).
  assert (Hf : (1 <= Qfloor (Qabs q / 2 ^ e))%Z).
  { change 1%Z with (Qfloor 1). apply Qfloor_resp_le. exact H1. }
  pose proof (nearestEven_floor (Qabs q / 2 ^ e)) as Hn.
  apply Qmult_lt_0_compat; [| exact Hp].
  change 0 with (inject_Z 0). rewrite <- Zlt_Qlt. lia.
Qed.

(** Well-known binary64 values: 0.1, and the quotient 1/3. *)
Example double_one_tenth :
  Double.round 0.1 == 3602879701896397 # 36028797018963968.
Proof. vm_compute. reflexivity. Qed.

Example double_one_third :
  Double.div 1 3 == 6004799503160661 # 18014398509481984.
Proof. vm_compute. reflexivity. Qed.

(** Ties go to the even significand: 2^53 + 1 is rounded down. *)
Example double_ties_to_even :
  Double.round (inject_Z (2 ^ 53 + 1)) == inject_Z (2 ^ 53).
Proof. vm_compute. reflexivity. Qed.

(** The drift of a cursor advanced in binary64.  At 150 BPM the grid step
    is the binary64 number nearest to 0.1; sixteen additions from 10 end
    at 11.599999999999994, short of the bar line 11.6, and a pass of the
    scheduler at that cursor looks at bar 0. *)
Example binary64_cursor_drift :
  fold_left (fun t _ => Double.add t (Double.div (Double.div 60 150) 4))
    (seq 0 16) 10
  == 408138716230451 # 35184372088832
  /\ 408138716230451 # 35184372088832 < 11.6
  /\ barIndexOf (408138716230451 # 35184372088832)
       (set_sequenceStartTime 10 (set_bpm 150 (withAudio initialPlayer)))
     = 0%Z.
Proof. split; [| split]; vm_compute; reflexivity. Qed.

(** ** Tap tempo *)

Lemma fold_tapIntervals l : forall a b acc,
  last (a :: l) = Some b ->
  fold_left Z.add (tapIntervals (a :: l)) acc = (acc + (b - a))%Z.
Proof.
  induction l as [|x l IH]; intros a b acc H.
  - cbn in H. injection H as <-. cbn. lia.
  - change (tapIntervals (a :: x :: l)) with ((x - a)%Z :: tapIntervals (x :: l)).
    cbn [fold_left].
    change (last (a :: x :: l)) with (last (x :: l)) in H.
    rewrite (IH x b _ H). lia.
Qed.

Lemma length_tapIntervals l : length (tapIntervals l) = (length l - 1)%nat.
Proof.
  induction l as [|a l IH]; [reflexivity |].
  destruct l as [|b l]; [reflexivity |].
  change (tapIntervals (a :: b :: l)) with ((b - a)%Z :: tapIntervals (b :: l)).
  cbn [length] in *. rewrite IH. lia.
Qed.

Lemma handleTapTempo_taps now taps s :
  fst (handleTapTempo now taps s) = tapsAfter now taps.
Proof.
  unfold handleTapTempo, tapsAfter. cbv zeta.
  destruct (4 <? length (taps ++ [now]))%nat;
    destruct (2 <=? _)%nat; try reflexivity;
    destruct (negb _); reflexivity.
Qed.

Lemma tapsAfter_length now taps :
  (length taps <= 4)%nat ->
  length (tapsAfter now taps) = Nat.min 4 (S (length taps))
  /\ last (tapsAfter now taps) = Some now.
Proof.
  intros H. unfold tapsAfter. rewrite length_app. cbn [length].
  destruct (4 <? length taps + 1)%nat eqn:E.
  - apply Nat.ltb_lt in E. destruct taps as [|a taps]; [cbn in E; lia |].
    cbn [app tail length] in *. rewrite length_app. cbn [length].
    split; [| rewrite last_app; reflexivity].
    destruct (Nat.min_spec 4 (S (S (length taps)))) as [[? ->]|[? ->]]. all: lia.
  - apply Nat.ltb_ge in E. split; [| rewrite last_app; reflexivity].
    rewrite length_app. cbn [length].
    destruct (Nat.min_spec 4 (S (length taps))) as [[? ->]|[? ->]]; lia.
Qed.

(** The mean gap of taps that span a positive time is positive. *)
Lemma avgInterval_pos (span gaps : Z) :
  (1 <= span)%Z -> (1 <= gaps <= 3)%Z ->
  0 < Double.div (inject_Z span) (inject_Z gaps).
Proof.
  intros Hs Hg. unfold Double.div.
  assert (H1 : 1 <= inject_Z span) by (change 1 with (inject_Z 1); rewrite <- Zle_Qle; exact Hs).
  assert (H2 : 1 <= inject_Z gaps)
    by (change 1 with (inject_Z 1); rewrite <- Zle_Qle; lia).
  assert (H3 : inject_Z gaps <= 3)
    by (change 3 with (inject_Z 3); rewrite <- Zle_Qle; lia).
  assert (Hq : 1 # 4 <= inject_Z span / inject_Z gaps)
    by (apply Qle_shift_div_l; lra).
  apply round_pos; [lra |].
  apply Qle_trans with (2 ^ (-2)); [apply pow2_le; lia |].
  assert (E : 2 ^ (-2) == 1 # 4) by reflexivity. rewrite E. exact Hq.
Qed.

Lemma tapTempo_bpm now taps s a b :
  (length (tapsAfter now taps) <= 4)%nat ->
  head (tapsAfter now taps) = Some a -> last (tapsAfter now taps) = Some b ->
  (a < b)%Z ->
  bpm (snd (handleTapTempo now taps s))
  == Qmax MIN_BPM
       (Qmin MAX_BPM
          (inject_Z
             (JS.round
                (Double.div 60000
                   (Double.div (inject_Z (b - a))
                      (inject_Z (Z.of_nat (length (tapsAfter now taps) - 1)))))))).
Proof.
  intros Hn Hh Hl Hab. unfold handleTapTempo. cbv zeta. fold (tapsAfter now taps).
  destruct (tapsAfter now taps) as [|x l] eqn:E; [discriminate |].
  cbn in Hh. injection Hh as ->.
  destruct l as [|y l]; [cbn in Hl; injection Hl as ->; lia |].
  replace (2 <=? length (a :: y :: l))%nat with true by reflexivity.
  rewrite length_tapIntervals. unfold sumZ.
  rewrite (fold_tapIntervals _ _ _ 0%Z Hl). rewrite Z.add_0_l.
  assert (Hpos : 0 < Double.div (inject_Z (b - a))
                       (inject_Z (Z.of_nat (length (a :: y :: l) - 1)))).
  { apply avgInterval_pos; [lia |]. cbn [length] in *. lia. }
  destruct (Qeq_bool (Double.div _ _) 0) eqn:Z0;
    [apply Qeq_bool_eq in Z0; rewrite Z0 in Hpos; discriminate Hpos |].
  destruct (negb _) eqn:N.
  - cbn [snd]. destruct (hasRecordedSequence _); [rewrite bpm_recalculateSequenceTiming |]; reflexivity.
  - cbn [snd]. apply negb_false_iff, Qeq_bool_iff in N. symmetry. exact N.
Qed.

Lemma no_events_rescaled (R : Event -> Event -> Prop) seq :
  existsb (fun bar : list Event => (0 <? length bar)%nat) seq = false ->
  Forall2 (Forall2 R) seq seq.
Proof.
  induction seq as [|bar seq IH]; cbn [existsb]; intros H; constructor.
  - apply orb_false_iff in H as [H _]. destruct bar; [constructor | discriminate].
  - apply IH. apply orb_false_iff in H as [_ H]. exact H.
Qed.

Lemma tapTempo_sequence now taps s :
  ~ bpm (snd (handleTapTempo now taps s)) == 0 ->
  Forall2 (Forall2 (Rescaled (bpm s / bpm (snd (handleTapTempo now taps s)))))
    (sequence s) (sequence (snd (handleTapTempo now taps s))).
Proof.
  unfold handleTapTempo. cbv zeta.
  destruct (2 <=? _)%nat.
  2:{ cbn [snd]. intros Hn. apply Forall2_same. intros bar. apply Forall2_same.
      intros e. apply Rescaled_one. field. exact Hn. }
  set (c := match (if Qeq_bool _ 0 then None else Some _) with
            | Some v => Qmax MIN_BPM (Qmin MAX_BPM v)
            | None => MAX_BPM
            end).
  destruct (negb _).
  2:{ cbn [snd]. intros Hn. apply Forall2_same. intros bar. apply Forall2_same.
      intros e. apply Rescaled_one. field. exact Hn. }
  cbn [snd].
  destruct (hasRecordedSequence _) eqn:E.
  - rewrite bpm_recalculateSequenceTiming. intros Hn.
    exact (recalculate_rescales (bpm s) c (set_bpm c s) Hn).
  - intros _. apply (no_events_rescaled _ (sequence s)). exact E.
Qed.

(** X18.  A tap that leaves at least two taps [a < ... < now] in the list
    sets the tempo to [Math.round(60000 / avgInterval)] clamped to
    [MIN_BPM, MAX_BPM], where the mean gap [avgInterval] telescopes to the
    span [now - a] over the number of gaps and both divisions are binary64
    divisions; the list never holds more than four taps; recorded events
    keep their musical position. *)
Theorem tap_tempo_from_span (now : Z) (taps : list Z) (s : Player) (a : Z) :
  (length taps <= 4)%nat ->
  head (tapsAfter now taps) = Some a -> (a < now)%Z ->
  let r := handleTapTempo now taps s in
  fst r = tapsAfter now taps
  /\ length (fst r) = Nat.min 4 (S (length taps))
  /\ bpm (snd r)
     == Qmax MIN_BPM
          (Qmin MAX_BPM
             (inject_Z
                (JS.round
                   (Double.div 60000
                      (Double.div (inject_Z (now - a))
                         (inject_Z (Z.of_nat (length (fst r) - 1))))))))
  /\ MIN_BPM <= bpm (snd r) <= MAX_BPM
  /\ Forall2 (Forall2 (Rescaled (bpm s / bpm (snd r))))
       (sequence s) (sequence (snd r)).
Proof.
  intros Hlen Hh Hab r. subst r.
  destruct (tapsAfter_length now taps Hlen) as [Hl Hlast].
  assert (Hn : (length (tapsAfter now taps) <= 4)%nat).
  { rewrite Hl. apply Nat.le_min_l. }
  pose proof (tapTempo_bpm now taps s a now Hn Hh Hlast Hab) as Hb.
  rewrite handleTapTempo_taps.
  split; [reflexivity |]. split; [exact Hl |]. split; [exact Hb |].
  assert (Hr : MIN_BPM <= bpm (snd (handleTapTempo now taps s)) <= MAX_BPM).
  { rewrite Hb. apply clamp_range. }
  split; [exact Hr |].
  apply tapTempo_sequence. unfold MIN_BPM in Hr. lra.
Qed.

(** Taps at 0, 533, 1066 and 1600 ms: the mean gap is the binary64 number
    nearest to 1600/3, and 60000 over it is just below 112.5, so that the
    tempo is 112. *)
Lemma tap_tempo_from_span_witness :
  bpm (snd (handleTapTempo 1600 [0; 533; 1066]%Z (withAudio initialPlayer))) == 112.
Proof.
  destruct (tap_tempo_from_span 1600 [0; 533; 1066]%Z (withAudio initialPlayer) 0%Z)
    as (_ & _ & H & _).
  - cbn. lia.
  - reflexivity.
  - lia.
  - rewrite H. vm_compute. reflexivity.
Defined.

(** Two taps in the same millisecond: the mean gap is 0, the quotient is
    [Infinity], and the tempo goes to [MAX_BPM]. *)
Example tap_same_millisecond :
  bpm (snd (handleTapTempo 5 [5%Z] (withAudio initialPlayer))) == MAX_BPM.
Proof. vm_compute. reflexivity. Qed.

(** ** End of a take *)

Lemma barAdvanceTicks_snoc n : forall t b now s,
  barAdvanceTicks (S n) t b now s
  = barAdvanceTick (fst (fst (barAdvanceTicks n t b now s)))
      (snd (fst (barAdvanceTicks n t b now s))) now
      (snd (barAdvanceTicks n t b now s)).
Proof.
  induction n as [|n IH]; intros t b now s.
  - cbn [barAdvanceTicks fst snd]. destruct (barAdvanceTick t b now s) as [[t1 b1] s1].
    reflexivity.
  - change (barAdvanceTicks (S (S n)) t b now s)
      with (let '(t1, b1, s1) := barAdvanceTick t b now s in
            barAdvanceTicks (S n) t1 b1 now s1).
    change (barAdvanceTicks (S n) t b now s)
      with (let '(t1, b1, s1) := barAdvanceTick t b now s in
            barAdvanceTicks n t1 b1 now s1).
    destruct (barAdvanceTick t b now s) as [[t1 b1] s1]. apply IH.
Qed.

(** While fewer than four bars have been counted, a tick keeps recording. *)
Lemma barAdvanceTick_counting t b now s :
  isRecording s = true -> (0 <= t)%Z -> (t + 1 < 16)%Z ->
  b = (t / 4)%Z -> currentBar s = (t / 4)%Z ->
  let r := barAdvanceTick t b now s in
  fst (fst r) = (t + 1)%Z /\ snd (fst r) = ((t + 1) / 4)%Z
  /\ isRecording (snd r) = true /\ currentBar (snd r) = ((t + 1) / 4)%Z
  /\ currentBeat (snd r) = ((t + 1) mod 4 + 1)%Z
  /\ sequence (snd r) = sequence s /\ isPlaying (snd r) = isPlaying s
  /\ schedulerTimer (snd r) = schedulerTimer s
  /\ metronomeInterval (snd r) = metronomeInterval s
  /\ nextTimerId (snd r) = nextTimerId s.
Proof.
  intros Hr Ht Hlt Hb Hcb. unfold barAdvanceTick. rewrite Hr. cbv zeta.
  unfold BEATS_PER_BAR, BAR_COUNT. fields.
  rewrite Z.rem_mod_nonneg by lia.
  rewrite floor_div_Z.
  destruct (Z.eqb_spec ((t + 1) mod 4 + 1) 1) as [E | E].
  - assert (Hq : ((t + 1) / 4 = t / 4 + 1)%Z).
    { pose proof (Z.div_mod (t + 1) 4 ltac:(lia)).
      pose proof (Z.div_mod t 4 ltac:(lia)).
      pose proof (Z.mod_pos_bound t 4 ltac:(lia)). lia. }
    assert (Hq16 : (0 <= (t + 1) / 4 < 4)%Z).
    { split; [apply Z.div_pos; lia | apply Z.div_lt_upper_bound; lia]. }
    rewrite Z.rem_mod_nonneg by lia. rewrite Z.mod_small by lia.
    destruct (Z.leb_spec 4 (b + 1)) as [L | L]; [lia |].
    cbn [fst snd]. fields. repeat split; try assumption; try reflexivity; try lia.
  - assert (Hq : ((t + 1) / 4 = t / 4)%Z).
    { pose proof (Z.div_mod (t + 1) 4 ltac:(lia)).
      pose proof (Z.div_mod t 4 ltac:(lia)).
      pose proof (Z.mod_pos_bound t 4 ltac:(lia)).
      pose proof (Z.mod_pos_bound (t + 1) 4 ltac:(lia)). lia. }
    cbn [fst snd]. fields. repeat split; try assumption; try reflexivity; try lia.
Qed.

Lemma barAdvanceTicks_counting n now s :
  isRecording s = true -> currentBar s = 0%Z -> (n < 16)%nat ->
  let r := barAdvanceTicks n 0 0 now s in
  fst (fst r) = Z.of_nat n /\ snd (fst r) = (Z.of_nat n / 4)%Z
  /\ isRecording (snd r) = true /\ currentBar (snd r) = (Z.of_nat n / 4)%Z
  /\ (0 < n -> currentBeat (snd r) = (Z.of_nat n mod 4 + 1)%Z)%nat
  /\ sequence (snd r) = sequence s /\ isPlaying (snd r) = isPlaying s
  /\ schedulerTimer (snd r) = schedulerTimer s
  /\ metronomeInterval (snd r) = metronomeInterval s
  /\ nextTimerId (snd r) = nextTimerId s.
Proof.
  intros Hr Hcb. induction n as [|n IH]; intros Hn r; subst r.
  - cbn [barAdvanceTicks fst snd]. repeat split; try assumption; try reflexivity. lia.
  - rewrite barAdvanceTicks_snoc.
    destruct IH as (Ht & Hb & Hr' & Hcb' & _ & Hs & Hp & Hst & Hm & Hid); [lia |].
    rewrite Ht, Hb.
    destruct (barAdvanceTick_counting (Z.of_nat n) (Z.of_nat n / 4) now
                (snd (barAdvanceTicks n 0 0 now s)) Hr' ltac:(lia) ltac:(lia)
                eq_refl Hcb')
      as (A1 & A2 & A3 & A4 & A5 & A6 & A7 & A8 & A9 & A10).
    replace (Z.of_nat (S n)) with (Z.of_nat n + 1)%Z by lia.
    repeat split; try congruence.
Qed.

Lemma stopMetronome_fields s :
  metronomeInterval (stopMetronome s) = None
  /\ isRecording (stopMetronome s) = isRecording s
  /\ isPlaying (stopMetronome s) = isPlaying s
  /\ sequence (stopMetronome s) = sequence s
  /\ nextTimerId (stopMetronome s) = nextTimerId s
  /\ beatInterval (stopMetronome s) = beatInterval s.
Proof. destruct_player s. destruct mi; repeat split; reflexivity. Qed.

Lemma barAdvanceTick_last now s :
  isRecording s = true ->
  barAdvanceTick 15 3 now s
  = (16%Z, 4%Z, takeEnded now s).
Proof.
  intros Hr. unfold barAdvanceTick. rewrite Hr. cbv zeta.
  unfold BEATS_PER_BAR, BAR_COUNT. fields. rewrite floor_div_Z. reflexivity.
Qed.

Lemma takeEnded_fields now s :
  isRecording (takeEnded now s) = false
  /\ isPlaying (takeEnded now s) = true
  /\ metronomeInterval (takeEnded now s) = None
  /\ schedulerTimer (takeEnded now s) = Some (nextTimerId s)
  /\ sequenceStartTime (takeEnded now s) = now + 0.05
  /\ currentBar (takeEnded now s) = 0%Z
  /\ currentBeat (takeEnded now s) = 1%Z
  /\ sequence (takeEnded now s) = sequence s.
Proof. destruct_player s. destruct mi; repeat split; reflexivity. Qed.

Lemma takeEnded_stopTimers now s :
  beatInterval (stopTimers (takeEnded now s)) = None
  /\ isPlaying (stopTimers (takeEnded now s)) = true
  /\ schedulerTimer (stopTimers (takeEnded now s)) = Some (nextTimerId s)
  /\ sequence (stopTimers (takeEnded now s)) = sequence s.
Proof. destruct_player s. destruct mi, bi, bai; repeat split; reflexivity. Qed.

(** X19.  Counting beats from the start of a take, the interval callback of
    [startBarAdvancement] keeps the player recording for fifteen ticks,
    showing bar [n / 4]; the sixteenth ends the take, stops the metronome
    and starts playback of what was recorded; the seventeenth finds the
    player no longer recording and clears the remaining transport timers,
    its own included, leaving the scheduler running. *)
Theorem recording_ends_after_four_bars (now : Q) (s : Player) :
  isRecording s = true -> currentBar s = 0%Z ->
  (forall n, (n < 16)%nat ->
     isRecording (snd (barAdvanceTicks n 0 0 now s)) = true
     /\ currentBar (snd (barAdvanceTicks n 0 0 now s)) = (Z.of_nat n / 4)%Z
     /\ sequence (snd (barAdvanceTicks n 0 0 now s)) = sequence s
     /\ schedulerTimer (snd (barAdvanceTicks n 0 0 now s)) = schedulerTimer s)
  /\ (isRecording (snd (barAdvanceTicks 16 0 0 now s)) = false
      /\ isPlaying (snd (barAdvanceTicks 16 0 0 now s)) = true
      /\ metronomeInterval (snd (barAdvanceTicks 16 0 0 now s)) = None
      /\ schedulerTimer (snd (barAdvanceTicks 16 0 0 now s)) = Some (nextTimerId s)
      /\ sequenceStartTime (snd (barAdvanceTicks 16 0 0 now s)) = now + 0.05
      /\ currentBar (snd (barAdvanceTicks 16 0 0 now s)) = 0%Z
      /\ currentBeat (snd (barAdvanceTicks 16 0 0 now s)) = 1%Z
      /\ sequence (snd (barAdvanceTicks 16 0 0 now s)) = sequence s)
  /\ (beatInterval (snd (barAdvanceTicks 17 0 0 now s)) = None
      /\ isPlaying (snd (barAdvanceTicks 17 0 0 now s)) = true
      /\ schedulerTimer (snd (barAdvanceTicks 17 0 0 now s)) = Some (nextTimerId s)
      /\ sequence (snd (barAdvanceTicks 17 0 0 now s)) = sequence s).
Proof.
  intros Hr Hcb.
  destruct (barAdvanceTicks_counting 15 now s Hr Hcb ltac:(lia))
    as (Ht & Hb & Hr' & _ & _ & Hs & _ & _ & _ & Hid).
  assert (H16 : barAdvanceTicks 16 0 0 now s
                = (16%Z, 4%Z, takeEnded now (snd (barAdvanceTicks 15 0 0 now s)))).
  { rewrite barAdvanceTicks_snoc. rewrite Ht, Hb.
    exact (barAdvanceTick_last now _ Hr'). }
  destruct (takeEnded_fields now (snd (barAdvanceTicks 15 0 0 now s)))
    as (E1 & E2 & E3 & E4 & E5 & E6 & E7 & E8).
  destruct (takeEnded_stopTimers now (snd (barAdvanceTicks 15 0 0 now s)))
    as (T1 & T2 & T3 & T4).
  split; [| split].
  - intros n Hn.
    destruct (barAdvanceTicks_counting n now s Hr Hcb Hn)
      as (_ & _ & A & B & _ & C & _ & D & _).
    repeat split; assumption.
  - rewrite H16. cbn [snd]. rewrite E4, E8, Hid, Hs. repeat split; assumption.
  - rewrite barAdvanceTicks_snoc, H16. cbn [fst snd].
    unfold barAdvanceTick. rewrite E1. cbn [snd].
    rewrite T3, T4, Hid, Hs. repeat split; assumption.
Qed.

Lemma recording_ends_after_four_bars_witness :
  isPlaying (snd (barAdvanceTicks 16 0 0 1 recording)) = true.
Proof.
  assert (Hr : isRecording recording = true) by (vm_compute; reflexivity).
  assert (Hcb : currentBar recording = 0%Z) by (vm_compute; reflexivity).
  destruct (recording_ends_after_four_bars 1 recording Hr Hcb) as (_ & (_ & H & _) & _).
  exact H.
Defined.

(** ** Count-in *)

(** Firing the timeout that was registered last, once it is due. *)
Lemma fire_appended now pend due a s :
  timeouts s = pend ++ [(due, a)] -> (due <= clock s)%Z ->
  fireTimeout (length pend) now s = Some (runTimeout now a (set_timeouts pend s)).
Proof.
  intros Ht Hd. unfold fireTimeout. rewrite Ht.
  rewrite list_lookup_middle by reflexivity.
  destruct (Z.leb_spec due (clock s)); [| lia].
  rewrite delete_middle, app_nil_r. reflexivity.
Qed.

Lemma preCount_pending r ms now s :
  (0 < r)%Z ->
  preCount r ms now s = setTimeout (JS.trunc ms) (PreCount (r - 1) ms) s.
Proof.
  intros H. unfold preCount. destruct (Z.ltb_spec 0 r); [reflexivity | lia].
Qed.

(** One beat of the count-in: the beat passes and the pending [preCount]
    runs, leaving the next one pending. *)
Lemma countIn_beat now pend r ms s :
  (0 < r)%Z ->
  timeouts s = pend ++ [((clock s + JS.trunc ms)%Z, PreCount r ms)] ->
  exists s',
    fireTimeout (length pend) now (elapse (JS.trunc ms) s) = Some s'
    /\ timeouts s' = pend ++ [((clock s' + JS.trunc ms)%Z, PreCount (r - 1) ms)]
    /\ clock s' = (clock s + JS.trunc ms)%Z
    /\ nextTimerId s' = nextTimerId s
    /\ beatInterval s' = beatInterval s
    /\ sequenceStartTime s' = sequenceStartTime s
    /\ isOverdubbing s' = isOverdubbing s
    /\ isRecording s' = isRecording s
    /\ metronomeInterval s' = metronomeInterval s.
Proof.
  intros Hr Ht. eexists. split.
  - apply (fire_appended now pend (clock s + JS.trunc ms)%Z (PreCount r ms)).
    + destruct_player s. exact Ht.
    + destruct_player s. cbn. lia.
  - cbn [runTimeout]. rewrite preCount_pending by exact Hr.
    destruct_player s. repeat split; reflexivity.
Qed.

Lemma startPrecount_pending now s :
  startPrecount now s
  = setTimeout (JS.trunc (60 / bpm s * 1000)) (PreCount 3 (60 / bpm s * 1000))
      (startMetronome s).
Proof.
  unfold startPrecount. cbv zeta.
  change (PRE_COUNT_BARS * BEATS_PER_BAR)%Z with 4%Z.
  rewrite preCount_pending by lia.
  destruct_player s. destruct mi; reflexivity.
Qed.

Lemma startMetronome_fields s :
  metronomeInterval (startMetronome s) = Some (nextTimerId s)
  /\ nextTimerId (startMetronome s) = S (nextTimerId s)
  /\ timeouts (startMetronome s) = timeouts s
  /\ clock (startMetronome s) = clock s
  /\ beatInterval (startMetronome s) = beatInterval s
  /\ sequenceStartTime (startMetronome s) = sequenceStartTime s
  /\ isOverdubbing (startMetronome s) = isOverdubbing s
  /\ isRecording (startMetronome s) = isRecording s
  /\ sequence (startMetronome s) = sequence s.
Proof. destruct_player s. destruct mi; repeat split; reflexivity. Qed.

Lemma countIn_last now pend ms s :
  timeouts s = pend ++ [((clock s + JS.trunc ms)%Z, PreCount 0 ms)] ->
  exists s',
    fireTimeout (length pend) now (elapse (JS.trunc ms) s) = Some s'
    /\ timeouts s' = pend
    /\ clock s' = (clock s + JS.trunc ms)%Z
    /\ beatInterval s' = Some (nextTimerId s)
    /\ sequenceStartTime s'
       = (if isOverdubbing s then sequenceStartTime s else now)
    /\ isRecording s' = isRecording s
    /\ metronomeInterval s' = metronomeInterval s.
Proof.
  intros Ht. eexists. split.
  - apply (fire_appended now pend (clock s + JS.trunc ms)%Z (PreCount 0 ms)).
    + destruct_player s. exact Ht.
    + destruct_player s. cbn. lia.
  - cbn [runTimeout]. unfold preCount. cbn [Z.ltb Z.compare].
    destruct_player s. destruct io, bi; repeat split; reflexivity.
Qed.

(** X20.  The count-in is a chain of four timeouts one beat apart.  Until the
    fourth has run, no bar counter is installed and the origin of the take
    is untouched; the fourth installs the bar counter and, unless the take
    is an overdub, sets the origin to the time at which it runs.  The chain
    leaves the other pending timeouts as they were. *)
Theorem count_in_lasts_four_beats (s : Player) (now n1 n2 n3 n4 : Q) :
  let d := JS.trunc (60 / bpm s * 1000) in
  let beat := fun n x => fireTimeout (length (timeouts s)) n (elapse d x) in
  exists s3 s4,
    (beat n1 (startPrecount now s) ≫= beat n2) ≫= beat n3 = Some s3
    /\ beat n4 s3 = Some s4
    /\ beatInterval s3 = beatInterval s
    /\ sequenceStartTime s3 = sequenceStartTime s
    /\ beatInterval s4 = Some (S (nextTimerId s))
    /\ sequenceStartTime s4 = (if isOverdubbing s then sequenceStartTime s else n4)
    /\ metronomeInterval s4 = Some (nextTimerId s)
    /\ timeouts s4 = timeouts s
    /\ clock s4 = (clock s + 4 * d)%Z.
Proof.
  intros d beat. subst beat. cbv beta.
  set (ms := 60 / bpm s * 1000) in *.
  destruct (startMetronome_fields s) as (M1 & M2 & M3 & M4 & M5 & M6 & M7 & M8 & M9).
  assert (H0 : timeouts (startPrecount now s)
               = timeouts s ++ [((clock (startPrecount now s) + d)%Z, PreCount 3 ms)]).
  { rewrite startPrecount_pending. fold ms. fold d.
    rewrite timeouts_setTimeout, clock_setTimeout, M3, M4. reflexivity. }
  assert (F0 : clock (startPrecount now s) = clock s
               /\ nextTimerId (startPrecount now s) = S (nextTimerId s)
               /\ beatInterval (startPrecount now s) = beatInterval s
               /\ sequenceStartTime (startPrecount now s) = sequenceStartTime s
               /\ isOverdubbing (startPrecount now s) = isOverdubbing s
               /\ metronomeInterval (startPrecount now s) = Some (nextTimerId s)).
  { rewrite startPrecount_pending. fold ms. fold d.
    rewrite clock_setTimeout, M4.
    destruct_player s. destruct mi; repeat split; reflexivity. }
  destruct F0 as (C0 & N0 & B0 & Q0 & O0 & E0).
  destruct (countIn_beat n1 (timeouts s) 3 ms _ ltac:(lia) H0)
    as (s1 & F1 & H1 & C1 & N1 & B1 & Q1 & O1 & _ & E1).
  destruct (countIn_beat n2 (timeouts s) 2 ms s1 ltac:(lia) H1)
    as (s2 & F2 & H2 & C2 & N2 & B2 & Q2 & O2 & _ & E2).
  destruct (countIn_beat n3 (timeouts s) 1 ms s2 ltac:(lia) H2)
    as (s3 & F3 & H3 & C3 & N3 & B3 & Q3 & O3 & _ & E3).
  destruct (countIn_last n4 (timeouts s) ms s3 H3)
    as (s4 & F4 & H4 & C4 & B4 & Q4 & _ & E4).
  exists s3, s4. fold d in F1, F2, F3, F4, C1, C2, C3, C4.
  split. { rewrite F1. cbn [mbind option_bind]. rewrite F2. cbn [mbind option_bind]. exact F3. }
  split; [exact F4 |].
  split; [congruence |]. split; [congruence |].
  split; [congruence |].
  split. { rewrite Q4, O3, O2, O1, O0. destruct (isOverdubbing s); congruence. }
  split; [congruence |]. split; [exact H4 |]. lia.
Qed.

(** ** Overdub and the transport buttons *)

Lemma startOverdub_fields now s :
  audioContext s = true -> hasRecordedSequence s = true ->
  isRecording (startOverdub now s) = true
  /\ isOverdubbing (startOverdub now s) = true
  /\ isPlaying (startOverdub now s) = false
  /\ overdubStartTime (startOverdub now s) = now
  /\ currentBar (startOverdub now s) = 0%Z
  /\ sequence (startOverdub now s) = sequence s
  /\ bpm (startOverdub now s) = bpm s
  /\ quantizeMode (startOverdub now s) = quantizeMode s
  /\ schedulerTimer (startOverdub now s) = schedulerTimer s.
Proof.
  intros Ha Hs. unfold startOverdub. rewrite Ha, Hs. cbn [negb].
  destruct_player s. destruct ip, mi; repeat split; reflexivity.
Qed.

Lemma hasRecorded_first_bar s :
  hasRecordedSequence s = true -> exists bar, barAt 0 (sequence s) = Some bar.
Proof.
  unfold hasRecordedSequence, barAt. destruct (sequence s) as [|bar seq].
  - discriminate.
  - intros _. exists bar. reflexivity.
Qed.

(** X21.  Overdubbing keeps what was recorded: [startOverdub] leaves the sequence
    as it is and measures from the moment it is called; a pad hit during
    the take is appended to bar 0, flagged as overdubbed, with its time
    taken from that moment modulo one bar. *)
Theorem overdub_adds_to_sequence (s : Player) (now t : Q) (p : Z) :
  audioContext s = true -> hasRecordedSequence s = true ->
  sequence (startOverdub now s) = sequence s
  /\ recordingOrigin (startOverdub now s) = now
  /\ exists s' bar e,
       recordPadEvent p t (startOverdub now s) = Some s'
       /\ barAt 0 (sequence s) = Some bar
       /\ sequence s' = <[0%nat := bar ++ [e]]> (sequence s)
       /\ pad e = p /\ overdubbed e = true
       /\ originalTime e = Some (JS.rem (t - now) (barDuration s)).
Proof.
  intros Ha Hs.
  destruct (startOverdub_fields now s Ha Hs)
    as (F1 & F2 & F3 & F4 & F5 & F6 & F7 & F8 & F9).
  split; [exact F6 |]. split.
  { unfold recordingOrigin. rewrite F2. exact F4. }
  destruct (hasRecorded_first_bar s Hs) as (bar & Hbar).
  pose proof (recordPadEvent_appends p t (startOverdub now s)) as A.
  destruct (recordPadEvent p t (startOverdub now s)) as [s' |].
  - destruct A as (bar' & e & Hb & -> & Hp & _ & _ & Ho & Hr & _).
    rewrite F5, F6 in Hb. rewrite Hbar in Hb. injection Hb as <-.
    exists (set_sequence (<[Z.to_nat (currentBar (startOverdub now s)) := bar ++ [e]]>
                            (sequence (startOverdub now s))) (startOverdub now s)), bar, e.
    split; [reflexivity |]. split; [exact Hbar |]. split.
    { cbn [sequence set_sequence]. rewrite F5, F6. reflexivity. }
    split; [exact Hp |]. split; [rewrite Ho; exact F2 |].
    rewrite Hr. unfold recordingOrigin, barDuration. rewrite F2, F4, F7. reflexivity.
  - exfalso. rewrite F5, F6 in A. apply barAt_Some in Hbar as (_ & Hl).
    apply lookup_lt_Some in Hl. cbn in Hl. destruct A as [A | A]; lia.
Qed.

Lemma overdub_adds_to_sequence_witness :
  sequence (startOverdub 20 (playerWith [eventAt 0.5]))
  = sequence (playerWith [eventAt 0.5]).
Proof.
  apply (overdub_adds_to_sequence (playerWith [eventAt 0.5]) 20 21 3);
    vm_compute; reflexivity.
Defined.

Lemma stopRecording_fields s :
  isRecording (stopRecording s) = false
  /\ isOverdubbing (stopRecording s) = false
  /\ performanceMode (stopRecording s) = true
  /\ metronomeInterval (stopRecording s) = None
  /\ beatInterval (stopRecording s) = None
  /\ barAdvancementInterval (stopRecording s) = None
  /\ sequence (stopRecording s) = sequence s
  /\ isPlaying (stopRecording s) = isPlaying s
  /\ schedulerTimer (stopRecording s) = schedulerTimer s
  /\ timeouts (stopRecording s) = timeouts s
  /\ sequenceStartTime (stopRecording s) = sequenceStartTime s.
Proof.
  destruct_player s. destruct io, mi, bi, bai, pm; repeat split; reflexivity.
Qed.

Lemma toggleRecording_on now s :
  isRecording s = true -> toggleRecording now s = stopRecording s.
Proof. intros H. unfold toggleRecording. rewrite H. reflexivity. Qed.

Lemma toggleRecording_off now s :
  isRecording s = false -> toggleRecording now s = startRecording now s.
Proof. intros H. unfold toggleRecording. rewrite H. reflexivity. Qed.

Lemma toggleOverdub_on now s :
  isRecording s = true -> toggleOverdub now s = stopRecording s.
Proof. intros H. unfold toggleOverdub. rewrite H. reflexivity. Qed.

Lemma toggleOverdub_off now s :
  isRecording s = false -> toggleOverdub now s = startOverdub now s.
Proof. intros H. unfold toggleOverdub. rewrite H. reflexivity. Qed.

Lemma startRecording_fields (s : Player) (now : Q) :
  audioContext s = true ->
  isRecording (startRecording now s) = true
  /\ isPlaying (startRecording now s) = false
  /\ sequence (startRecording now s) = emptySequence
  /\ currentBar (startRecording now s) = 0%Z
  /\ currentBeat (startRecording now s) = 1%Z
  /\ sequenceStartTime (startRecording now s) = sequenceStartTime s
  /\ schedulerTimer (startRecording now s) = schedulerTimer s
  /\ metronomeInterval (startRecording now s) = Some (nextTimerId s)
  /\ timeouts (startRecording now s)
     = timeouts s ++ [((clock s + JS.trunc (60 / bpm s * 1000))%Z,
                       PreCount 3 (60 / bpm s * 1000))].
Proof.
  intros Ha. unfold startRecording. rewrite Ha. cbn [negb].
  destruct_player s. destruct ip, mi; repeat split; reflexivity.
Qed.


(** X22.  Pressing REC and then STOP does not bring an idle player back: the old
    sequence is gone, and the count-in started by the first press is still
    pending, although the player no longer records and its metronome has
    stopped. *)
Theorem toggle_twice_leaves_count_in (s : Player) (now now' : Q) :
  audioContext s = true -> isRecording s = false ->
  isRecording (toggleRecording now' (toggleRecording now s)) = false
  /\ sequence (toggleRecording now' (toggleRecording now s)) = emptySequence
  /\ metronomeInterval (toggleRecording now' (toggleRecording now s)) = None
  /\ isPlaying (toggleRecording now' (toggleRecording now s)) = false
  /\ schedulerTimer (toggleRecording now' (toggleRecording now s)) = schedulerTimer s
  /\ timeouts (toggleRecording now' (toggleRecording now s))
     = timeouts s ++ [((clock s + JS.trunc (60 / bpm s * 1000))%Z,
                       PreCount 3 (60 / bpm s * 1000))].
Proof.
  intros Ha Hr.
  rewrite (toggleRecording_off now s Hr).
  destruct (startRecording_fields s now Ha)
    as (R1 & R2 & R3 & _ & _ & _ & R7 & _ & R9).
  rewrite (toggleRecording_on now' _ R1).
  destruct (stopRecording_fields (startRecording now s))
    as (S1 & _ & _ & S4 & _ & _ & S7 & S8 & S9 & S10 & _).
  rewrite S7, S8, S9, S10, R2, R3, R7, R9. repeat split; assumption.
Qed.

Lemma toggle_twice_leaves_count_in_witness :
  sequence (toggleRecording 12 (toggleRecording 11 (playerWith [eventAt 0.5])))
  = emptySequence.
Proof.
  apply (toggle_twice_leaves_count_in (playerWith [eventAt 0.5]) 11 12);
    vm_compute; reflexivity.
Defined.

(** X23.  Pressing DUB and then STOP keeps the sequence, ends the overdub and
    leaves the count-in of the first press pending as well. *)
Theorem overdub_toggle_twice_keeps_sequence (s : Player) (now now' : Q) :
  audioContext s = true -> isRecording s = false ->
  hasRecordedSequence s = true ->
  isRecording (toggleOverdub now' (toggleOverdub now s)) = false
  /\ isOverdubbing (toggleOverdub now' (toggleOverdub now s)) = false
  /\ sequence (toggleOverdub now' (toggleOverdub now s)) = sequence s
  /\ timeouts (toggleOverdub now' (toggleOverdub now s))
     = timeouts s ++ [((clock s + JS.trunc (60 / bpm s * 1000))%Z,
                       PreCount 3 (60 / bpm s * 1000))].
Proof.
  intros Ha Hr Hs. rewrite (toggleOverdub_off now s Hr).
  destruct (startOverdub_fields now s Ha Hs) as (F1 & _ & _ & _ & _ & F6 & _).
  rewrite (toggleOverdub_on now' _ F1).
  destruct (stopRecording_fields (startOverdub now s))
    as (S1 & S2 & _ & _ & _ & _ & S7 & _ & _ & S10 & _).
  rewrite S7, S10, F6. repeat split; try assumption.
  unfold startOverdub. rewrite Ha, Hs. cbn [negb].
  rewrite startPrecount_pending.
  destruct_player s. destruct ip, mi; reflexivity.
Qed.

Lemma overdub_toggle_twice_keeps_sequence_witness :
  sequence (toggleOverdub 12 (toggleOverdub 11 (playerWith [eventAt 0.5])))
  = sequence (playerWith [eventAt 0.5]).
Proof.
  apply (overdub_toggle_twice_keeps_sequence (playerWith [eventAt 0.5]) 11 12);
    vm_compute; reflexivity.
Defined.

(** ** Pads for slices *)

Lemma allPads_range i : i ∈ allPads <-> (1 <= i <= 16)%Z.
Proof.
  unfold allPads. rewrite list_elem_of_fmap. split.
  - intros (n & -> & Hn). apply elem_of_seq in Hn. lia.
  - intros H. exists (Z.to_nat i). split; [lia |]. apply elem_of_seq. lia.
Qed.

Lemma allPads_NoDup : NoDup allPads.
Proof.
  unfold allPads. apply NoDup_fmap_2; [| apply NoDup_seq].
  intros x y H. lia.
Qed.

(** The pads offered for slices when the bank does not hold exactly one
    sample. *)
Lemma availablePads_spec sourcePad loaded i :
  size loaded <> 1%nat ->
  i ∈ findAvailablePadsForSlicing sourcePad loaded ->
  (1 <= i <= 16)%Z /\ i ∉ loaded /\ i <> sourcePad.
Proof.
  intros Hs. unfold findAvailablePadsForSlicing. cbv zeta.
  destruct (Nat.eqb_spec (size loaded) 1); [contradiction |].
  destruct (length _ =? 0)%nat.
  - rewrite list_elem_of_filter, allPads_range. intros ((H1 & H2) & H3). auto.
  - rewrite !list_elem_of_filter, allPads_range. intros (H1 & H2 & H3).
    repeat split; try assumption; lia.
Qed.

Lemma availablePads_NoDup sourcePad loaded :
  NoDup (findAvailablePadsForSlicing sourcePad loaded).
Proof.
  unfold findAvailablePadsForSlicing. cbv zeta.
  destruct (size loaded =? 1)%nat; [apply allPads_NoDup |].
  destruct (length _ =? 0)%nat; repeat apply NoDup_filter; apply allPads_NoDup.
Qed.

Lemma zip_fst_take {A B} (l : list A) (k : list B) :
  (zip l k).*1 = take (length k) l.
Proof.
  revert k. induction l as [|a l IH]; intros [|b k]; cbn; try reflexivity.
  f_equal. apply IH.
Qed.

Lemma zip_snd_take {A B} (l : list A) (k : list B) :
  (zip l k).*2 = take (length l) k.
Proof.
  revert k. induction l as [|a l IH]; intros [|b k]; cbn; try reflexivity.
  f_equal. apply IH.
Qed.

(** X24.  Slices go, in order, to the first pads that are available, one slice
    per pad, as long as there are pads; the slices beyond are dropped.
    Unless the bank holds exactly one sample, a target pad lies in 1..16,
    is empty and is not the source pad, so that no loaded sample is
    overwritten.  The pads offered when the dialog is prepared are the
    pads used. *)
Theorem distributeSlices_targets (slices : list Slice) (sourcePad : Z)
  (loaded : gset Z) :
  (1 <= sourcePad <= 16)%Z -> size loaded <> 1%nat ->
  (distributeSlices slices sourcePad loaded).*1
  = take (length slices) (calculateAvailablePadsForSlicing sourcePad loaded)
  /\ (distributeSlices slices sourcePad loaded).*2
     = take (length (calculateAvailablePadsForSlicing sourcePad loaded)) slices
  /\ NoDup (distributeSlices slices sourcePad loaded).*1
  /\ Forall (fun i => (1 <= i <= 16)%Z /\ i ∉ loaded /\ i <> sourcePad)
       (distributeSlices slices sourcePad loaded).*1.
Proof.
  intros _ Hs. unfold distributeSlices. cbv zeta.
  change (calculateAvailablePadsForSlicing sourcePad loaded)
    with (findAvailablePadsForSlicing sourcePad loaded).
  rewrite zip_fst_take, zip_snd_take.
  split; [reflexivity |]. split; [reflexivity |]. split.
  - pose proof (availablePads_NoDup sourcePad loaded) as H.
    rewrite <- (take_drop (length slices)) in H.
    apply NoDup_app in H as [H _]. exact H.
  - apply Forall_forall. intros i Hi.
    apply (availablePads_spec sourcePad loaded i Hs).
    apply elem_of_take in Hi as (j & Hj & _).
    apply list_elem_of_lookup. exists j. exact Hj.
Qed.

Lemma distributeSlices_targets_witness :
  (distributeSlices (createSlices 1000 44100 4) 2 {[1%Z; 2%Z; 4%Z]}).*1
  = take 4 (calculateAvailablePadsForSlicing 2 {[1%Z; 2%Z; 4%Z]}).
Proof.
  apply (distributeSlices_targets (createSlices 1000 44100 4) 2 {[1%Z; 2%Z; 4%Z]}).
  - lia.
  - vm_compute. discriminate.
Defined.

(** X25.  When the bank holds exactly one sample, all sixteen pads are offered,
    the loaded one and the source pad included: sixteen slices overwrite
    the sample they were cut from. *)
Theorem single_sample_slices_overwrite (slices : list Slice) (sourcePad p : Z)
  (loaded : gset Z) :
  size loaded = 1%nat -> p ∈ loaded -> (1 <= p <= 16)%Z ->
  (Z.to_nat p <= length slices)%nat ->
  (distributeSlices slices sourcePad loaded).*1 = take (length slices) allPads
  /\ p ∈ (distributeSlices slices sourcePad loaded).*1.
Proof.
  intros Hs Hp Hr Hl. unfold distributeSlices, findAvailablePadsForSlicing. cbv zeta.
  rewrite Hs. cbn [Nat.eqb]. rewrite zip_fst_take. split; [reflexivity |].
  apply list_elem_of_lookup. exists (Z.to_nat p - 1)%nat.
  rewrite lookup_take_lt by lia.
  unfold allPads. rewrite list_lookup_fmap, lookup_seq_lt by lia.
  cbn. f_equal. lia.
Qed.

Lemma single_sample_slices_overwrite_witness :
  5%Z ∈ (distributeSlices (createSlices 1600 44100 16) 5 {[5%Z]}).*1.
Proof.
  apply (single_sample_slices_overwrite (createSlices 1600 44100 16) 5 5 {[5%Z]}).
  - vm_compute. reflexivity.
  - apply elem_of_singleton. reflexivity.
  - lia.
  - vm_compute. lia.
Defined.

(** X26.  A free pad other than the source is never overlooked: pads after the
    source are taken first, and when none of them is free the search falls
    back to the free pads before it. *)
Theorem slicing_finds_any_free_pad (sourcePad i : Z) (loaded : gset Z) :
  (1 <= sourcePad <= 16)%Z -> size loaded <> 1%nat ->
  (1 <= i <= 16)%Z -> i ∉ loaded -> i <> sourcePad ->
  findAvailablePadsForSlicing sourcePad loaded <> []
  /\ ((sourcePad < i)%Z -> i ∈ findAvailablePadsForSlicing sourcePad loaded).
Proof.
  intros _ Hs Hi Hl Hne. unfold findAvailablePadsForSlicing. cbv zeta.
  destruct (Nat.eqb_spec (size loaded) 1); [contradiction |].
  assert (Hafter : (sourcePad < i)%Z ->
            i ∈ filter (fun i => i ∉ loaded)
                  (filter (fun i => (sourcePad + 1 <= i)%Z) allPads)).
  { intros H. rewrite !list_elem_of_filter, allPads_range.
    split; [exact Hl |]. split; [lia | exact Hi]. }
  destruct (length _ =? 0)%nat eqn:E.
  - apply Nat.eqb_eq, nil_length_inv in E. split.
    + intros H.
      assert (Hin : i ∈ filter (fun i => i <> sourcePad /\ i ∉ loaded) allPads).
      { apply list_elem_of_filter. split; [auto | apply allPads_range; exact Hi]. }
      rewrite H in Hin. inversion Hin.
    + intros H. specialize (Hafter H). rewrite E in Hafter. inversion Hafter.
  - split; [| exact Hafter]. intros H. rewrite H in E. discriminate.
Qed.

Lemma slicing_finds_any_free_pad_witness :
  findAvailablePadsForSlicing 16 {[1%Z; 16%Z]} <> [].
Proof.
  apply (slicing_finds_any_free_pad 16 3 {[1%Z; 16%Z]}).
  - lia.
  - vm_compute. discriminate.
  - lia.
  - set_solver.
  - lia.
Defined.

(** ** MIDI input *)

(** X27.  A note-on message triggers one of the pads 1..16: the note number
    modulo 16, plus one, so that notes an octave and a third apart (16
    semitones) share a pad; the channel is ignored.  Nothing else triggers
    a pad: note-off messages and note-on messages with velocity 0 are
    dropped. *)
Theorem midi_note_selects_pad (status note velocity : Z) :
  (0 <= note)%Z ->
  match onMIDIMessage status note velocity with
  | Some p =>
      (144 <= status <= 159)%Z /\ (0 < velocity)%Z
      /\ p = (note mod 16 + 1)%Z /\ (1 <= p <= 16)%Z
      /\ onMIDIMessage status (note + 16) velocity = Some p
      /\ midiChannel status = (status - 143)%Z
  | None => (status < 144)%Z \/ (159 < status)%Z \/ (velocity <= 0)%Z
  end.
Proof.
  intros Hn. unfold onMIDIMessage, midiChannel.
  destruct (Z.leb_spec 144 status) as [H1 | H1]; cbn [andb]; [| left; exact H1].
  destruct (Z.leb_spec status 159) as [H2 | H2]; cbn [andb]; [| right; left; exact H2].
  destruct (Z.ltb_spec 0 velocity) as [H3 | H3]; [| right; right; exact H3].
  rewrite !Z.rem_mod_nonneg by lia.
  pose proof (Z.mod_pos_bound note 16 ltac:(lia)).
  split; [lia |]. split; [exact H3 |]. split; [reflexivity |]. split; [lia |].
  split.
  - f_equal. f_equal. replace (note + 16)%Z with (note + 1 * 16)%Z by lia.
    apply Z_mod_plus_full.
  - change 15%Z with (Z.ones 4). rewrite Z.land_ones by lia.
    change (2 ^ 4)%Z with 16%Z.
    pose proof (Z.div_mod status 16 ltac:(lia)).
    pose proof (Z.mod_pos_bound status 16 ltac:(lia)). lia.
Qed.

Lemma midi_note_selects_pad_witness :
  onMIDIMessage 145 36 100 = Some 5%Z /\ onMIDIMessage 145 52 100 = Some 5%Z.
Proof.
  pose proof (midi_note_selects_pad 145 36 100 ltac:(lia)) as H.
  cbn in H. destruct H as (_ & _ & _ & _ & H & _).
  split; [reflexivity | exact H].
Defined.

(** ** Clearing, and tap expiry *)

Lemma scheduleStep_silent now s :
  hasRecordedSequence s = false ->
  playLog (scheduleStep now s) = playLog s
  /\ dispatchLog (scheduleStep now s) = dispatchLog s
  /\ sequence (scheduleStep now s) = sequence s
  /\ isPlaying (scheduleStep now s) = isPlaying s
  /\ schedulerTimer (scheduleStep now s) = schedulerTimer s
  /\ timeouts (scheduleStep now s) = timeouts s.
Proof.
  intros H. unfold scheduleStep. cbv zeta.
  destruct (barAt _ _) as [bar |] eqn:E; [| repeat split; reflexivity].
  assert (bar = []) as ->.
  { apply barAt_Some in E as (_ & E). unfold hasRecordedSequence in H.
    apply list_elem_of_lookup_2 in E.
    destruct bar as [|e bar]; [reflexivity |]. exfalso.
    assert (existsb (fun bar : list Event => (0 <? length bar)%nat) (sequence s) = true).
    { apply existsb_exists. exists (e :: bar). split; [| reflexivity].
      apply list_elem_of_In. exact E. }
    congruence. }
  cbn [fold_left]. repeat split; reflexivity.
Qed.

Lemma hasRecorded_same s s' :
  sequence s' = sequence s -> hasRecordedSequence s' = hasRecordedSequence s.
Proof. intros H. unfold hasRecordedSequence. rewrite H. reflexivity. Qed.

Lemma scheduleLoop_silent now : forall fuel s s',
  hasRecordedSequence s = false ->
  scheduleLoop fuel now s = Some s' ->
  playLog s' = playLog s /\ dispatchLog s' = dispatchLog s
  /\ sequence s' = sequence s /\ isPlaying s' = isPlaying s
  /\ schedulerTimer s' = schedulerTimer s /\ timeouts s' = timeouts s.
Proof.
  induction fuel as [|fuel IH]; intros s s' Hs H; cbn [scheduleLoop] in H;
    destruct (JS.ltb _ _); try discriminate;
    try (injection H as <-; repeat split; reflexivity).
  destruct (scheduleStep_silent now s Hs) as (A1 & A2 & A3 & A4 & A5 & A6).
  destruct (IH _ _ (eq_trans (hasRecorded_same _ _ A3) Hs) H)
    as (B1 & B2 & B3 & B4 & B5 & B6).
  repeat split; congruence.
Qed.

Lemma updateBarBeat_keeps now s :
  playLog (updateBarBeat now s) = playLog s
  /\ dispatchLog (updateBarBeat now s) = dispatchLog s
  /\ sequence (updateBarBeat now s) = sequence s
  /\ isPlaying (updateBarBeat now s) = isPlaying s
  /\ schedulerTimer (updateBarBeat now s) = schedulerTimer s
  /\ timeouts (updateBarBeat now s) = timeouts s
  /\ bpm (updateBarBeat now s) = bpm s.
Proof.
  unfold updateBarBeat. cbv zeta.
  destruct (JS.ltb 0 (sequenceStartTime s)); repeat split; reflexivity.
Qed.

Lemma clearSequence_fields s :
  hasRecordedSequence (clearSequence s) = false
  /\ sequence (clearSequence s) = emptySequence
  /\ isPlaying (clearSequence s) = isPlaying s
  /\ schedulerTimer (clearSequence s) = schedulerTimer s
  /\ intervals (clearSequence s) = intervals s
  /\ playLog (clearSequence s) = playLog s
  /\ dispatchLog (clearSequence s) = dispatchLog s
  /\ bpm (clearSequence s) = bpm s.
Proof. repeat split; reflexivity. Qed.

(** X28.  Clearing the sequence does not stop playback: the player goes on
    playing with its tick interval registered, and every later tick runs to
    its end and starts no sound. *)
Theorem clear_silences_playback (s : Player) (now : Q) :
  0 < bpm s ->
  isPlaying (clearSequence s) = isPlaying s
  /\ schedulerTimer (clearSequence s) = schedulerTimer s
  /\ intervals (clearSequence s) = intervals s
  /\ exists s',
       schedulerTick (stepsToHorizon now (clearSequence s)) now (clearSequence s)
       = Some s'
       /\ playLog s' = playLog s /\ dispatchLog s' = dispatchLog s
       /\ isPlaying s' = isPlaying s /\ schedulerTimer s' = schedulerTimer s
       /\ hasRecordedSequence s' = false.
Proof.
  intros Hb.
  destruct (clearSequence_fields s) as (C1 & C2 & C3 & C4 & C5 & C6 & C7 & C8).
  split; [exact C3 |]. split; [exact C4 |]. split; [exact C5 |].
  destruct (schedulerTick_returns now (clearSequence s)) as (s' & R);
    [rewrite C8; exact Hb |].
  exists s'. split; [exact R |]. unfold schedulerTick in R.
  destruct (updateBarBeat_keeps now (clearSequence s))
    as (U1 & U2 & U3 & U4 & U5 & U6 & U7).
  destruct (scheduleLoop_silent now _ _ s'
              (eq_trans (hasRecorded_same _ _ U3) C1) R)
    as (L1 & L2 & L3 & L4 & L5 & L6).
  split; [congruence |]. split; [congruence |]. split; [congruence |].
  split; [congruence |].
  rewrite (hasRecorded_same _ _ (eq_trans L3 U3)). exact C1.
Qed.

Lemma clear_silences_playback_witness :
  isPlaying (clearSequence running) = isPlaying running.
Proof.
  apply (clear_silences_playback running 10.4). vm_compute. reflexivity.
Defined.

(** X29.  The expiry callback runs 3000 ms after a tap and forgets the taps only
    when the last one is more than 3000 ms old: run exactly on time after
    the last tap it keeps them.  Once the taps are forgotten the next tap
    starts a new measurement: it is the only tap held, and the tempo and
    the sequence stay as they are. *)
Theorem tap_after_expiry_restarts (taps : list Z) (t now now' : Z) (s : Player) :
  last taps = Some t -> (3000 < now - t)%Z ->
  expireTaps (t + 3000) taps = taps
  /\ expireTaps now taps = []
  /\ handleTapTempo now' (expireTaps now taps) s = ([now'], s).
Proof.
  intros Hl H. unfold expireTaps. rewrite Hl.
  destruct (Z.ltb_spec 3000 (t + 3000 - t)); [lia |].
  destruct (Z.ltb_spec 3000 (now - t)); [| lia].
  repeat split; reflexivity.
Qed.

Lemma tap_after_expiry_restarts_witness :
  handleTapTempo 9000 (expireTaps 4001 [0; 500; 1000]%Z) (withAudio initialPlayer)
  = ([9000%Z], withAudio initialPlayer).
Proof.
  apply (tap_after_expiry_restarts [0; 500; 1000]%Z 1000 4001 9000).
  - reflexivity.
  - lia.
Defined.
